(** * Kirigami [ImageColors]: palette extraction

    A shallow embedding of [src/imagecolors.cpp] (the perceptual distance
    [squareDistance], the first-fit assignment [positionColor] and the
    pipeline of [ImageColors::generatePalette]) together with the
    properties of the extraction engine.

    Layout: the Qt value types the source calls into ([QRgb], [QColor]),
    a small trace-and-failure monad for the arithmetic that C++ leaves
    undefined, the embedding of the source, and then the theorems. *)

From Stdlib Require Import ZArith QArith Qround Qabs Lia Lqa Sorted Floats.
From stdpp Require Import base list.

Close Scope Q_scope.
Open Scope Z_scope.

(** ** Qt colour values

    [QRgb] is Qt's [unsigned int] laid out as [#AARRGGBB]; the accessors are
    the shifts and masks of [qrgb.h].  [QColor] keeps sixteen-bit components
    tagged with a colour spec, as [qcolor.h] does; only the specs that the
    source can produce are represented.  Qt computes the HSV and HSL
    conversions in [qreal]; here they are carried out over [Q]. *)
Module Qt.

Definition QRgb := Z.

Definition qRed (rgb : QRgb) : Z := Z.land (Z.shiftr rgb 16) 255.
Definition qGreen (rgb : QRgb) : Z := Z.land (Z.shiftr rgb 8) 255.
Definition qBlue (rgb : QRgb) : Z := Z.land rgb 255.

Definition qRgb (r g b : Z) : QRgb :=
  Z.lor (Z.shiftl 255 24)
    (Z.lor (Z.shiftl (Z.land r 255) 16)
       (Z.lor (Z.shiftl (Z.land g 255) 8) (Z.land b 255))).

Definition qGray (rgb : QRgb) : Z :=
  Z.quot (qRed rgb * 11 + qGreen rgb * 16 + qBlue rgb * 5) 32.

Definition USHRT_MAX : Z := 65535.

Inductive QColor : Type :=
| Invalid
| Rgb (alpha red green blue : Z)
| Hsl (alpha hue saturation lightness : Z).

(** [QColor(int r, int g, int b, int a = 255)] *)
Definition fromRgb (r g b a : Z) : QColor :=
  if (0 <=? r) && (r <=? 255) && (0 <=? g) && (g <=? 255)
     && (0 <=? b) && (b <=? 255) && (0 <=? a) && (a <=? 255)
  then Rgb (a * 257) (r * 257) (g * 257) (b * 257)
  else Invalid.

(** [QColor(QRgb)]: the alpha byte is dropped, the colour is opaque. *)
Definition fromQRgb (color : QRgb) : QColor :=
  Rgb 65535 (qRed color * 257) (qGreen color * 257) (qBlue color * 257).

(** [Qt::white], [Qt::black] *)
Definition white : QColor := fromRgb 255 255 255 255.
Definition black : QColor := fromRgb 0 0 0 255.

Definition qRound (d : Q) : Z := Qfloor (d + (1 # 2))%Q.

Definition max3 (a b c : Z) : Z := Z.max (Z.max a b) c.
Definition min3 (a b c : Z) : Z := Z.min (Z.min a b) c.

Definition Qlt_bool (x y : Q) : bool := negb (Qle_bool y x).

(** The hue, in hundredths of a degree, of a chromatic colour
    ([toHsv] and [toHsl] share this computation). *)
Definition hueOf (r g b : Z) : Z :=
  let mx := max3 r g b in
  let delta := mx - min3 r g b in
  let hue : Q :=
    (if r =? mx then inject_Z (g - b) / inject_Z delta
     else if g =? mx then 2 + inject_Z (b - r) / inject_Z delta
     else 4 + inject_Z (r - g) / inject_Z delta)%Q in
  let hue := (hue * 60)%Q in
  let hue := (if Qlt_bool hue 0 then hue + 360 else hue)%Q in
  qRound (hue * 100)%Q.

(** [toHsv()] of an RGB colour: the triple (hue, saturation, value). *)
Definition hsvOfRgb (r g b : Z) : Z * Z * Z :=
  let mx := max3 r g b in
  let delta := mx - min3 r g b in
  if delta =? 0 then (USHRT_MAX, 0, mx)
  else (hueOf r g b,
        qRound (inject_Z delta / inject_Z mx * inject_Z USHRT_MAX)%Q,
        mx).

(** [toHsl()] of an RGB colour: the triple (hue, saturation, lightness). *)
Definition hslOfRgb (r g b : Z) : Z * Z * Z :=
  let mx := max3 r g b in
  let mn := min3 r g b in
  let delta := mx - mn in
  let delta2 := mx + mn in
  let lightness := qRound ((1 # 2) * inject_Z delta2)%Q in
  if delta =? 0 then (USHRT_MAX, 0, lightness)
  else
    let saturation :=
      if delta2 <? USHRT_MAX
      then qRound (inject_Z delta / inject_Z delta2 * inject_Z USHRT_MAX)%Q
      else qRound (inject_Z delta / inject_Z (2 * USHRT_MAX - delta2)
                   * inject_Z USHRT_MAX)%Q in
    (hueOf r g b, saturation, lightness).

(** One channel of [toRgb()] for an HSL colour; [t3] is the shifted hue. *)
Definition hslChannel (temp1 temp2 t3 : Q) : Z :=
  let t3 := (if Qlt_bool t3 0 then t3 + 1
             else if Qlt_bool 1 t3 then t3 - 1 else t3)%Q in
  let sixtemp3 := (t3 * 6)%Q in
  let v : Q :=
    (if Qlt_bool sixtemp3 1 then temp1 + (temp2 - temp1) * sixtemp3
     else if Qlt_bool (t3 * 2) 1 then temp2
     else if Qlt_bool (t3 * 3) 2
          then temp1 + (temp2 - temp1) * ((2 # 3) - t3) * 6
          else temp1)%Q in
  let c := qRound (v * inject_Z USHRT_MAX)%Q in
  if c =? 1 then 0 else c.

Definition rgbOfHsl (hue saturation lightness : Z) : Z * Z * Z :=
  if (saturation =? 0) || (hue =? USHRT_MAX)
  then (lightness, lightness, lightness)
  else if lightness =? 0 then (0, 0, 0)
  else
    let h : Q := (if hue =? 36000 then 0 else inject_Z hue / 36000)%Q in
    let s : Q := (inject_Z saturation / inject_Z USHRT_MAX)%Q in
    let l : Q := (inject_Z lightness / inject_Z USHRT_MAX)%Q in
    let temp2 : Q :=
      (if Qlt_bool l (1 # 2) then l * (1 + s) else l + s - l * s)%Q in
    let temp1 : Q := (2 * l - temp2)%Q in
    (hslChannel temp1 temp2 (h + (1 # 3))%Q,
     hslChannel temp1 temp2 h,
     hslChannel temp1 temp2 (h - (1 # 3))%Q).

(** The sixteen-bit RGB components behind [red()], [rgb()], ...;
    an invalid colour holds zeroes. *)
Definition rgb16 (c : QColor) : Z * Z * Z :=
  match c with
  | Invalid => (0, 0, 0)
  | Rgb _ r g b => (r, g, b)
  | Hsl _ h s l => rgbOfHsl h s l
  end.

Definition red (c : QColor) : Z := let '(r, _, _) := rgb16 c in Z.shiftr r 8.
Definition green (c : QColor) : Z := let '(_, g, _) := rgb16 c in Z.shiftr g 8.
Definition blue (c : QColor) : Z := let '(_, _, b) := rgb16 c in Z.shiftr b 8.

Definition alpha (c : QColor) : Z :=
  match c with
  | Invalid => Z.shiftr USHRT_MAX 8
  | Rgb a _ _ _ | Hsl a _ _ _ => Z.shiftr a 8
  end.

Definition rgb (c : QColor) : QRgb := qRgb (red c) (green c) (blue c).

(** HSV [saturation()] and [value()]. *)
Definition saturation (c : QColor) : Z :=
  match c with
  | Invalid => 0
  | _ => let '(r, g, b) := rgb16 c in
         let '(_, s, _) := hsvOfRgb r g b in Z.shiftr s 8
  end.

Definition value (c : QColor) : Z :=
  match c with
  | Invalid => 0
  | _ => let '(r, g, b) := rgb16 c in
         let '(_, _, v) := hsvOfRgb r g b in Z.shiftr v 8
  end.

(** The HSL triple of a colour, as stored after [toHsl()]. *)
Definition hsl16 (c : QColor) : Z * Z * Z :=
  match c with
  | Invalid => (0, 0, 0)
  | Rgb _ r g b => hslOfRgb r g b
  | Hsl _ h s l => (h, s, l)
  end.

Definition hslHue (c : QColor) : Z :=
  let '(h, _, _) := hsl16 c in if h =? USHRT_MAX then -1 else Z.quot h 100.
Definition hslSaturation (c : QColor) : Z :=
  let '(_, s, _) := hsl16 c in Z.shiftr s 8.
Definition lightness (c : QColor) : Z :=
  let '(_, _, l) := hsl16 c in Z.shiftr l 8.

(** [setHsl(h, s, l)] with the default alpha of 255; parameters out of
    range invalidate the colour. *)
Definition setHsl (h s l : Z) : QColor :=
  if (h <? -1) || (s <? 0) || (255 <? s) || (l <? 0) || (255 <? l)
  then Invalid
  else Hsl (255 * 257)
           (if h =? -1 then USHRT_MAX else Z.rem h 360 * 100)
           (s * 257) (l * 257).

(** [QImage]: only what [generatePalette] asks of it. *)
Record QImage : Type := {
  isNull : bool;
  width : Z;
  height : Z;
  pixelColor : Z -> Z -> QColor
}.

End Qt.

Import Qt.

(** ** Undefined behaviour and the division trace

    C++ leaves an integer division by zero undefined; a [qreal] division
    by zero yields an infinity or a NaN, which the source then converts
    to [int], and that conversion is undefined, as is the conversion of
    any [qreal] outside the range of [int]; and [QList::erase] is
    undefined on an iterator that no longer points into the list.  The
    embedding runs in a monad that records each division the source
    performs and stops, with no result, at a zero divisor, at a
    conversion that is out of range and at an erasure outside the list. *)
Inductive event : Type :=
| IntDivision (num den : Z)
| RealDivision (num den : Q).

Definition M (A : Type) : Type := (list event * option A)%type.

Definition ret {A} (a : A) : M A := ([], Some a).

Definition bind {A B} (m : M A) (f : A -> M B) : M B :=
  match m with
  | (t, None) => (t, None)
  | (t, Some a) => let '(t', r) := f a in (t ++ t', r)
  end.

Definition undefined {A} : M A := ([], None).

Notation "x <- m ;; k" := (bind m (fun x => k))
  (at level 100, m at next level, right associativity).

Definition trace {A} (m : M A) : list event := fst m.
Definition result {A} (m : M A) : option A := snd m.

Definition int_div (a b : Z) : M Z :=
  ([IntDivision a b], if b =? 0 then None else Some (Z.quot a b)).

Definition real_div (a b : Q) : M Q :=
  ([RealDivision a b], if Qeq_bool b 0 then None else Some (a / b)%Q).

Fixpoint mapM {A B} (f : A -> M B) (l : list A) : M (list B) :=
  match l with
  | [] => ret []
  | a :: l' => b <- f a ;; bs <- mapM f l' ;; ret (b :: bs)
  end.

Fixpoint foldM {A B} (f : A -> B -> M A) (l : list B) (a : A) : M A :=
  match l with
  | [] => ret a
  | b :: l' => a' <- f a b ;; foldM f l' a'
  end.

(** ** Machine arithmetic

    [int] has 32 bits in two's complement: a sum that leaves the range
    wraps around.  [qreal] is [double], IEEE 754 binary64; its
    operations are those of the kernel's primitive floats, each rounded
    to nearest, ties to even. *)
Definition wrapInt (z : Z) : Z :=
  (z + 2147483648) mod 4294967296 - 2147483648.

Definition qreal : Type := float.

(** [qreal(n)] for an [int] [n]: exact. *)
Definition ofInt (n : Z) : qreal :=
  SF2Prim (binary_normalize 53 1024 n 0 false).

(** The [double] that stands for a ratio kept as a rational: the quotient
    of numerator and denominator, which is the nearest [double] whenever
    both are below 2^53. *)
Definition ofRatio (q : Q) : qreal :=
  PrimFloat.div (ofInt (Qnum (Qred q))) (ofInt (Z.pos (Qden (Qred q)))).

(** Conversion of a [qreal] to [int]: truncation toward zero, undefined
    for a NaN, an infinity and a value outside the range of [int]. *)
Definition toInt (x : qreal) : M Z :=
  ([],
   match Prim2SF x with
   | S754_zero _ => Some 0
   | S754_finite negative m e =>
       let magnitude :=
         if 0 <=? e then Z.pos m * 2 ^ e else Z.quot (Z.pos m) (2 ^ (- e)) in
       let v := if negative then - magnitude else magnitude in
       if (-2147483648 <=? v) && (v <=? 2147483647) then Some v else None
   | _ => None
   end).

(** ** The embedding of [imagecolors.cpp] *)

(** [ImageData::colorStat] and [ImageData], with the fields the source
    reads and writes (both are declared in [imagecolors.h]). *)
Record colorStat : Type := {
  colors : list QRgb;
  centroid : QRgb;
  ratio : Q
}.

(** One entry of [m_palette]: the [QVariantMap] with the keys
    ["color"], ["ratio"] and ["contrastColor"]. *)
Record paletteEntry : Type := {
  color : QColor;
  entryRatio : Q;
  contrastColor : QColor
}.

Record ImageData : Type := {
  m_samples : list QRgb;
  m_clusters : list colorStat;
  m_palette : list paletteEntry;
  m_dominant : QColor;
  m_suggestedContrast : QColor;
  m_mostSaturated : QColor;
  m_closestToBlack : QColor;
  m_closestToWhite : QColor
}.

(** Modelled from the spec: the declaration of [ImageData] is in
    [imagecolors.h], which is not among the sources; a default-constructed
    [ImageData] has empty lists and the colours of [QColor()]. *)
Definition ImageData_default : ImageData :=
  {| m_samples := []; m_clusters := []; m_palette := [];
     m_dominant := Invalid; m_suggestedContrast := Invalid;
     m_mostSaturated := Invalid;
     m_closestToBlack := Invalid; m_closestToWhite := Invalid |}.

Definition squareDistance (color1 color2 : QRgb) : Z :=
  if qRed color1 - qRed color2 <? 128 then
    2 * (qRed color1 - qRed color2) ^ 2 +
    4 * (qGreen color1 - qGreen color2) ^ 2 +
    3 * (qBlue color1 - qBlue color2) ^ 2
  else
    3 * (qRed color1 - qRed color2) ^ 2 +
    4 * (qGreen color1 - qGreen color2) ^ 2 +
    2 * (qBlue color1 - qBlue color2) ^ 2.

(** The score that selects [m_mostSaturated]. *)
Definition saturationScore (c : QColor) : Z :=
  saturation c + (158 - Z.abs (158 - value c)).

#[global] Arguments squareDistance : simpl never.
#[global] Arguments saturationScore : simpl never.
#[global] Arguments qGray : simpl never.
#[global] Arguments rgb : simpl never.
#[global] Arguments alpha : simpl never.
#[global] Arguments fromQRgb : simpl never.
#[global] Arguments fromRgb : simpl never.

Section Palette.

(** The two declarations of [imagecolors.h] that the source relies on:
    the threshold [s_minimumSquareDistance] and the value that a
    default-constructed [colorStat] holds in [ratio]. *)
Variable s_minimumSquareDistance : Z.
Variable ratio_default : Q.

Definition appendColor (stat : colorStat) (rgb : QRgb) : colorStat :=
  {| colors := colors stat ++ [rgb];
     centroid := centroid stat;
     ratio := ratio stat |}.

Fixpoint positionColor (rgb : QRgb) (clusters : list colorStat)
  : list colorStat :=
  match clusters with
  | stat :: rest =>
      if squareDistance rgb (centroid stat) <? s_minimumSquareDistance
      then appendColor stat rgb :: rest
      else stat :: positionColor rgb rest
  | [] =>
      [ {| colors := [rgb]; centroid := rgb; ratio := ratio_default |} ]
  end.

(** The pixels in the order of the two nested loops: [x] outermost. *)
Definition range (n : Z) : list Z := map Z.of_nat (seq 0 (Z.to_nat n)).

Definition scanOrder (sourceImage : QImage) : list (Z * Z) :=
  x ← range (width sourceImage);
  y ← range (height sourceImage);
  [(x, y)].

Definition samplePixel (st : list QRgb * list colorStat) (sampleColor : QColor)
  : list QRgb * list colorStat :=
  if alpha sampleColor =? 0 then st
  else (st.1 ++ [rgb sampleColor], positionColor (rgb sampleColor) st.2).

(** The sampling loop: [m_samples] and [m_clusters] after it. *)
Definition collectSamples (sourceImage : QImage)
  : list QRgb * list colorStat :=
  fold_left
    (fun st '(x, y) => samplePixel st (pixelColor sourceImage x y))
    (scanOrder sourceImage) ([], []).

(** The loop over [stat.colors]: the channel sums, which are [int]s and
    wrap, and the count [c].  The count ends as [stat.colors.count()],
    which Qt 5 keeps in an [int]: it cannot leave the range. *)
Definition sumChannels (acc : Z * Z * Z * Z) (cs : list QRgb) : Z * Z * Z * Z :=
  fold_left
    (fun '(r, g, b, c) color =>
       (wrapInt (r + qRed color), wrapInt (g + qGreen color),
        wrapInt (b + qBlue color), c + 1))
    cs acc.

(** The body of the loop over [m_clusters] that opens an iteration. *)
Definition updateCentroid (samples : list QRgb) (stat : colorStat)
  : M colorStat :=
  let '(r, g, b, c) := sumChannels (0, 0, 0, 0) (colors stat) in
  r <- int_div r c ;;
  g <- int_div g c ;;
  b <- int_div b c ;;
  rt <- real_div (inject_Z (Z.of_nat (length (colors stat))))
                 (inject_Z (Z.of_nat (length samples))) ;;
  ret {| colors := [qRgb r g b]; centroid := qRgb r g b; ratio := rt |}.

Definition reassign (samples : list QRgb) (clusters : list colorStat)
  : list colorStat :=
  fold_left (fun cl color => positionColor color cl) samples clusters.

Definition refineIteration (samples : list QRgb) (clusters : list colorStat)
  : M (list colorStat) :=
  updated <- mapM (updateCentroid samples) clusters ;;
  ret (reassign samples updated).

Fixpoint refine (iterations : nat) (samples : list QRgb)
  (clusters : list colorStat) : M (list colorStat) :=
  match iterations with
  | O => ret clusters
  | S n =>
      clusters' <- refineIteration samples clusters ;;
      refine n samples clusters'
  end.

(** The comparator handed to [std::sort]. *)
Definition moreColors (a b : colorStat) : bool :=
  (length (colors b) <? length (colors a))%nat.

(** [std::sort] with that comparator, run as an insertion sort.  The
    standard leaves the order of equivalent elements open; nothing below
    relies on how ties come out. *)
Fixpoint insertSorted (a : colorStat) (l : list colorStat) : list colorStat :=
  match l with
  | [] => [a]
  | b :: l' => if moreColors a b then a :: b :: l'
               else b :: insertSorted a l'
  end.

Definition std_sort (l : list colorStat) : list colorStat :=
  fold_left (fun sorted a => insertSorted a sorted) l [].

Definition withinThreshold (source dest : colorStat) : Prop :=
  squareDistance (centroid source) (centroid dest) < s_minimumSquareDistance.

#[global] Instance withinThreshold_dec source dest :
  Decision (withinThreshold source dest).
Proof. unfold withinThreshold. apply _. Defined.

(** The weight of a merge, the source's ratio over the destination's, as the
    [double] the source computes.  The [ratio] fields are kept as exact
    rationals and rounded to [double] where they enter this division. *)
Definition weight (sourceRatio destRatio : Q) : M qreal :=
  ([RealDivision sourceRatio destRatio],
   if Qeq_bool destRatio 0 then None
   else Some (PrimFloat.div (ofRatio sourceRatio) (ofRatio destRatio))).

(** One channel of the merged centroid,
    [ratio * qreal(s) + (1 - ratio) * qreal(d)] converted to [int]. *)
Definition mix (ratio' : qreal) (s d : Z) : M Z :=
  toInt (PrimFloat.add
           (PrimFloat.mul ratio' (ofInt s))
           (PrimFloat.mul (PrimFloat.sub (ofInt 1) ratio') (ofInt d))).

(** The destination after it has taken [source] in. *)
Definition absorb (source dest : colorStat) : M colorStat :=
  ratio' <- weight (ratio source) (ratio dest) ;;
  r <- mix ratio' (qRed (centroid source)) (qRed (centroid dest)) ;;
  g <- mix ratio' (qGreen (centroid source)) (qGreen (centroid dest)) ;;
  b <- mix ratio' (qBlue (centroid source)) (qBlue (centroid dest)) ;;
  ret {| colors := colors dest;
         centroid := qRgb r g b;
         ratio := (ratio dest + ratio source)%Q |}.

(** The [while] loop of the compression: [sourceIt] is the position of
    the iterator, counted from [begin()]; the state is the cluster list
    and [itemsToDelete]. *)
Fixpoint mergeLoop (sourceIt : nat) (clusters : list colorStat)
  (itemsToDelete : list nat) : M (list colorStat * list nat) :=
  match sourceIt with
  | O => ret (clusters, itemsToDelete)
  | S i =>
      match clusters !! i with
      | None => undefined
      | Some source =>
          match list_find (withinThreshold source) (take i clusters) with
          | Some (j, dest) =>
              dest' <- absorb source dest ;;
              mergeLoop i (<[j := dest']> clusters) (itemsToDelete ++ [i])
          | None => mergeLoop i clusters itemsToDelete
          end
      end
  end.

(** [m_clusters.erase(i)] for an iterator [i] stored during the sweep.
    A Qt 5 [QList] iterator is a pointer to a slot of the list's array,
    and [erase] reads it against the current [begin]:
    [QListData::remove] closes the gap from the shorter side, and when it
    moves the front part up it advances [begin], so that every slot
    stored earlier then stands for the element one position before.
    The state is the list and the number of slots [begin] has advanced;
    [i] is the position the iterator had when it was stored.  A slot
    before [begin] or past the end is outside the list. *)
Definition erase (st : list colorStat * nat) (i : nat)
  : M (list colorStat * nat) :=
  let '(clusters, begin) := st in
  if (i <? begin)%nat || (begin + length clusters <=? i)%nat then undefined
  else
    let index := (i - begin)%nat in
    ret (delete index clusters,
         if (index <? length clusters - index)%nat then S begin else begin).

(** The loop over [itemsToDelete]. *)
Definition eraseItems (clusters : list colorStat) (itemsToDelete : list nat)
  : M (list colorStat) :=
  st <- foldM erase itemsToDelete (clusters, 0%nat) ;;
  ret st.1.

Definition mergeClusters (clusters : list colorStat) : M (list colorStat) :=
  swept <- mergeLoop (length clusters) clusters [] ;;
  eraseItems swept.1 swept.2.

(** The inner loop of the derivation: the centroid nearest to [contrast]. *)
Definition nearestCentroid (contrast : QColor) (clusters : list colorStat)
  : QColor :=
  (fold_left
     (fun '(tempContrast, minimumDistance) stat =>
        let distance := squareDistance (rgb contrast) (centroid stat) in
        if distance <? minimumDistance
        then (fromQRgb (centroid stat), distance)
        else (tempContrast, minimumDistance))
     clusters (Invalid, 4681800)).1.

Definition nudgeLightness (c : QColor) : QColor :=
  setHsl (hslHue c) (hslSaturation c)
         (if 128 <? lightness c then lightness c + 20 else lightness c - 20).

(** The contrast colour of one palette entry. *)
Definition contrastFor (imageData : ImageData) (color : QColor) : QColor :=
  let contrast :=
    fromRgb (255 - red color) (255 - green color) (255 - blue color) 255 in
  let contrast :=
    setHsl (hslHue contrast) (hslSaturation contrast)
           (128 + (128 - lightness contrast)) in
  let tempContrast := nearestCentroid contrast (m_clusters imageData) in
  if (length (m_clusters imageData) <? 3)%nat then
    if qGray (rgb (m_dominant imageData)) <? 120
    then fromRgb 230 230 230 255
    else fromRgb 20 20 20 255
  else if Qlt_bool
            (inject_Z (squareDistance (rgb contrast) (rgb tempContrast)))
            (inject_Z s_minimumSquareDistance * (3 # 2))%Q
  then tempContrast
  else nudgeLightness tempContrast.

(** The body of the loop that fills [m_palette]; the state is
    [imageData] and the flag [first]. *)
Definition paletteStep (st : ImageData * bool) (stat : colorStat)
  : ImageData * bool :=
  let '(imageData, first) := st in
  let color := fromQRgb (centroid stat) in
  let contrast := contrastFor imageData color in
  let entry :=
    {| color := color; entryRatio := ratio stat; contrastColor := contrast |} in
  ({| m_samples := m_samples imageData;
      m_clusters := m_clusters imageData;
      m_palette := m_palette imageData ++ [entry];
      m_dominant := m_dominant imageData;
      m_suggestedContrast :=
        if first then contrast else m_suggestedContrast imageData;
      m_mostSaturated :=
        if saturationScore (m_mostSaturated imageData) <? saturationScore color
        then color else m_mostSaturated imageData;
      m_closestToBlack :=
        if qGray (rgb color) <? qGray (rgb (m_closestToBlack imageData))
        then color else m_closestToBlack imageData;
      m_closestToWhite :=
        if qGray (rgb (m_closestToWhite imageData)) <? qGray (rgb color)
        then color else m_closestToWhite imageData |},
   false).

(** Everything after the compression: the seeds of the derived colours
    and the loop over the final clusters.  [first()] of an empty list is
    undefined. *)
Definition deriveColors (samples : list QRgb) (clusters : list colorStat)
  : M ImageData :=
  match clusters with
  | [] => undefined
  | firstStat :: _ =>
      let imageData :=
        {| m_samples := samples;
           m_clusters := clusters;
           m_palette := [];
           m_dominant := fromQRgb (centroid firstStat);
           m_suggestedContrast := m_suggestedContrast ImageData_default;
           m_mostSaturated := Invalid;
           m_closestToBlack := white;
           m_closestToWhite := black |} in
      ret (fold_left paletteStep clusters (imageData, true)).1
  end.

(** The clusters as they stand after the five iterations, after the
    sort, and after the compression. *)
Definition refinedClusters (samples : list QRgb) (clusters : list colorStat)
  : M (list colorStat) :=
  refine 5 samples clusters.

Definition sortedClusters (samples : list QRgb) (clusters : list colorStat)
  : M (list colorStat) :=
  refined <- refinedClusters samples clusters ;;
  ret (std_sort refined).

Definition mergedClusters (samples : list QRgb) (clusters : list colorStat)
  : M (list colorStat) :=
  sorted <- sortedClusters samples clusters ;;
  mergeClusters sorted.

Definition generatePalette (sourceImage : QImage) : M ImageData :=
  if isNull sourceImage || (width sourceImage =? 0) then ret ImageData_default
  else
    let '(samples, clusters) := collectSamples sourceImage in
    match samples with
    | [] =>
        ret {| m_samples := samples;
               m_clusters := clusters;
               m_palette := m_palette ImageData_default;
               m_dominant := m_dominant ImageData_default;
               m_suggestedContrast := m_suggestedContrast ImageData_default;
               m_mostSaturated := m_mostSaturated ImageData_default;
               m_closestToBlack := m_closestToBlack ImageData_default;
               m_closestToWhite := m_closestToWhite ImageData_default |}
    | _ :: _ =>
        merged <- mergedClusters samples clusters ;;
        deriveColors samples merged
    end.

End Palette.

#[global] Arguments contrastFor : simpl never.
#[global] Arguments paletteStep : simpl never.

(** ** Images used in the worked examples *)

(** An image given by its columns: [columns !! x !! y] is the pixel at
    [(x, y)] as [(r, g, b, a)]; outside the image [pixelColor] returns
    [QColor()]. *)
Definition imageOfColumns (w h : Z) (columns : list (list (Z * Z * Z * Z)))
  : QImage :=
  {| isNull := false;
     width := w;
     height := h;
     pixelColor := fun x y =>
       match columns !! Z.to_nat x ≫= (.!! Z.to_nat y) with
       | Some (r, g, b, a) => fromRgb r g b a
       | None => Invalid
       end |}.

(** Scenario A: two by two, every pixel opaque (200,100,50). *)
Definition scenarioA : QImage :=
  imageOfColumns 2 2
    [[(200, 100, 50, 255); (200, 100, 50, 255)];
     [(200, 100, 50, 255); (200, 100, 50, 255)]].

(** A single column of opaque pixels, scanned top to bottom. *)
Definition columnImage (pixels : list (Z * Z * Z)) : QImage :=
  imageOfColumns 1 (Z.of_nat (length pixels))
    [map (fun '(r, g, b) => (r, g, b, 255)) pixels].

(** Eleven pixels in three groups: two of one green, four that straddle
    it at a blue distance, five far away in red. *)
Definition threeGroups : QImage :=
  columnImage
    [(0, 41, 0); (0, 41, 0);
     (0, 0, 93); (0, 80, 93); (0, 0, 93); (0, 80, 93);
     (255, 40, 93); (255, 40, 93); (255, 40, 93); (255, 40, 93); (255, 40, 93)].

(** Seven pixels: two of one colour, four around a second colour close
    to the first, and one beside the line that joins the two. *)
Definition besideTheLine : QImage :=
  columnImage
    [(41, 0, 101); (41, 0, 101);
     (0, 0, 0); (80, 0, 0); (0, 0, 0); (80, 0, 0);
     (40, 85, 50)].

(** Two pixels in a column, both with alpha zero. *)
Definition transparentPair : QImage :=
  imageOfColumns 1 2 [[(10, 10, 10, 0); (200, 100, 50, 0)]].

(** Eight greys of blue in a column; the first pixel is left without a
    cluster when the fifth iteration assigns the samples. *)
Definition lateCluster : QImage :=
  columnImage
    [(0, 0, 224); (0, 0, 58); (0, 0, 96); (0, 0, 8);
     (0, 0, 12); (0, 0, 53); (0, 0, 156); (0, 0, 10)].

(** Eleven pixels: the fifth assignment leaves the first pixel and the
    tenth without a cluster, and the cluster it creates for them is
    close to the largest one. *)
Definition lateSource : QImage :=
  columnImage
    [(117, 20, 144); (233, 85, 1); (216, 88, 81); (146, 83, 77);
     (231, 0, 90); (220, 14, 0); (234, 86, 38); (178, 84, 27);
     (153, 101, 20); (189, 64, 187); (234, 143, 0)].

(** Eight pixels: five clusters reach the compression, which folds the
    third into the second and the second into the first. *)
Definition frontErasure : QImage :=
  columnImage
    [(87, 136, 211); (42, 64, 144); (134, 120, 107); (50, 141, 245);
     (24, 154, 104); (38, 161, 173); (151, 68, 18); (226, 186, 19)].

(** Twenty-one pixels: nine clusters reach the compression, none of
    them opened by the fifth assignment; the sweep folds the fourth and
    the third into the first and the second into the third. *)
Definition twiceFromFront : QImage :=
  columnImage
    [(4, 6, 152); (75, 43, 227); (103, 8, 221); (201, 125, 178);
     (113, 82, 91); (74, 131, 184); (68, 129, 166); (135, 8, 36);
     (184, 7, 237); (233, 47, 82); (5, 120, 68); (159, 109, 253);
     (64, 226, 29); (71, 58, 40); (207, 96, 45); (174, 196, 98);
     (52, 24, 153); (114, 250, 24); (69, 111, 238); (55, 208, 164);
     (208, 246, 155)].

(** One opaque black pixel. *)
Definition blackPixel : QImage := columnImage [(0, 0, 0)].

(** The threshold and the default [ratio] used where an example has to
    run: [thresholdExample] stands for [s_minimumSquareDistance]. *)
Definition thresholdExample : Z := 32000.
Definition ratioExample : Q := 0%Q.

(** The channels of a colour and the ratios of a palette, in readable
    form. *)
Definition channels (rgb : QRgb) : Z * Z * Z := (qRed rgb, qGreen rgb, qBlue rgb).

Definition paletteRatios (imageData : ImageData) : list Q :=
  map (fun e => Qred (entryRatio e)) (m_palette imageData).

(** ** Vocabulary of the statements *)

(** The samples the scan retains: the colours of the pixels whose alpha
    is not zero, in scan order. *)
Definition eligibleSamples (sourceImage : QImage) : list QRgb :=
  map rgb
    (filter (fun c => alpha c <> 0)
       (map (fun '(x, y) => pixelColor sourceImage x y)
          (scanOrder sourceImage))).

(** All members of all clusters, and the sum of [colors.count()]. *)
Definition members (clusters : list colorStat) : list QRgb :=
  clusters ≫= colors.

Definition memberCount (clusters : list colorStat) : nat :=
  sum_list (map (fun stat => length (colors stat)) clusters).

(** No cluster is without a member. *)
Definition populated (clusters : list colorStat) : Prop :=
  Forall (fun stat => colors stat <> []) clusters.

(** What the centroid update leaves in a cluster: the centroid as its
    only member and the member count over the sample count as [ratio]. *)
Definition updatedFrom (samples : list QRgb) (stat stat' : colorStat) : Prop :=
  colors stat' = [centroid stat']
  /\ ratio stat' =
     (inject_Z (Z.of_nat (length (colors stat)))
      / inject_Z (Z.of_nat (length samples)))%Q.

(** The sum of the [ratio] fields. *)
Definition ratioSum (clusters : list colorStat) : Q :=
  foldr Qplus 0%Q (map ratio clusters).

(** The palette entry the derivation loop builds for a cluster, and the
    update it applies to [m_mostSaturated]. *)
Definition paletteEntryOf (s_minimumSquareDistance : Z) (imageData : ImageData)
    (stat : colorStat) : paletteEntry :=
  {| color := fromQRgb (centroid stat);
     entryRatio := ratio stat;
     contrastColor :=
       contrastFor s_minimumSquareDistance imageData (fromQRgb (centroid stat)) |}.

Definition clusterScore (stat : colorStat) : Z :=
  saturationScore (fromQRgb (centroid stat)).

Definition moreSaturated (acc : QColor) (stat : colorStat) : QColor :=
  if saturationScore acc <? clusterScore stat
  then fromQRgb (centroid stat) else acc.

(** Descending member count, the order the sort establishes. *)
Definition noFewerColors (a b : colorStat) : Prop :=
  (length (colors b) <= length (colors a))%nat.

(** Every cluster is at least the threshold away from each cluster
    before it, the distance being taken from the later centroid to the
    earlier one, as the compression takes it. *)
Definition separated (s_minimumSquareDistance : Z) (clusters : list colorStat)
  : Prop :=
  forall (i j : nat) source dest,
    (j < i)%nat -> clusters !! i = Some source -> clusters !! j = Some dest ->
    s_minimumSquareDistance <= squareDistance (centroid source) (centroid dest).



(** The cluster that [positionColor] creates for a colour without a
    home, and the test it applies to the existing clusters. *)
Definition singletonCluster (ratio_default : Q) (rgb : QRgb) : colorStat :=
  {| colors := [rgb]; centroid := rgb; ratio := ratio_default |}.

Definition fits (s_minimumSquareDistance : Z) (rgb : QRgb) (stat : colorStat)
  : Prop :=
  squareDistance rgb (centroid stat) < s_minimumSquareDistance.

Definition fits_dec smin rgb stat : Decision (fits smin rgb stat) :=
  Z_lt_dec (squareDistance rgb (centroid stat)) smin.

(** The first cluster, in list order, that a colour fits, with its
    position. *)
Definition firstFit (s_minimumSquareDistance : Z) (rgb : QRgb)
    (clusters : list colorStat) : option (nat * colorStat) :=
  @list_find colorStat (fits s_minimumSquareDistance rgb)
    (fits_dec s_minimumSquareDistance rgb) clusters.

(** A sample has a home: it is a member of a cluster whose centroid is
    within the threshold of it. *)
Definition housed (s_minimumSquareDistance : Z) (clusters : list colorStat)
    (sample : QRgb) : Prop :=
  exists stat,
    stat ∈ clusters /\ sample ∈ colors stat
    /\ fits s_minimumSquareDistance sample stat.

(** Scenario B, an opaque (10,10,10) above a fully transparent pixel,
    and a single (10,10,10) pixel of alpha 7. *)
Definition scenarioB : QImage :=
  imageOfColumns 1 2 [[(10, 10, 10, 255); (90, 90, 90, 0)]].

Definition faintPixel : QImage :=
  imageOfColumns 1 1 [[(10, 10, 10, 7)]].

(** The order of the scan: by column, and within a column by row. *)
Definition scannedBefore (p q : Z * Z) : Prop :=
  p.1 < q.1 \/ (p.1 = q.1 /\ p.2 < q.2).

(** The sum of one channel over a list of colours. *)
Definition sumOf (channel : QRgb -> Z) (cs : list QRgb) : Z :=
  foldr Z.add 0 (map channel cs).

(** The three channel sums of a list of colours are within the range of
    [int]. *)
Definition sumsFit (cs : list QRgb) : Prop :=
  sumOf qRed cs < 2147483648
  /\ sumOf qGreen cs < 2147483648
  /\ sumOf qBlue cs < 2147483648.

(** Two clusters whose centroids are close: the compression folds the
    second into the first. *)
Definition nearPair : list colorStat :=
  [ {| colors := [qRgb 10 10 10; qRgb 10 10 10; qRgb 10 10 10];
       centroid := qRgb 10 10 10; ratio := (1 # 2)%Q |};
    {| colors := [qRgb 20 10 10; qRgb 20 10 10];
       centroid := qRgb 20 10 10; ratio := (1 # 4)%Q |} ].

(** Every cluster has a positive [ratio]. *)
Definition positiveRatios (clusters : list colorStat) : Prop :=
  Forall (fun stat => (0 < ratio stat)%Q) clusters.

(** The fifth assignment opens no cluster: the list is as long after the
    fifth iteration as after the fourth. *)
Definition settled (s_minimumSquareDistance : Z) (ratio_default : Q)
    (sourceImage : QImage) : Prop :=
  exists before refined,
    result (refine s_minimumSquareDistance ratio_default 4
              (collectSamples s_minimumSquareDistance ratio_default sourceImage).1
              (collectSamples s_minimumSquareDistance ratio_default sourceImage).2)
      = Some before
    /\ result (refine s_minimumSquareDistance ratio_default 5
                 (collectSamples s_minimumSquareDistance ratio_default sourceImage).1
                 (collectSamples s_minimumSquareDistance ratio_default sourceImage).2)
         = Some refined
    /\ length refined = length before.

(** The colour the derivation starts a contrast colour from: the
    inverse of [color], with its lightness mirrored about 128. *)
Definition invertedColor (color : QColor) : QColor :=
  let contrast :=
    fromRgb (255 - red color) (255 - green color) (255 - blue color) 255 in
  setHsl (hslHue contrast) (hslSaturation contrast)
         (128 + (128 - lightness contrast)).

(** The distance the inner loop of the derivation measures. *)
Definition distanceFrom (contrast : QColor) (stat : colorStat) : Z :=
  squareDistance (rgb contrast) (centroid stat).

(** [stat], at position [i], is the first cluster of [clusters] at the
    least distance from [contrast]. *)
Definition firstNearest (contrast : QColor) (clusters : list colorStat)
    (i : nat) (stat : colorStat) : Prop :=
  clusters !! i = Some stat
  /\ Forall (fun other => distanceFrom contrast stat <= distanceFrom contrast other)
       clusters
  /\ forall (j : nat) other,
       (j < i)%nat -> clusters !! j = Some other ->
       distanceFrom contrast stat < distanceFrom contrast other.

(** The grey value the derivation compares, and the updates it applies
    to [m_closestToWhite] and [m_closestToBlack]. *)
Definition greyOf (stat : colorStat) : Z :=
  qGray (rgb (fromQRgb (centroid stat))).

Definition brighter (acc : QColor) (stat : colorStat) : QColor :=
  if qGray (rgb acc) <? greyOf stat then fromQRgb (centroid stat) else acc.

Definition darker (acc : QColor) (stat : colorStat) : QColor :=
  if greyOf stat <? qGray (rgb acc) then fromQRgb (centroid stat) else acc.

(** [stat], at position [i], is the first cluster of the greatest grey
    value, and the first of the least. *)
Definition firstBrightest (clusters : list colorStat) (i : nat)
    (stat : colorStat) : Prop :=
  clusters !! i = Some stat
  /\ Forall (fun other => greyOf other <= greyOf stat) clusters
  /\ forall (j : nat) other,
       (j < i)%nat -> clusters !! j = Some other -> greyOf other < greyOf stat.

Definition firstDarkest (clusters : list colorStat) (i : nat)
    (stat : colorStat) : Prop :=
  clusters !! i = Some stat
  /\ Forall (fun other => greyOf stat <= greyOf other) clusters
  /\ forall (j : nat) other,
       (j < i)%nat -> clusters !! j = Some other -> greyOf stat < greyOf other.

(** The one cluster of an image whose samples all have the colour [c]:
    [n] members, the centroid [c] itself. *)
Definition uniformCluster (c : QRgb) (n : nat) (q : Q) : colorStat :=
  {| colors := replicate n c; centroid := c; ratio := q |}.

(** Two close clusters, the first with a ratio of zero. *)
Definition zeroPair : list colorStat :=
  [ {| colors := [qRgb 10 10 10; qRgb 10 10 10];
       centroid := qRgb 10 10 10; ratio := 0%Q |};
    {| colors := [qRgb 20 10 10];
       centroid := qRgb 20 10 10; ratio := (1 # 4)%Q |} ].

(** Two close clusters with positive ratios, the second a thousand
    million times the first. *)
Definition steepPair : list colorStat :=
  [ {| colors := [qRgb 10 10 10; qRgb 10 10 10];
       centroid := qRgb 10 10 10; ratio := (1 # 1000000000)%Q |};
    {| colors := [qRgb 20 10 10];
       centroid := qRgb 20 10 10; ratio := 1%Q |} ].

(** A merge without a result: the destination's ratio is zero, or a
    mixed channel does not convert to [int]. *)
Definition failedMerge (source dest : colorStat) : Prop :=
  (ratio dest == 0)%Q
  \/ exists ratio' (channel : QRgb -> Z),
       result (weight (ratio source) (ratio dest)) = Some ratio'
       /\ (channel = qRed \/ channel = qGreen \/ channel = qBlue)
       /\ result (mix ratio' (channel (centroid source))
                    (channel (centroid dest))) = None.

(** The trace ends with the division of a merge without a result. *)
Definition endsInFailedMerge (t : list event) : Prop :=
  exists before source dest,
    t = before ++ [RealDivision (ratio source) (ratio dest)]
    /\ failedMerge source dest.

(** Deletion at the listed positions, one after the other: what the loop
    over [itemsToDelete] is written to do. *)
Definition deleteListed (clusters : list colorStat) (itemsToDelete : list nat)
  : list colorStat :=
  fold_left (fun cl i => delete i cl) itemsToDelete clusters.

(** Every erasure before the last closes the gap from the back, so that
    [begin] has not moved when the next iterator is read; [n] is the
    length of the list the first erasure meets. *)
Fixpoint erasedFromBack (n : nat) (itemsToDelete : list nat) : Prop :=
  match itemsToDelete with
  | [] => True
  | i :: rest =>
      match rest with
      | [] => True
      | _ :: _ => (n - i <= i)%nat /\ erasedFromBack (n - 1) rest
      end
  end.

(** A division whose divisor is not zero. *)
Definition definedDivision (e : event) : Prop :=
  match e with
  | IntDivision _ den => den <> 0
  | RealDivision _ den => ~ (den == 0)%Q
  end.

(** * Properties *)

(** ** The monad *)

Lemma result_bind {A B} (m : M A) (f : A -> M B) :
  result (bind m f) =
  match result m with Some a => result (f a) | None => None end.
Proof.
  destruct m as [t [a|]]; simpl; [|reflexivity].
  destruct (f a); reflexivity.
Qed.

Lemma trace_bind {A B} (m : M A) (f : A -> M B) :
  trace (bind m f) =
  trace m ++ match result m with Some a => trace (f a) | None => [] end.
Proof.
  destruct m as [t [a|]]; simpl; [|by rewrite app_nil_r].
  destruct (f a); reflexivity.
Qed.

Lemma bind_assoc {A B C} (m : M A) (f : A -> M B) (g : B -> M C) :
  bind (bind m f) g = bind m (fun a => bind (f a) g).
Proof.
  destruct m as [t [a|]]; simpl; [|reflexivity].
  destruct (f a) as [t' [b|]]; simpl; [|reflexivity].
  destruct (g b) as [t'' r]. by rewrite app_assoc.
Qed.

Lemma bind_ext {A B} (m : M A) (f g : A -> M B) :
  (forall a, f a = g a) -> bind m f = bind m g.
Proof. intros H. destruct m as [t [a|]]; simpl; by rewrite ?H. Qed.

Lemma bind_ret_r {A} (m : M A) : bind m ret = m.
Proof. destruct m as [t [a|]]; simpl; by rewrite ?app_nil_r. Qed.

Lemma mapM_result {A B} (f : A -> M B) (l : list A) (l' : list B) :
  result (mapM f l) = Some l' <->
  Forall2 (fun a b => result (f a) = Some b) l l'.
Proof.
  revert l'. induction l as [|a l IH]; intros l'; simpl.
  - split; [intros [= <-]; constructor | by inversion 1].
  - rewrite result_bind. destruct (result (f a)) as [b|] eqn:Hb.
    + rewrite result_bind. destruct (result (mapM f l)) as [bs|] eqn:Hbs.
      * simpl. split.
        -- intros [= <-]. constructor; [done | by apply IH].
        -- inversion 1 as [|? b' ? bs' Hb' Hbs']; subst.
           apply IH in Hbs'. congruence.
      * split; [done |]. inversion 1 as [|? b' ? bs' Hb' Hbs']; subst.
        apply IH in Hbs'. congruence.
    + split; [done |]. inversion 1; congruence.
Qed.

(** ** First-fit assignment *)

Section Assignment.

Variable s_minimumSquareDistance : Z.
Variable ratio_default : Q.

#[local] Abbreviation positionColor := (positionColor s_minimumSquareDistance ratio_default).
#[local] Abbreviation reassign := (reassign s_minimumSquareDistance ratio_default).
#[local] Abbreviation collectSamples := (collectSamples s_minimumSquareDistance ratio_default).
#[local] Abbreviation samplePixel := (samplePixel s_minimumSquareDistance ratio_default).

Lemma members_cons stat clusters :
  members (stat :: clusters) = colors stat ++ members clusters.
Proof. reflexivity. Qed.

Lemma memberCount_members clusters :
  memberCount clusters = length (members clusters).
Proof.
  induction clusters as [|stat cl IH]; [reflexivity |].
  rewrite members_cons, length_app, <- IH. reflexivity.
Qed.

Lemma positionColor_members rgb clusters :
  members (positionColor rgb clusters) ≡ₚ members clusters ++ [rgb].
Proof.
  induction clusters as [|stat cl IH]; cbn [positionColor]; [reflexivity |].
  destruct (_ <? _).
  - rewrite !members_cons. cbn [colors appendColor].
    rewrite <- !app_assoc. apply Permutation_app_head, Permutation_app_comm.
  - rewrite !members_cons, IH, app_assoc. reflexivity.
Qed.

(** Assignment touches no [ratio]: old clusters keep theirs and a new
    cluster carries the default. *)
Lemma positionColor_ratios rgb clusters :
  exists n : nat,
    map ratio (positionColor rgb clusters) =
    map ratio clusters ++ replicate n ratio_default.
Proof.
  induction clusters as [|stat cl [n IH]]; cbn [positionColor].
  - by exists 1%nat.
  - destruct (_ <? _); cbn [map ratio appendColor].
    + exists 0%nat. by rewrite app_nil_r.
    + exists n. by rewrite IH.
Qed.

Lemma positionColor_populated rgb clusters :
  populated clusters -> populated (positionColor rgb clusters).
Proof.
  unfold populated.
  induction 1 as [|stat cl Hs Hcl IH]; cbn [positionColor].
  - by repeat constructor.
  - destruct (_ <? _); constructor; try done.
    cbn [colors appendColor]. by destruct (colors stat).
Qed.

Lemma reassign_members samples clusters :
  members (reassign samples clusters) ≡ₚ members clusters ++ samples.
Proof.
  unfold reassign. revert clusters.
  induction samples as [|rgb samples IH]; intros cl; simpl.
  - by rewrite app_nil_r.
  - rewrite IH, positionColor_members, <- app_assoc. reflexivity.
Qed.

Lemma reassign_ratios samples clusters :
  exists n : nat,
    map ratio (reassign samples clusters) =
    map ratio clusters ++ replicate n ratio_default.
Proof.
  unfold reassign. revert clusters.
  induction samples as [|rgb samples IH]; intros cl; simpl.
  - exists 0%nat. by rewrite app_nil_r.
  - destruct (IH (positionColor rgb cl)) as [n ->].
    destruct (positionColor_ratios rgb cl) as [m ->].
    exists (m + n)%nat. by rewrite <- app_assoc, replicate_add.
Qed.

Lemma reassign_populated samples clusters :
  populated clusters -> populated (reassign samples clusters).
Proof.
  unfold reassign. revert clusters.
  induction samples as [|rgb samples IH]; intros cl H; simpl; [done |].
  by apply IH, positionColor_populated.
Qed.

(** The scan: what it retains and how it clusters. *)
Lemma collect_fold (pixels : list QColor) st :
  let st' := fold_left samplePixel pixels st in
  st'.1 = st.1 ++ map rgb (filter (fun c => alpha c <> 0) pixels)
  /\ (members st.2 ≡ₚ st.1 -> members st'.2 ≡ₚ st'.1)
  /\ (populated st.2 -> populated st'.2).
Proof.
  revert st. induction pixels as [|c pixels IH]; intros st; simpl.
  - rewrite app_nil_r. done.
  - destruct (IH (samplePixel st c)) as (H1 & H2 & H3).
    unfold samplePixel in *. rewrite filter_cons.
    destruct (Z.eqb_spec (alpha c) 0) as [Hz|Hz].
    + rewrite decide_False by (intros ?; done). done.
    + rewrite decide_True by done. simpl in *.
      split; [by rewrite H1, <- app_assoc |].
      split.
      * intros H. apply H2. by rewrite positionColor_members, H.
      * intros H. by apply H3, positionColor_populated.
Qed.

Lemma collectSamples_fold sourceImage :
  collectSamples sourceImage =
  fold_left samplePixel
    (map (fun '(x, y) => pixelColor sourceImage x y) (scanOrder sourceImage))
    ([], []).
Proof.
  unfold collectSamples.
  generalize (@nil QRgb, @nil colorStat).
  induction (scanOrder sourceImage) as [|[x y] l IH]; intros st; simpl; [done |].
  apply IH.
Qed.

Lemma collectSamples_spec sourceImage :
  (collectSamples sourceImage).1 = eligibleSamples sourceImage
  /\ members (collectSamples sourceImage).2 ≡ₚ eligibleSamples sourceImage
  /\ populated (collectSamples sourceImage).2.
Proof.
  rewrite collectSamples_fold.
  destruct (collect_fold
              (map (fun '(x, y) => pixelColor sourceImage x y)
                 (scanOrder sourceImage)) ([], [])) as (H1 & H2 & H3).
  unfold eligibleSamples. simpl in *. split; [exact H1 |]. split.
  - rewrite <- H1. by apply H2.
  - apply H3. constructor.
Qed.

End Assignment.

(** ** The perceptual distance *)

Lemma squareDistance_branch (a b : QRgb) :
  squareDistance a b =
  if 128 <=? qRed a - qRed b
  then 3 * (qRed a - qRed b) ^ 2 + 4 * (qGreen a - qGreen b) ^ 2
       + 2 * (qBlue a - qBlue b) ^ 2
  else 2 * (qRed a - qRed b) ^ 2 + 4 * (qGreen a - qGreen b) ^ 2
       + 3 * (qBlue a - qBlue b) ^ 2.
Proof.
  unfold squareDistance.
  destruct (Z.ltb_spec (qRed a - qRed b) 128), (Z.leb_spec 128 (qRed a - qRed b));
    solve [reflexivity | lia].
Qed.

Lemma squareDistance_swap (a b : QRgb) :
  squareDistance a b =
  squareDistance b a +
  (if 128 <=? qRed a - qRed b
   then (qRed a - qRed b) ^ 2 - (qBlue a - qBlue b) ^ 2
   else if qRed a - qRed b <=? -128
        then (qBlue a - qBlue b) ^ 2 - (qRed a - qRed b) ^ 2
        else 0).
Proof.
  rewrite (squareDistance_branch a b), (squareDistance_branch b a).
  generalize (qRed a) (qRed b) (qGreen a) (qGreen b) (qBlue a) (qBlue b).
  intros ra rb ga gb ba bb.
  rewrite !Z.pow_2_r.
  destruct (Z.leb_spec 128 (ra - rb)), (Z.leb_spec 128 (rb - ra)),
    (Z.leb_spec (ra - rb) (-128)); solve [ring | lia].
Qed.

(** C9: the distance is not symmetric.  The weights (3,4,2) are used
    exactly when the red channel of the first colour exceeds that of the
    second by 128 or more (a signed difference), swapping the arguments
    changes the result by the difference of the squared red and blue
    differences in that case, and there is a pair of colours on which the
    two orders disagree. *)
Theorem squareDistance_not_symmetric :
  (forall a b : QRgb,
      squareDistance a b =
      if 128 <=? qRed a - qRed b
      then 3 * (qRed a - qRed b) ^ 2 + 4 * (qGreen a - qGreen b) ^ 2
           + 2 * (qBlue a - qBlue b) ^ 2
      else 2 * (qRed a - qRed b) ^ 2 + 4 * (qGreen a - qGreen b) ^ 2
           + 3 * (qBlue a - qBlue b) ^ 2)
  /\ (forall a b : QRgb,
         squareDistance a b =
         squareDistance b a +
         (if 128 <=? qRed a - qRed b
          then (qRed a - qRed b) ^ 2 - (qBlue a - qBlue b) ^ 2
          else if qRed a - qRed b <=? -128
               then (qBlue a - qBlue b) ^ 2 - (qRed a - qRed b) ^ 2
               else 0))
  /\ (exists a b : QRgb,
         squareDistance a b = 120000 /\ squareDistance b a = 80000).
Proof.
  split; [exact squareDistance_branch |].
  split; [exact squareDistance_swap |].
  exists (qRgb 200 0 0), (qRgb 0 0 0). split; reflexivity.
Qed.

(** ** Refinement *)

Section Refinement.

Variable s_minimumSquareDistance : Z.
Variable ratio_default : Q.

#[local] Abbreviation reassign := (reassign s_minimumSquareDistance ratio_default).
#[local] Abbreviation refineIteration :=
  (refineIteration s_minimumSquareDistance ratio_default).
#[local] Abbreviation refine := (refine s_minimumSquareDistance ratio_default).

Lemma sumChannels_count cs : forall acc,
  (sumChannels acc cs).2 = acc.2 + Z.of_nat (length cs).
Proof.
  unfold sumChannels.
  induction cs as [|color cs IH]; intros [[[r g] b] c]; simpl; [lia |].
  rewrite IH. simpl. lia.
Qed.

Lemma Qeq_bool_inject_Z (n : Z) : n <> 0 -> Qeq_bool (inject_Z n) 0 = false.
Proof.
  intros Hn. destruct (Qeq_bool (inject_Z n) 0) eqn:E; [|reflexivity].
  apply Qeq_bool_eq in E. unfold Qeq in E. simpl in E. lia.
Qed.

Lemma updateCentroid_inv samples stat stat' :
  result (updateCentroid samples stat) = Some stat' ->
  updatedFrom samples stat stat'.
Proof.
  unfold updateCentroid.
  destruct (sumChannels (0, 0, 0, 0) (colors stat)) as [[[r g] b] c].
  unfold int_div, real_div, bind, ret, result. simpl.
  destruct (c =? 0); [discriminate |]. simpl.
  destruct (Qeq_bool _ 0); [discriminate |]. simpl.
  intros [= <-]. split; reflexivity.
Qed.

Lemma updateCentroid_defined samples stat :
  samples <> [] -> colors stat <> [] ->
  exists stat', result (updateCentroid samples stat) = Some stat'.
Proof.
  intros Hs Hc. unfold updateCentroid.
  pose proof (sumChannels_count (colors stat) (0, 0, 0, 0)) as Hcount.
  destruct (sumChannels (0, 0, 0, 0) (colors stat)) as [[[r g] b] c].
  simpl in Hcount.
  assert (c <> 0) as Hc0 by (destruct (colors stat); simpl in *; [done | lia]).
  unfold int_div, real_div, bind, ret, result. simpl.
  apply Z.eqb_neq in Hc0. rewrite Hc0. simpl.
  rewrite Qeq_bool_inject_Z by (destruct samples; simpl; [done | lia]).
  simpl. eauto.
Qed.

Lemma updateAll_inv samples clusters updated :
  result (mapM (updateCentroid samples) clusters) = Some updated ->
  Forall2 (updatedFrom samples) clusters updated.
Proof.
  rewrite mapM_result. intros H. eapply Forall2_impl; [exact H |].
  apply updateCentroid_inv.
Qed.

Lemma updateAll_defined samples clusters :
  samples <> [] -> populated clusters ->
  exists updated, result (mapM (updateCentroid samples) clusters) = Some updated.
Proof.
  intros Hs. induction 1 as [|stat cl Hstat Hcl [updated IH]].
  - by exists [].
  - destruct (updateCentroid_defined samples stat Hs Hstat) as [stat' Hstat'].
    exists (stat' :: updated). apply mapM_result. constructor; [done |].
    by apply mapM_result.
Qed.

Lemma updated_members samples clusters updated :
  Forall2 (updatedFrom samples) clusters updated ->
  members updated = map centroid updated
  /\ populated updated
  /\ length updated = length clusters.
Proof.
  induction 1 as [|stat stat' cl upd [Hcol _] _ (IH1 & IH2 & IH3)].
  - repeat split. constructor.
  - rewrite members_cons, IH1, Hcol. simpl. repeat split.
    + constructor; [by rewrite Hcol | done].
    + by rewrite IH3.
Qed.

Lemma refineIteration_result samples clusters :
  result (refineIteration samples clusters) =
  (reassign samples) <$> result (mapM (updateCentroid samples) clusters).
Proof.
  unfold refineIteration. rewrite result_bind.
  by destruct (result (mapM _ _)).
Qed.

Lemma refine_snoc k samples clusters :
  refine (S k) samples clusters =
  (clusters' <- refine k samples clusters ;; refineIteration samples clusters').
Proof.
  revert clusters. induction k as [|k IH]; intros cl.
  - simpl. rewrite bind_ret_r. by destruct (refineIteration samples cl) as [? []].
  - change (refine (S (S k)) samples cl)
      with (c <- refineIteration samples cl ;; refine (S k) samples c).
    change (refine (S k) samples cl)
      with (c <- refineIteration samples cl ;; refine k samples c).
    rewrite bind_assoc. apply bind_ext. intros c. apply IH.
Qed.

Lemma refine_defined k samples : forall clusters,
  samples <> [] -> populated clusters ->
  exists refined,
    result (refine k samples clusters) = Some refined /\ populated refined.
Proof.
  induction k as [|k IH]; intros cl Hs Hcl; [by exists cl |].
  destruct (updateAll_defined samples cl Hs Hcl) as [updated Hupd].
  pose proof (updateAll_inv _ _ _ Hupd) as Hinv.
  apply updated_members in Hinv as (_ & Hpop & _).
  destruct (IH (reassign samples updated) Hs) as (refined & Href & Hpr).
  { by apply reassign_populated. }
  exists refined. split; [|done].
  change (refine (S k) samples cl)
    with (c <- refineIteration samples cl ;; refine k samples c).
  by rewrite result_bind, refineIteration_result, Hupd.
Qed.

End Refinement.

(** C2, as the code has it: the scan retains exactly the eligible
    samples and its clusters partition them, so the member counts add up
    to the number of eligible samples.  A refinement pass (pass [k + 1]
    below; the source runs five) starts every cluster from its new
    centroid as one synthetic member and assigns all samples again:
    after the pass the members are the samples together with one
    centroid per cluster that entered the pass, and the member counts
    add up to the number of samples plus the number of those clusters. *)
Theorem partition_by_pass (s_minimumSquareDistance : Z) (ratio_default : Q)
    (sourceImage : QImage) (k : nat) :
  eligibleSamples sourceImage <> [] ->
  let samples := (collectSamples s_minimumSquareDistance ratio_default sourceImage).1 in
  let clusters := (collectSamples s_minimumSquareDistance ratio_default sourceImage).2 in
  samples = eligibleSamples sourceImage
  /\ members clusters ≡ₚ samples
  /\ memberCount clusters = length samples
  /\ exists before updated after,
       result (refine s_minimumSquareDistance ratio_default k samples clusters)
         = Some before
       /\ result (mapM (updateCentroid samples) before) = Some updated
       /\ result (refine s_minimumSquareDistance ratio_default (S k) samples clusters)
            = Some after
       /\ after = reassign s_minimumSquareDistance ratio_default samples updated
       /\ members after ≡ₚ map centroid updated ++ samples
       /\ memberCount after = (length samples + length before)%nat.
Proof.
  intros Hne samples clusters.
  destruct (collectSamples_spec s_minimumSquareDistance ratio_default sourceImage)
    as (Hs & Hm & Hp).
  fold samples in Hs. fold clusters in Hm, Hp. rewrite <- Hs in Hm, Hne.
  split; [done |]. split; [done |].
  split; [by rewrite memberCount_members, Hm |].
  destruct (refine_defined s_minimumSquareDistance ratio_default k samples
              clusters Hne Hp) as (before & Hbefore & Hpb).
  destruct (updateAll_defined samples before Hne Hpb) as [updated Hupd].
  pose proof (updateAll_inv _ _ _ Hupd) as Hinv.
  apply updated_members in Hinv as (Hmem & _ & Hlen).
  exists before, updated,
    (reassign s_minimumSquareDistance ratio_default samples updated).
  split; [done |]. split; [done |].
  assert (members (reassign s_minimumSquareDistance ratio_default samples updated)
          ≡ₚ map centroid updated ++ samples) as Hperm.
  { by rewrite reassign_members, Hmem. }
  split.
  { by rewrite refine_snoc, result_bind, Hbefore, refineIteration_result, Hupd. }
  split; [done |]. split; [done |].
  rewrite memberCount_members, Hperm, length_app, length_map. lia.
Qed.

(** Scenario A through its fifth pass. *)
Lemma partition_by_pass_witness :
  eligibleSamples scenarioA <> []
  /\ exists after,
       result (refine thresholdExample ratioExample 5
                 (collectSamples thresholdExample ratioExample scenarioA).1
                 (collectSamples thresholdExample ratioExample scenarioA).2)
         = Some after
       /\ exists seeds, members after ≡ₚ seeds ++ eligibleSamples scenarioA.
Proof.
  assert (eligibleSamples scenarioA <> []) as H by (vm_compute; discriminate).
  split; [exact H |].
  destruct (partition_by_pass thresholdExample ratioExample scenarioA 4 H)
    as (Hs & _ & _ & _ & updated & after & _ & _ & Hafter & _ & Hperm & _).
  exists after. split; [exact Hafter |].
  exists (map centroid updated). rewrite <- Hs. exact Hperm.
Defined.

(** Scenario A after the first refinement pass: five members for four
    eligible samples. *)
Lemma partition_refinement_counterexample :
  exists after,
    result (refine thresholdExample ratioExample 1
              (collectSamples thresholdExample ratioExample scenarioA).1
              (collectSamples thresholdExample ratioExample scenarioA).2)
      = Some after
    /\ memberCount after = 5%nat
    /\ length (eligibleSamples scenarioA) = 4%nat
    /\ memberCount after <> length (eligibleSamples scenarioA).
Proof.
  eexists. split; [vm_compute; reflexivity |].
  repeat split; vm_compute; congruence.
Qed.

(** ** Scenario A *)

(** C1, on the code: for the two by two image of opaque (200,100,50),
    whatever the (positive) threshold and the default ratio, the palette
    has one entry of that colour and [dominant] is that colour, but the
    entry's ratio is 5/4, not 1: the centroid that seeds the cluster in
    each iteration is counted with the four samples. *)
Theorem scenarioA_result (s_minimumSquareDistance : Z) (ratio_default : Q) :
  0 < s_minimumSquareDistance ->
  exists imageData entry,
    result (generatePalette s_minimumSquareDistance ratio_default scenarioA)
      = Some imageData
    /\ m_palette imageData = [entry]
    /\ color entry = fromRgb 200 100 50 255
    /\ (entryRatio entry == 5 # 4)%Q
    /\ ~ (entryRatio entry == 1)%Q
    /\ m_dominant imageData = fromRgb 200 100 50 255.
Proof.
  intros H. destruct s_minimumSquareDistance as [|p|p]; try lia.
  eexists _, _. split; [vm_compute; reflexivity |].
  split; [reflexivity |]. repeat split; try reflexivity.
  intros Hq. vm_compute in Hq. discriminate.
Qed.

(** The same at the example threshold. *)
Lemma scenarioA_result_witness :
  0 < thresholdExample
  /\ exists imageData,
       result (generatePalette thresholdExample ratioExample scenarioA)
         = Some imageData
       /\ paletteRatios imageData = [(5 # 4)%Q].
Proof.
  assert (0 < thresholdExample) as H by reflexivity.
  split; [exact H |].
  destruct (scenarioA_result thresholdExample ratioExample H)
    as (imageData & entry & Hres & Hpal & _).
  exists imageData. split; [exact Hres |].
  vm_compute in Hres. injection Hres as <-. reflexivity.
Defined.

(** C3, on the code: for the same image the clusters that survive the
    compression have ratios that sum to 5/4, a quarter away from 1. *)
Theorem scenarioA_ratio_sum (s_minimumSquareDistance : Z) (ratio_default : Q) :
  0 < s_minimumSquareDistance ->
  eligibleSamples scenarioA <> []
  /\ exists merged,
       result (mergedClusters s_minimumSquareDistance ratio_default
                 (collectSamples s_minimumSquareDistance ratio_default scenarioA).1
                 (collectSamples s_minimumSquareDistance ratio_default scenarioA).2)
         = Some merged
       /\ (ratioSum merged == 5 # 4)%Q
       /\ (1 # 1000000 < Qabs (ratioSum merged - 1))%Q.
Proof.
  intros H. destruct s_minimumSquareDistance as [|p|p]; try lia.
  split; [vm_compute; discriminate |].
  eexists. split; [vm_compute; reflexivity |].
  split; vm_compute; reflexivity.
Qed.

(** The same at the example threshold. *)
Lemma scenarioA_ratio_sum_witness :
  0 < thresholdExample
  /\ exists merged,
       result (mergedClusters thresholdExample ratioExample
                 (collectSamples thresholdExample ratioExample scenarioA).1
                 (collectSamples thresholdExample ratioExample scenarioA).2)
         = Some merged
       /\ (ratioSum merged == 5 # 4)%Q.
Proof.
  assert (0 < thresholdExample) as H by reflexivity.
  split; [exact H |].
  destruct (scenarioA_ratio_sum thresholdExample ratioExample H)
    as (_ & merged & Hres & Hsum & _).
  exists merged. split; [exact Hres | exact Hsum].
Defined.

(** ** The derived colours *)

Section Derivation.

Variable s_minimumSquareDistance : Z.

#[local] Abbreviation contrastFor := (contrastFor s_minimumSquareDistance).
#[local] Abbreviation paletteStep := (paletteStep s_minimumSquareDistance).
#[local] Abbreviation paletteEntryOf := (paletteEntryOf s_minimumSquareDistance).
#[local] Abbreviation deriveColors := (deriveColors s_minimumSquareDistance).

Lemma contrastFor_cong d1 d2 c :
  m_clusters d1 = m_clusters d2 -> m_dominant d1 = m_dominant d2 ->
  contrastFor d1 c = contrastFor d2 c.
Proof.
  intros Hc Hd. unfold contrastFor. by rewrite Hc, Hd.
Qed.

Lemma paletteEntryOf_cong d1 d2 stat :
  m_clusters d1 = m_clusters d2 -> m_dominant d1 = m_dominant d2 ->
  paletteEntryOf d1 stat = paletteEntryOf d2 stat.
Proof.
  intros Hc Hd. unfold paletteEntryOf.
  by rewrite (contrastFor_cong d1 d2).
Qed.

Lemma paletteStep_fields imageData first stat :
  let next := (paletteStep (imageData, first) stat).1 in
  m_samples next = m_samples imageData
  /\ m_clusters next = m_clusters imageData
  /\ m_dominant next = m_dominant imageData
  /\ m_palette next = m_palette imageData ++ [paletteEntryOf imageData stat]
  /\ m_mostSaturated next = moreSaturated (m_mostSaturated imageData) stat.
Proof. repeat split. Qed.

(** The loop that fills the palette, field by field. *)
Lemma paletteFold clusters : forall st,
  let final := (fold_left paletteStep clusters st).1 in
  m_samples final = m_samples st.1
  /\ m_clusters final = m_clusters st.1
  /\ m_dominant final = m_dominant st.1
  /\ m_palette final = m_palette st.1 ++ map (paletteEntryOf st.1) clusters
  /\ m_mostSaturated final =
     fold_left moreSaturated clusters (m_mostSaturated st.1).
Proof.
  induction clusters as [|stat cl IH]; intros [d first]; cbn [fold_left map].
  - by rewrite app_nil_r.
  - destruct (IH (paletteStep (d, first) stat)) as (H1 & H2 & H3 & H4 & H5).
    destruct (paletteStep_fields d first stat) as (F1 & F2 & F3 & F4 & F5).
    cbv zeta in *. cbn [fst] in *.
    rewrite H1, H2, H3, H4, H5, F1, F2, F3, F4, F5.
    repeat split; try done.
    all: rewrite <- app_assoc; cbn [app]; do 2 f_equal.
    all: apply map_ext; intros stat'; by apply paletteEntryOf_cong.
Qed.

Lemma deriveColors_inv samples merged imageData :
  result (deriveColors samples merged) = Some imageData ->
  exists firstStat rest,
    merged = firstStat :: rest
    /\ m_samples imageData = samples
    /\ m_clusters imageData = merged
    /\ m_dominant imageData = fromQRgb (centroid firstStat)
    /\ m_palette imageData = map (paletteEntryOf imageData) merged
    /\ m_mostSaturated imageData = fold_left moreSaturated merged Invalid.
Proof.
  unfold deriveColors. destruct merged as [|firstStat rest].
  { discriminate. }
  unfold ret, result. cbn [snd].
  match goal with
  | |- context [fold_left _ ?cl ?st] =>
      destruct (paletteFold cl st) as (H1 & H2 & H3 & H4 & H5)
  end.
  intros Heq. apply (inj Some) in Heq. subst imageData.
  exists firstStat, rest. split; [done |].
  cbv zeta in *. cbn [fst m_samples m_clusters m_dominant m_palette
                      m_mostSaturated] in H1, H2, H3, H4, H5.
  rewrite H1, H2, H3, H4, H5.
  repeat split; try done.
  all: cbn [app]; apply map_ext.
  all: intros stat; by apply paletteEntryOf_cong.
Qed.

End Derivation.

(** ** The pipeline as a whole *)

Lemma members_nil clusters :
  members clusters ≡ₚ [] -> populated clusters -> clusters = [].
Proof.
  intros Hm Hp. destruct Hp as [|stat cl Hs _]; [done |].
  rewrite members_cons in Hm. apply Permutation_nil_r in Hm.
  apply app_eq_nil in Hm as [? _]. done.
Qed.

Lemma generatePalette_inv smin rd sourceImage imageData :
  result (generatePalette smin rd sourceImage) = Some imageData ->
  imageData = ImageData_default
  \/ exists samples clusters merged,
       collectSamples smin rd sourceImage = (samples, clusters)
       /\ samples <> []
       /\ result (mergedClusters smin rd samples clusters) = Some merged
       /\ result (deriveColors smin samples merged) = Some imageData.
Proof.
  unfold generatePalette.
  destruct (isNull sourceImage || (width sourceImage =? 0)).
  { intros [= <-]. by left. }
  destruct (collectSamples_spec smin rd sourceImage) as (_ & Hm & Hp).
  destruct (collectSamples smin rd sourceImage) as [samples clusters] eqn:Hc.
  destruct (collectSamples_spec smin rd sourceImage) as (Hs & _).
  rewrite Hc in Hs. cbn [fst snd] in *. rewrite <- Hs in Hm.
  destruct samples as [|rgb samples].
  - intros [= <-]. left. by rewrite (members_nil clusters Hm Hp).
  - rewrite result_bind.
    destruct (result (mergedClusters smin rd (rgb :: samples) clusters))
      as [merged|] eqn:Hmerged; [|discriminate].
    intros Hd. right. by exists (rgb :: samples), clusters, merged.
Qed.

(** ** Inputs without samples *)

Lemma elem_of_range (n x : Z) : x ∈ range n <-> 0 <= x < n.
Proof.
  unfold range. rewrite list_elem_of_fmap. split.
  - intros (i & -> & Hi). apply elem_of_seq in Hi. lia.
  - intros H. exists (Z.to_nat x). split; [lia |]. apply elem_of_seq. lia.
Qed.

Lemma elem_of_scanOrder sourceImage (x y : Z) :
  (x, y) ∈ scanOrder sourceImage <->
  0 <= x < width sourceImage /\ 0 <= y < height sourceImage.
Proof.
  unfold scanOrder. rewrite list_elem_of_bind. split.
  - intros (x' & Hxy & Hx). apply list_elem_of_bind in Hxy as (y' & Hxy & Hy).
    apply list_elem_of_singleton in Hxy as [= -> ->].
    by rewrite <- !elem_of_range.
  - intros [Hx Hy]. exists x. split; [|by apply elem_of_range].
    apply list_elem_of_bind. exists y. split; [|by apply elem_of_range].
    by apply list_elem_of_singleton.
Qed.

Lemma eligibleSamples_transparent sourceImage :
  (forall x y, 0 <= x < width sourceImage -> 0 <= y < height sourceImage ->
               alpha (pixelColor sourceImage x y) = 0) ->
  eligibleSamples sourceImage = [].
Proof.
  intros H. unfold eligibleSamples.
  assert (Forall (fun '(x, y) => alpha (pixelColor sourceImage x y) = 0)
            (scanOrder sourceImage)) as HF.
  { apply Forall_forall. intros [x y] Hxy.
    apply elem_of_scanOrder in Hxy as [Hx Hy]. by apply H. }
  induction HF as [|[x y] l Hxy HF IH]; [done |].
  cbn [map]. rewrite filter_cons, decide_False by (intros ?; done).
  exact IH.
Qed.

(** C7: a null image, an image of width zero and an image whose pixels
    all have alpha zero give the default-constructed, empty result: it
    is a defined outcome, and the trace of divisions is empty, so no
    centroid mean and no ratio has been computed on the way. *)
Theorem empty_input_empty_result (s_minimumSquareDistance : Z)
    (ratio_default : Q) (sourceImage : QImage) :
  isNull sourceImage = true
  \/ width sourceImage = 0
  \/ (forall x y, 0 <= x < width sourceImage -> 0 <= y < height sourceImage ->
                  alpha (pixelColor sourceImage x y) = 0) ->
  result (generatePalette s_minimumSquareDistance ratio_default sourceImage)
    = Some ImageData_default
  /\ trace (generatePalette s_minimumSquareDistance ratio_default sourceImage)
     = []
  /\ m_palette ImageData_default = []
  /\ m_dominant ImageData_default = Invalid
  /\ m_mostSaturated ImageData_default = Invalid
  /\ m_closestToBlack ImageData_default = Invalid
  /\ m_closestToWhite ImageData_default = Invalid
  /\ m_suggestedContrast ImageData_default = Invalid.
Proof.
  intros H.
  assert (generatePalette s_minimumSquareDistance ratio_default sourceImage
          = ret ImageData_default) as ->; [|by repeat split].
  unfold generatePalette.
  destruct (isNull sourceImage) eqn:Hnull; [done |].
  destruct (Z.eqb_spec (width sourceImage) 0) as [Hw|Hw]; [done |].
  destruct H as [H | [H | H]]; [done.. |]. cbn [orb].
  apply eligibleSamples_transparent in H.
  destruct (collectSamples_spec s_minimumSquareDistance ratio_default
              sourceImage) as (Hs & Hm & Hp).
  destruct (collectSamples _ _ sourceImage) as [samples clusters].
  cbn [fst snd] in *. rewrite H in Hs, Hm. subst samples.
  by rewrite (members_nil clusters Hm Hp).
Qed.

(** Two transparent pixels give the empty result without a division. *)
Lemma empty_input_empty_result_witness :
  (forall x y, 0 <= x < width transparentPair ->
               0 <= y < height transparentPair ->
               alpha (pixelColor transparentPair x y) = 0)
  /\ generatePalette thresholdExample ratioExample transparentPair
     = ([], Some ImageData_default).
Proof.
  assert (forall x y, 0 <= x < width transparentPair ->
                      0 <= y < height transparentPair ->
                      alpha (pixelColor transparentPair x y) = 0) as H.
  { intros x y Hx Hy. cbn [width height transparentPair imageOfColumns] in Hx, Hy.
    assert (x = 0) as -> by lia.
    assert (y = 0 \/ y = 1) as [-> | ->] by lia; reflexivity. }
  split; [exact H |].
  destruct (empty_input_empty_result thresholdExample ratioExample
              transparentPair (or_intror (or_intror H))) as (Hr & Ht & _).
  destruct (generatePalette thresholdExample ratioExample transparentPair)
    as [t r].
  cbn [result trace fst snd] in Hr, Ht. by rewrite Hr, Ht.
Defined.

(** ** Contrast colours of a small palette *)

(** C4, as the code has it: with fewer than three final clusters every
    entry's contrast colour is one of the two flat greys, and it is the
    near-white (230,230,230) when the grey value of the dominant colour
    is below 120 and the near-black (20,20,20) when it is 120 or more. *)
Theorem small_palette_contrast (s_minimumSquareDistance : Z)
    (ratio_default : Q) (sourceImage : QImage) (imageData : ImageData) :
  result (generatePalette s_minimumSquareDistance ratio_default sourceImage)
    = Some imageData ->
  (length (m_clusters imageData) < 3)%nat ->
  Forall
    (fun entry =>
       contrastColor entry =
       if qGray (rgb (m_dominant imageData)) <? 120
       then fromRgb 230 230 230 255
       else fromRgb 20 20 20 255)
    (m_palette imageData).
Proof.
  intros Hres Hlen.
  apply generatePalette_inv in Hres
    as [-> | (samples & clusters & merged & _ & _ & _ & Hd)].
  { constructor. }
  apply deriveColors_inv in Hd as (firstStat & rest & _ & _ & _ & _ & Hpal & _).
  rewrite Hpal. apply Forall_fmap, Forall_forall. intros stat _.
  cbn [contrastColor paletteEntryOf compose]. unfold contrastFor.
  apply Nat.ltb_lt in Hlen. by rewrite Hlen.
Qed.

(** Scenario A: one cluster, grey value 126, near-black contrast. *)
Lemma small_palette_contrast_witness :
  exists imageData,
    result (generatePalette thresholdExample ratioExample scenarioA)
      = Some imageData
    /\ (length (m_clusters imageData) < 3)%nat
    /\ Forall (fun entry => contrastColor entry = fromRgb 20 20 20 255)
         (m_palette imageData).
Proof.
  destruct (result (generatePalette thresholdExample ratioExample scenarioA))
    as [imageData|] eqn:Hres; [|vm_compute in Hres; discriminate].
  assert (length (m_clusters imageData) < 3)%nat as Hlen.
  { vm_compute in Hres. injection Hres as <-. cbn [m_clusters length]. lia. }
  exists imageData. split; [reflexivity |]. split; [exact Hlen |].
  pose proof (small_palette_contrast thresholdExample ratioExample scenarioA
                imageData Hres Hlen) as H.
  assert ((qGray (rgb (m_dominant imageData)) <? 120) = false) as Hg.
  { vm_compute in Hres. injection Hres as <-. reflexivity. }
  rewrite Hg in H. exact H.
Defined.

(** Scenario A again: one cluster, the dominant colour has grey value
    126, and the contrast colour is the near-black, not the near-white. *)
Lemma small_palette_contrast_counterexample :
  exists imageData entry,
    result (generatePalette thresholdExample ratioExample scenarioA)
      = Some imageData
    /\ (length (m_clusters imageData) < 3)%nat
    /\ m_palette imageData = [entry]
    /\ qGray (rgb (m_dominant imageData)) = 126
    /\ contrastColor entry = fromRgb 20 20 20 255
    /\ contrastColor entry <> fromRgb 230 230 230 255.
Proof.
  eexists _, _. split; [vm_compute; reflexivity |].
  split; [cbn [m_clusters length]; lia |].
  split; [reflexivity |]. repeat split; vm_compute; congruence.
Qed.

(** ** The most saturated colour *)

Lemma moreSaturated_fold clusters : forall acc,
  let final := fold_left moreSaturated clusters acc in
  (final = acc
   /\ Forall (fun stat => clusterScore stat <= saturationScore acc) clusters)
  \/ (exists (i : nat) stat,
        clusters !! i = Some stat
        /\ final = fromQRgb (centroid stat)
        /\ saturationScore acc < clusterScore stat
        /\ Forall (fun other => clusterScore other <= clusterScore stat) clusters
        /\ forall (j : nat) other,
             (j < i)%nat -> clusters !! j = Some other ->
             clusterScore other < clusterScore stat).
Proof.
  induction clusters as [|x cl IH]; intros acc; cbn [fold_left].
  { left. split; [done | constructor]. }
  assert (moreSaturated acc x =
          if saturationScore acc <? clusterScore x
          then fromQRgb (centroid x) else acc) as -> by reflexivity.
  destruct (Z.ltb_spec (saturationScore acc) (clusterScore x)) as [Hlt|Hge].
  - destruct (IH (fromQRgb (centroid x)))
      as [[Hf Hall] | (i & stat & Hi & Hf & Hs & Hall & Hfirst)];
      fold (clusterScore x) in *.
    + right. exists 0%nat, x. repeat split; try done.
      * by constructor.
      * intros j other Hj. lia.
    + right. exists (S i), stat. repeat split; try done.
      * lia.
      * constructor; [lia | done].
      * intros [|j] other Hj Hother.
        -- injection Hother as <-. done.
        -- apply (Hfirst j); [lia | done].
  - destruct (IH acc)
      as [[Hf Hall] | (i & stat & Hi & Hf & Hs & Hall & Hfirst)].
    + left. split; [done |]. by constructor.
    + right. exists (S i), stat. repeat split; try done.
      * constructor; [lia | done].
      * intros [|j] other Hj Hother.
        -- injection Hother as <-. lia.
        -- apply (Hfirst j); [lia | done].
Qed.

(** The score of a centroid colour is zero for black and positive for
    every other colour. *)
Lemma byte_range (x : Z) : 0 <= Z.land x 255 <= 255.
Proof.
  change 255 with (Z.ones 8) at 1 2. rewrite Z.land_ones by lia.
  pose proof (Z.mod_pos_bound x (2 ^ 8)). lia.
Qed.

Lemma qRound_nonneg (q : Q) : (0 <= q)%Q -> 0 <= qRound q.
Proof.
  intros Hq. unfold qRound.
  change 0 with (Qfloor 0). apply Qfloor_resp_le. lra.
Qed.

Lemma shiftr_257 (m : Z) : 0 <= m <= 255 -> Z.shiftr (m * 257) 8 = m.
Proof.
  intros Hm. rewrite Z.shiftr_div_pow2 by lia. change (2 ^ 8) with 256.
  symmetry. apply Z.div_unique with (r := m); lia.
Qed.

Lemma clusterScore_sign (stat : colorStat) :
  (channels (centroid stat) = (0, 0, 0) -> clusterScore stat = 0)
  /\ (channels (centroid stat) <> (0, 0, 0) -> 0 < clusterScore stat).
Proof.
  unfold clusterScore, channels, saturationScore, fromQRgb, saturation, value,
    rgb16, qRed, qGreen, qBlue.
  pose proof (byte_range (Z.shiftr (centroid stat) 16)) as Hr.
  pose proof (byte_range (Z.shiftr (centroid stat) 8)) as Hg.
  pose proof (byte_range (centroid stat)) as Hb.
  set (r := Z.land (Z.shiftr (centroid stat) 16) 255) in *.
  set (g := Z.land (Z.shiftr (centroid stat) 8) 255) in *.
  set (b := Z.land (centroid stat) 255) in *.
  clearbody r g b. split.
  - intros [= -> -> ->]. reflexivity.
  - intros Hne.
    assert (max3 (r * 257) (g * 257) (b * 257) = max3 r g b * 257) as Hmax
      by (unfold max3; lia).
    assert (1 <= max3 r g b <= 255) as Hm.
    { unfold max3. split; [|lia].
      destruct (decide (r = 0)), (decide (g = 0)), (decide (b = 0)); subst;
        try lia. done. }
    assert (0 <= max3 r g b <= 255) as Hm0 by lia.
    unfold hsvOfRgb. rewrite Hmax.
    destruct (_ =? 0) eqn:Hd.
    + rewrite (shiftr_257 _ Hm0). change (Z.shiftr 0 8) with 0. lia.
    + rewrite (shiftr_257 _ Hm0).
      match goal with
      | |- 0 < Z.shiftr (qRound ?q) 8 + _ =>
          assert (0 <= Z.shiftr (qRound q) 8) as Hs
      end.
      { apply Z.shiftr_nonneg, qRound_nonneg.
        apply Z.eqb_neq in Hd.
        apply Qmult_le_0_compat; [|done].
        apply Qle_shift_div_l.
        - replace 0%Q with (inject_Z 0) by reflexivity. rewrite <- Zlt_Qlt. lia.
        - rewrite Qmult_0_l. replace 0%Q with (inject_Z 0) by reflexivity.
          rewrite <- Zle_Qle. unfold min3, max3. lia. }
      lia.
Qed.

(** C8, as the code has it: a cluster replaces [m_mostSaturated] only
    when its score is strictly greater than the score of the colour held
    so far, and the initial [QColor()] scores 0.  So either some final
    cluster has a positive score, and [m_mostSaturated] is the colour of
    the first cluster that attains the greatest score; or every final
    cluster is black, with score 0, and [m_mostSaturated] is still the
    invalid initial colour. *)
Theorem mostSaturated_first_greatest (s_minimumSquareDistance : Z)
    (ratio_default : Q) (sourceImage : QImage) (imageData : ImageData) :
  result (generatePalette s_minimumSquareDistance ratio_default sourceImage)
    = Some imageData ->
  (m_mostSaturated imageData = Invalid
   /\ Forall (fun stat => clusterScore stat = 0
                          /\ channels (centroid stat) = (0, 0, 0))
        (m_clusters imageData))
  \/ (exists (i : nat) stat,
        m_clusters imageData !! i = Some stat
        /\ m_mostSaturated imageData = fromQRgb (centroid stat)
        /\ 0 < clusterScore stat
        /\ Forall (fun other => clusterScore other <= clusterScore stat)
             (m_clusters imageData)
        /\ forall (j : nat) other,
             (j < i)%nat -> m_clusters imageData !! j = Some other ->
             clusterScore other < clusterScore stat).
Proof.
  intros Hres.
  apply generatePalette_inv in Hres
    as [-> | (samples & clusters & merged & _ & _ & _ & Hd)].
  { left. split; [done | constructor]. }
  apply deriveColors_inv in Hd as (firstStat & rest & _ & _ & Hcl & _ & _ & Hsat).
  rewrite Hcl, Hsat.
  destruct (moreSaturated_fold merged Invalid) as [[Hf Hall] | Hex];
    [left | by right].
  split; [exact Hf |].
  eapply Forall_impl; [exact Hall |]. intros stat Hle.
  cbv beta in Hle. change (saturationScore Invalid) with 0 in Hle.
  destruct (clusterScore_sign stat) as [Hzero Hpos].
  destruct (decide (channels (centroid stat) = (0, 0, 0))) as [Heq|Hne].
  - split; [by apply Hzero | done].
  - specialize (Hpos Hne). lia.
Qed.

(** Scenario A: the only cluster has a positive score and is chosen. *)
Lemma mostSaturated_first_greatest_witness :
  exists imageData,
    result (generatePalette thresholdExample ratioExample scenarioA)
      = Some imageData
    /\ m_mostSaturated imageData = fromRgb 200 100 50 255.
Proof.
  destruct (result (generatePalette thresholdExample ratioExample scenarioA))
    as [imageData|] eqn:Hres; [|vm_compute in Hres; discriminate].
  exists imageData. split; [reflexivity |].
  destruct (mostSaturated_first_greatest thresholdExample ratioExample
              scenarioA imageData Hres)
    as [[_ Hall] | (i & stat & Hi & Hsat & _)].
  - exfalso. vm_compute in Hres. injection Hres as <-.
    apply Forall_cons in Hall as [[Hle _] _]. vm_compute in Hle. discriminate.
  - vm_compute in Hres. injection Hres as <-. reflexivity.
Defined.

(** One opaque black pixel: the only cluster is black, its score is 0,
    and [m_mostSaturated] stays the invalid initial colour. *)
Lemma mostSaturated_counterexample :
  exists imageData firstStat,
    result (generatePalette thresholdExample ratioExample blackPixel)
      = Some imageData
    /\ m_clusters imageData = [firstStat]
    /\ clusterScore firstStat = 0
    /\ m_mostSaturated imageData = Invalid
    /\ m_mostSaturated imageData <> fromQRgb (centroid firstStat).
Proof.
  eexists _, _. split; [vm_compute; reflexivity |].
  split; [reflexivity |]. repeat split; vm_compute; congruence.
Qed.

(** ** The sort *)

Lemma insertSorted_perm a l : insertSorted a l ≡ₚ a :: l.
Proof.
  induction l as [|b l IH]; cbn [insertSorted]; [done |].
  destruct (moreColors a b); [done |].
  by rewrite IH, Permutation_swap.
Qed.

Lemma insertSorted_sorted a l :
  StronglySorted noFewerColors l -> StronglySorted noFewerColors (insertSorted a l).
Proof.
  induction 1 as [|b l Hl IH Hb]; cbn [insertSorted].
  { repeat constructor. }
  unfold moreColors.
  destruct (Nat.ltb_spec (length (colors b)) (length (colors a))) as [Hlt|Hge].
  - constructor; [by constructor |].
    constructor; [unfold noFewerColors; lia |].
    eapply Forall_impl; [exact Hb |]. unfold noFewerColors. intros c Hc. lia.
  - constructor; [done |].
    rewrite insertSorted_perm. by constructor.
Qed.

Lemma sort_fold l : forall sorted,
  StronglySorted noFewerColors sorted ->
  let out := fold_left (fun sorted a => insertSorted a sorted) l sorted in
  StronglySorted noFewerColors out /\ out ≡ₚ sorted ++ l.
Proof.
  induction l as [|a l IH]; intros sorted Hs; cbn [fold_left].
  { by rewrite app_nil_r. }
  destruct (IH (insertSorted a sorted) (insertSorted_sorted a sorted Hs))
    as [H1 H2].
  split; [exact H1 |].
  rewrite H2, insertSorted_perm. apply Permutation_middle.
Qed.

(** ** The compression *)

Section Compression.

Variable s_minimumSquareDistance : Z.

Lemma absorb_trace source dest :
  exists t, trace (absorb source dest)
            = RealDivision (ratio source) (ratio dest) :: t.
Proof.
  unfold absorb. rewrite trace_bind. cbn [trace weight fst app]. eauto.
Qed.

Lemma find_none_far (clusters : list colorStat) (i : nat) source :
  list_find (withinThreshold s_minimumSquareDistance source) (take i clusters)
  = None <->
  forall (j : nat) dest,
    (j < i)%nat -> clusters !! j = Some dest ->
    s_minimumSquareDistance <= squareDistance (centroid source) (centroid dest).
Proof.
  rewrite list_find_None, Forall_lookup. split.
  - intros H j dest Hj Hd.
    specialize (H j dest). rewrite lookup_take_lt in H by done.
    specialize (H Hd). unfold withinThreshold in H. lia.
  - intros H j dest Hd. apply lookup_take_Some in Hd as [Hd Hj].
    specialize (H j dest Hj Hd). unfold withinThreshold. lia.
Qed.

Lemma mergeLoop_separated clusters : forall (n : nat) itemsToDelete,
  (n <= length clusters)%nat -> separated s_minimumSquareDistance clusters ->
  mergeLoop s_minimumSquareDistance n clusters itemsToDelete
  = ret (clusters, itemsToDelete).
Proof.
  induction n as [|i IH]; intros ds Hn Hsep; cbn [mergeLoop]; [done |].
  destruct (lookup_lt_is_Some_2 clusters i) as [source Hs]; [lia |].
  rewrite Hs.
  assert (list_find (withinThreshold s_minimumSquareDistance source)
            (take i clusters) = None) as ->.
  { apply find_none_far. intros j dest Hj Hd. by apply (Hsep i j). }
  apply IH; [lia | done].
Qed.

Lemma mergeLoop_quiet clusters : forall (n : nat) itemsToDelete,
  (n <= length clusters)%nat ->
  trace (mergeLoop s_minimumSquareDistance n clusters itemsToDelete) = [] ->
  forall (i j : nat) source dest,
    (i < n)%nat -> (j < i)%nat ->
    clusters !! i = Some source -> clusters !! j = Some dest ->
    s_minimumSquareDistance <= squareDistance (centroid source) (centroid dest).
Proof.
  induction n as [|k IH]; intros ds Hn Ht i j source dest Hi Hj Hs Hd; [lia |].
  cbn [mergeLoop] in Ht.
  destruct (lookup_lt_is_Some_2 clusters k) as [sk Hk]; [lia |].
  rewrite Hk in Ht.
  destruct (list_find (withinThreshold s_minimumSquareDistance sk) (take k clusters))
    as [[m dm]|] eqn:Hfind.
  - rewrite trace_bind in Ht. destruct (absorb_trace sk dm) as [t Hab].
    rewrite Hab in Ht. discriminate.
  - destruct (decide (i = k)) as [->|Hne].
    + assert (source = sk) as -> by congruence.
      by apply (proj1 (find_none_far clusters k sk) Hfind j).
    + apply (IH ds) with (i := i) (j := j); try done; lia.
Qed.

Lemma absorb_result source dest dest' :
  result (absorb source dest) = Some dest' -> ~ (ratio dest == 0)%Q.
Proof.
  unfold absorb. rewrite result_bind. unfold weight. cbn [result snd].
  destruct (Qeq_bool (ratio dest) 0) eqn:E; [discriminate |].
  intros _. by apply Qeq_bool_neq.
Qed.

(** What a merge that has a result leaves in the destination, the
    centroid apart. *)
Lemma absorb_inv source dest dest' :
  result (absorb source dest) = Some dest' ->
  colors dest' = colors dest
  /\ ratio dest' = (ratio dest + ratio source)%Q.
Proof.
  unfold absorb. rewrite !result_bind.
  destruct (result (weight _ _)) as [ratio'|]; [|discriminate].
  rewrite !result_bind.
  destruct (result (mix ratio' (qRed _) _)) as [r|]; [|discriminate].
  rewrite !result_bind.
  destruct (result (mix ratio' (qGreen _) _)) as [g|]; [|discriminate].
  rewrite !result_bind.
  destruct (result (mix ratio' (qBlue _) _)) as [b|]; [|discriminate].
  cbn [result ret snd]. by intros [= <-].
Qed.

(** A cluster whose ratio is zero cannot take another one in, so the
    loop leaves it as it is. *)
Lemma mergeLoop_keeps : forall (n : nat) clusters itemsToDelete swept items,
  result (mergeLoop s_minimumSquareDistance n clusters itemsToDelete)
    = Some (swept, items) ->
  forall (p : nat) stat,
    clusters !! p = Some stat -> (ratio stat == 0)%Q -> swept !! p = Some stat.
Proof.
  induction n as [|i IH]; intros cl ds0 swept ds H p stat Hp Hz.
  { cbn in H. by injection H as <- _. }
  cbn [mergeLoop] in H.
  destruct (cl !! i) as [source|] eqn:Hs; [|discriminate].
  destruct (list_find (withinThreshold s_minimumSquareDistance source)
              (take i cl)) as [[j dest]|] eqn:Hf.
  - rewrite result_bind in H.
    destruct (result (absorb source dest)) as [dest'|] eqn:Hab; [|discriminate].
    apply (IH _ _ _ _ H p stat); [|done].
    rewrite list_lookup_insert_ne; [done |]. intros ->.
    apply list_find_Some in Hf as (Hj & _ & _).
    apply lookup_take_Some in Hj as [Hj _].
    assert (stat = dest) as -> by congruence.
    by apply absorb_result in Hab.
  - by apply (IH _ _ _ _ H p stat).
Qed.

(** [itemsToDelete] grows by positions in falling order. *)
Lemma mergeLoop_items : forall (n : nat) clusters itemsToDelete swept items,
  result (mergeLoop s_minimumSquareDistance n clusters itemsToDelete)
    = Some (swept, items) ->
  exists new,
    items = itemsToDelete ++ new
    /\ StronglySorted (fun a b => (b < a)%nat) new
    /\ Forall (fun d => (d < n)%nat) new.
Proof.
  induction n as [|i IH]; intros cl ds0 swept ds H.
  { cbn in H. injection H as _ <-. exists []. rewrite app_nil_r.
    repeat constructor. }
  cbn [mergeLoop] in H.
  destruct (cl !! i) as [source|] eqn:Hs; [|discriminate].
  destruct (list_find (withinThreshold s_minimumSquareDistance source)
              (take i cl)) as [[j dest]|] eqn:Hf.
  - rewrite result_bind in H.
    destruct (result (absorb source dest)) as [dest'|] eqn:Hab; [|discriminate].
    destruct (IH _ _ _ _ H) as (new & -> & Hsorted & Hlt).
    exists (i :: new). split; [by rewrite <- app_assoc |]. split.
    + by constructor.
    + constructor; [lia |]. eapply Forall_impl; [exact Hlt |].
      intros d Hd. simpl in Hd. lia.
  - destruct (IH _ _ _ _ H) as (new & -> & Hsorted & Hlt).
    exists new. split; [done |]. split; [done |].
    eapply Forall_impl; [exact Hlt |]. intros d Hd. simpl in Hd. lia.
Qed.

Lemma mix_trace ratio' (s d : Z) : trace (mix ratio' s d) = [].
Proof. reflexivity. Qed.

Lemma absorb_one_division source dest :
  trace (absorb source dest) = [RealDivision (ratio source) (ratio dest)].
Proof.
  unfold absorb. rewrite trace_bind. unfold weight at 1.
  cbn [trace fst]. f_equal.
  destruct (result (weight _ _)) as [ratio'|]; [|done].
  rewrite trace_bind, mix_trace.
  destruct (result (mix ratio' (qRed _) _)) as [r|]; [|done].
  rewrite trace_bind, mix_trace.
  destruct (result (mix ratio' (qGreen _) _)) as [g|]; [|done].
  rewrite trace_bind, mix_trace.
  by destruct (result (mix ratio' (qBlue _) _)) as [b|].
Qed.

(** The erasures. *)
Lemma erase_trace st (i : nat) : trace (erase st i) = [].
Proof. destruct st as [cl b]. unfold erase. by destruct (_ || _). Qed.

Lemma erase_inv cl (b i : nat) cl' (b' : nat) :
  result (erase (cl, b) i) = Some (cl', b') ->
  (b <= i)%nat /\ (i - b < length cl)%nat
  /\ cl' = delete (i - b)%nat cl
  /\ b' = (if (i - b <? length cl - (i - b))%nat then S b else b).
Proof.
  unfold erase.
  destruct (Nat.ltb_spec i b) as [?|Hb]; [discriminate |].
  destruct (Nat.leb_spec (b + length cl) i) as [?|Hi]; [discriminate |].
  cbn [orb result ret snd]. intros [= <- <-]. repeat split; lia.
Qed.

Lemma eraseLoop_trace (items : list nat) : forall st,
  trace (foldM erase items st) = [].
Proof.
  induction items as [|i items IH]; intros st; cbn [foldM]; [done |].
  rewrite trace_bind, erase_trace.
  destruct (result (erase st i)); [apply IH | done].
Qed.

Lemma eraseItems_trace cl (items : list nat) : trace (eraseItems cl items) = [].
Proof.
  unfold eraseItems. rewrite trace_bind, eraseLoop_trace.
  by destruct (result _).
Qed.

Lemma eraseLoop_sublist (items : list nat) : forall cl (b : nat) out (b' : nat),
  result (foldM erase items (cl, b)) = Some (out, b') ->
  out `sublist_of` cl /\ (length out + length items)%nat = length cl.
Proof.
  induction items as [|i items IH]; intros cl b out b'; cbn [foldM].
  { intros [= <- <-]. split; [done | cbn [length]; lia]. }
  rewrite result_bind.
  destruct (result (erase (cl, b) i)) as [[cl1 b1]|] eqn:He; [|discriminate].
  intros Hrest. apply erase_inv in He as (Hb & Hi & -> & _).
  destruct (IH _ _ _ _ Hrest) as [Hsub Hlen]. split.
  - etrans; [exact Hsub |]. apply sublist_delete.
  - rewrite length_delete in Hlen by (by apply lookup_lt_is_Some_2).
    cbn [length]. lia.
Qed.

Lemma eraseItems_sublist cl (items : list nat) out :
  result (eraseItems cl items) = Some out ->
  out `sublist_of` cl /\ (length out + length items)%nat = length cl.
Proof.
  unfold eraseItems. rewrite result_bind.
  destruct (result (foldM erase items (cl, 0%nat))) as [[out' b']|] eqn:Hl;
    [|discriminate].
  cbn [result ret snd fst]. intros [= <-]. by apply eraseLoop_sublist in Hl.
Qed.

(** As long as the gap is closed from the back the stored iterators
    stand for the positions they were stored at, and the loop deletes
    the listed positions. *)
Lemma eraseLoop_listed (items : list nat) : forall cl,
  StronglySorted (fun a b => (b < a)%nat) items ->
  Forall (fun d => (d < length cl)%nat) items ->
  erasedFromBack (length cl) items ->
  exists b, result (foldM erase items (cl, 0%nat))
            = Some (deleteListed cl items, b).
Proof.
  unfold deleteListed.
  induction items as [|i items IH]; intros cl Hsorted Hlt Hback;
    cbn [foldM fold_left].
  { by exists 0%nat. }
  apply StronglySorted_inv in Hsorted as [Hsorted Hi].
  apply Forall_cons in Hlt as [Hilt Hlt].
  rewrite result_bind. unfold erase.
  destruct (Nat.ltb_spec i 0) as [?|_]; [lia |].
  destruct (Nat.leb_spec (0 + length cl) i) as [?|_]; [lia |].
  cbn [orb result ret snd]. rewrite Nat.sub_0_r.
  destruct items as [|j items].
  { cbn [foldM fold_left result ret snd]. eauto. }
  destruct Hback as [Hi_back Hback].
  destruct (Nat.ltb_spec i (length cl - i)) as [?|_]; [lia |].
  apply IH; [done | |].
  - rewrite length_delete by (by apply lookup_lt_is_Some_2).
    rewrite Forall_forall in Hi |- *. intros d Hd.
    specialize (Hi d Hd). cbv beta in Hi. lia.
  - by rewrite length_delete by (by apply lookup_lt_is_Some_2).
Qed.

Lemma eraseItems_listed cl (items : list nat) :
  StronglySorted (fun a b => (b < a)%nat) items ->
  Forall (fun d => (d < length cl)%nat) items ->
  erasedFromBack (length cl) items ->
  result (eraseItems cl items) = Some (deleteListed cl items).
Proof.
  intros Hsorted Hlt Hback.
  destruct (eraseLoop_listed items cl Hsorted Hlt Hback) as [b Hb].
  unfold eraseItems. by rewrite result_bind, Hb.
Qed.

End Compression.

(** C5, as the code has it: the compression leaves a cluster list as it
    is, without performing a merge (no division by a destination's ratio
    takes place), exactly when every cluster is at least the threshold
    away from each cluster before it.  The statement holds of any list,
    the output of an earlier compression included; the compression
    itself does not establish the separation it tests for. *)
Theorem merge_noop_iff_separated (s_minimumSquareDistance : Z)
    (clusters : list colorStat) :
  separated s_minimumSquareDistance clusters <->
  mergeClusters s_minimumSquareDistance clusters = ret clusters.
Proof.
  unfold mergeClusters. split.
  - intros Hsep.
    by rewrite (mergeLoop_separated s_minimumSquareDistance clusters
                  (length clusters) [] (Nat.le_refl _) Hsep).
  - intros Heq i j source dest Hj Hs Hd.
    apply (f_equal trace) in Heq. rewrite trace_bind in Heq.
    cbn [trace ret fst] in Heq. apply app_eq_nil in Heq as [Heq _].
    apply (mergeLoop_quiet s_minimumSquareDistance clusters (length clusters)
             [] (Nat.le_refl _) Heq i j source dest); try done.
    by apply lookup_lt_Some in Hs.
Qed.

(** The image [besideTheLine]: the sorted clusters are (40,0,0),
    (41,0,101) and (40,85,50); the third is compared first and kept, the
    second is then folded into the first, which moves to (40,0,60), at
    distance 29200 from the third.  A second compression merges the two
    survivors. *)
Lemma merge_not_idempotent_counterexample :
  exists merged again,
    result (mergedClusters thresholdExample ratioExample
              (collectSamples thresholdExample ratioExample besideTheLine).1
              (collectSamples thresholdExample ratioExample besideTheLine).2)
      = Some merged
    /\ map (fun stat => channels (centroid stat)) merged
       = [(40, 0, 60); (40, 85, 50)]
    /\ (exists dest source,
          merged = [dest; source]
          /\ squareDistance (centroid source) (centroid dest) = 29200
          /\ 29200 < thresholdExample)
    /\ result (mergeClusters thresholdExample merged) = Some again
    /\ length again = 1%nat
    /\ mergeClusters thresholdExample merged <> ret merged.
Proof.
  eexists _, _. split; [vm_compute; reflexivity |].
  split; [reflexivity |].
  split; [eexists _, _; split; [reflexivity |]; split; reflexivity |].
  split; [vm_compute; reflexivity |].
  split; [reflexivity |].
  vm_compute. discriminate.
Qed.

(** ** The erasure of the absorbed clusters *)

(** The erase loop removes the listed slots one after the other.  When
    the first slot [i] lies in the front half of the list, the clusters
    before it are moved up by one slot, and the second slot [j], which
    held the cluster at position [j], now holds the cluster that was at
    position [j - 1]: that one is removed (for [j = 1] the first
    cluster, the destination of every merge into it), and the cluster at
    position [j] stays.  No slot is left for [j = 0]. *)
Theorem erase_after_front_removal (clusters : list colorStat) (i j : nat) :
  (j < i)%nat ->
  (i < length clusters - i)%nat ->
  result (eraseItems clusters [i; j])
  = match j with
    | O => None
    | S j' => Some (delete j' (delete i clusters))
    end.
Proof.
  intros Hj Hi.
  assert (erase (clusters, 0%nat) i = ret (delete i clusters, 1%nat)) as Hfirst.
  { unfold erase.
    destruct (Nat.ltb_spec i 0) as [?|_]; [lia |].
    destruct (Nat.leb_spec (0 + length clusters) i) as [?|_]; [lia |].
    cbn [orb]. rewrite Nat.sub_0_r.
    by destruct (Nat.ltb_spec i (length clusters - i)) as [_|?]; [|lia]. }
  assert (length (delete i clusters) = (length clusters - 1)%nat) as Hlen.
  { rewrite length_delete; [lia |]. apply lookup_lt_is_Some_2. lia. }
  unfold eraseItems. cbn [foldM]. rewrite !result_bind, Hfirst.
  cbn [result ret snd]. rewrite !result_bind.
  destruct j as [|j'].
  { reflexivity. }
  unfold erase.
  destruct (Nat.ltb_spec (S j') 1) as [?|_]; [lia |].
  destruct (Nat.leb_spec (1 + length (delete i clusters)) (S j')) as [?|_];
    [lia |].
  cbn [orb result ret snd bind fst].
  by replace (S j' - 1)%nat with j' by lia.
Qed.

(** The image [frontErasure]: the sweep folds the cluster at position 2
    into the one at position 1 and that one into the first, and lists
    the slots 2 and 1.  The erase loop removes the cluster at position 2
    and then the first cluster, (53,73,111) of ratio 9/8; the absorbed
    (54,88,131) stays and becomes the dominant colour. *)
Lemma erase_after_front_removal_witness :
  exists sorted swept merged imageData,
    result (sortedClusters thresholdExample ratioExample
              (collectSamples thresholdExample ratioExample frontErasure).1
              (collectSamples thresholdExample ratioExample frontErasure).2)
      = Some sorted
    /\ result (mergeLoop thresholdExample (length sorted) sorted [])
       = Some (swept, [2; 1]%nat)
    /\ map (fun stat => (channels (centroid stat), Qred (ratio stat))) swept
       = [(53, 73, 111, (9 # 8)%Q); (54, 88, 131, (5 # 8)%Q);
          (42, 64, 144, (1 # 4)%Q); (151, 68, 18, (1 # 4)%Q);
          (226, 186, 19, (1 # 4)%Q)]
    /\ result (eraseItems swept [2; 1]%nat) = Some merged
    /\ merged = delete 0%nat (delete 2%nat swept)
    /\ map (fun stat => channels (centroid stat)) merged
       = [(54, 88, 131); (151, 68, 18); (226, 186, 19)]
    /\ result (generatePalette thresholdExample ratioExample frontErasure)
       = Some imageData
    /\ m_clusters imageData = merged
    /\ m_dominant imageData = fromQRgb (qRgb 54 88 131)
    /\ paletteRatios imageData = [(5 # 8)%Q; (1 # 4)%Q; (1 # 4)%Q].
Proof.
  destruct (result (sortedClusters thresholdExample ratioExample
              (collectSamples thresholdExample ratioExample frontErasure).1
              (collectSamples thresholdExample ratioExample frontErasure).2))
    as [sorted|] eqn:Hs; [|vm_compute in Hs; discriminate].
  destruct (result (mergeLoop thresholdExample (length sorted) sorted []))
    as [[swept items]|] eqn:Hl;
    [|vm_compute in Hs; injection Hs as <-; vm_compute in Hl; discriminate].
  exists sorted, swept, (delete 0%nat (delete 2%nat swept)).
  vm_compute in Hs. injection Hs as <-.
  vm_compute in Hl. injection Hl as <- <-.
  eexists. split; [reflexivity |].
  split; [vm_compute; reflexivity |].
  split; [reflexivity |].
  split.
  { apply (erase_after_front_removal _ 2 1); cbn [length]; lia. }
  split; [reflexivity |].
  split; [reflexivity |].
  split; [vm_compute; reflexivity |].
  split; [reflexivity |].
  split; reflexivity.
Defined.

(** Two erasures in the front half move [begin] up by two slots.  The
    slot 1, listed for the second cluster, then lies before [begin]:
    the third erasure is handed an iterator outside the list and the
    compression has no result. *)
Theorem erase_before_begin (clusters : list colorStat) (i j : nat) :
  (1 < j)%nat -> (j < i)%nat ->
  (i < length clusters - i)%nat ->
  result (eraseItems clusters [i; j; 1%nat]) = None.
Proof.
  intros H1 Hj Hi.
  assert (erase (clusters, 0%nat) i = ret (delete i clusters, 1%nat)) as Hfirst.
  { unfold erase.
    destruct (Nat.ltb_spec i 0) as [?|_]; [lia |].
    destruct (Nat.leb_spec (0 + length clusters) i) as [?|_]; [lia |].
    cbn [orb]. rewrite Nat.sub_0_r.
    by destruct (Nat.ltb_spec i (length clusters - i)) as [_|?]; [|lia]. }
  assert (length (delete i clusters) = (length clusters - 1)%nat) as Hlen.
  { rewrite length_delete; [lia |]. apply lookup_lt_is_Some_2. lia. }
  assert (erase (delete i clusters, 1%nat) j
          = ret (delete (j - 1)%nat (delete i clusters), 2%nat)) as Hsecond.
  { unfold erase.
    destruct (Nat.ltb_spec j 1) as [?|_]; [lia |].
    destruct (Nat.leb_spec (1 + length (delete i clusters)) j) as [?|_];
      [lia |].
    cbn [orb].
    by destruct (Nat.ltb_spec (j - 1)%nat
                   (length (delete i clusters) - (j - 1))%nat)
      as [_|?]; [|lia]. }
  unfold eraseItems. cbn [foldM]. rewrite !result_bind, Hfirst.
  cbn [result ret snd]. rewrite !result_bind, Hsecond.
  cbn [result ret snd]. rewrite !result_bind. reflexivity.
Qed.

(** The image [twiceFromFront]: the fifth assignment opens no cluster
    and nine clusters with positive ratios are sorted; the sweep lists
    the slots 3, 2 and 1, the first two erasures move [begin] to slot 2,
    and the extraction has no result. *)
Lemma erase_before_begin_witness :
  settled thresholdExample ratioExample twiceFromFront
  /\ exists sorted swept,
       result (sortedClusters thresholdExample ratioExample
                 (collectSamples thresholdExample ratioExample twiceFromFront).1
                 (collectSamples thresholdExample ratioExample twiceFromFront).2)
         = Some sorted
       /\ length sorted = 9%nat
       /\ positiveRatios sorted
       /\ result (mergeLoop thresholdExample (length sorted) sorted [])
          = Some (swept, [3; 2; 1]%nat)
       /\ result (eraseItems swept [3; 2; 1]%nat) = None
       /\ result (generatePalette thresholdExample ratioExample twiceFromFront)
          = None.
Proof.
  split.
  { eexists _, _. split; [vm_compute; reflexivity |].
    split; [vm_compute; reflexivity | reflexivity]. }
  destruct (result (sortedClusters thresholdExample ratioExample
              (collectSamples thresholdExample ratioExample twiceFromFront).1
              (collectSamples thresholdExample ratioExample twiceFromFront).2))
    as [sorted|] eqn:Hs; [|vm_compute in Hs; discriminate].
  destruct (result (mergeLoop thresholdExample (length sorted) sorted []))
    as [[swept items]|] eqn:Hl;
    [|vm_compute in Hs; injection Hs as <-; vm_compute in Hl; discriminate].
  exists sorted, swept.
  vm_compute in Hs. injection Hs as <-.
  vm_compute in Hl. injection Hl as <- <-.
  split; [reflexivity |].
  split; [reflexivity |].
  split; [repeat constructor |].
  split; [reflexivity |].
  split.
  { apply (erase_before_begin _ 3 2); cbn [length]; lia. }
  vm_compute. reflexivity.
Defined.

(** ** Clusters created by the last assignment *)

Lemma refine_last smin rd (k : nat) samples clusters before refined :
  result (refine smin rd k samples clusters) = Some before ->
  result (refine smin rd (S k) samples clusters) = Some refined ->
  exists updated,
    Forall2 (updatedFrom samples) before updated
    /\ refined = reassign smin rd samples updated.
Proof.
  intros Hb Hr. rewrite refine_snoc, result_bind, Hb in Hr.
  rewrite refineIteration_result in Hr.
  destruct (result (mapM (updateCentroid samples) before))
    as [updated|] eqn:Hu; [|discriminate].
  injection Hr as <-. exists updated. split; [|done].
  by apply updateAll_inv.
Qed.

Lemma mergedClusters_inv smin rd samples clusters refined merged :
  result (refinedClusters smin rd samples clusters) = Some refined ->
  result (mergedClusters smin rd samples clusters) = Some merged ->
  exists swept items,
    result (mergeLoop smin (length (std_sort refined)) (std_sort refined) [])
      = Some (swept, items)
    /\ result (eraseItems swept items) = Some merged.
Proof.
  intros Hr Hm. unfold mergedClusters, sortedClusters in Hm.
  rewrite !result_bind, Hr in Hm. cbn [result ret snd] in Hm.
  unfold mergeClusters in Hm. rewrite result_bind in Hm.
  destruct (result (mergeLoop smin _ (std_sort refined) []))
    as [[swept items]|] eqn:Hl; [|discriminate].
  by exists swept, items.
Qed.

(** C10, as the code has it: assignment never writes [ratio] (the
    clusters it finds keep theirs, a cluster it creates has the default).
    A cluster that the fifth assignment creates, one at a position past
    the clusters that entered the fifth iteration, therefore holds the
    default ratio when the iterations end, and the sort hands it to the
    compression unchanged.  The compression can fold it into an earlier
    cluster and delete it, or choose it as a destination and divide by
    its ratio.  When the default is zero and the sweep completes, the
    cluster was not a destination and the sweep has left it as it is;
    and whenever it is among the final clusters, the palette has an
    entry with its colour and the default ratio. *)
Theorem late_cluster_keeps_default_ratio (s_minimumSquareDistance : Z)
    (ratio_default : Q) (samples : list QRgb) (clusters : list colorStat)
    (before refined : list colorStat) (i : nat) (stat : colorStat) :
  result (refine s_minimumSquareDistance ratio_default 4 samples clusters)
    = Some before ->
  result (refinedClusters s_minimumSquareDistance ratio_default samples clusters)
    = Some refined ->
  (length before <= i)%nat ->
  refined !! i = Some stat ->
  (forall rgb cl, exists n : nat,
      map ratio (positionColor s_minimumSquareDistance ratio_default rgb cl)
      = map ratio cl ++ replicate n ratio_default)
  /\ ratio stat = ratio_default
  /\ stat ∈ std_sort refined
  /\ ((ratio_default == 0)%Q ->
      forall swept items (p : nat),
        result (mergeLoop s_minimumSquareDistance
                  (length (std_sort refined)) (std_sort refined) [])
          = Some (swept, items) ->
        std_sort refined !! p = Some stat ->
        swept !! p = Some stat)
  /\ (forall merged imageData,
        result (mergedClusters s_minimumSquareDistance ratio_default
                  samples clusters) = Some merged ->
        result (deriveColors s_minimumSquareDistance samples merged)
          = Some imageData ->
        stat ∈ merged ->
        exists entry,
          entry ∈ m_palette imageData
          /\ color entry = fromQRgb (centroid stat)
          /\ entryRatio entry = ratio_default).
Proof.
  intros Hb Hr Hi Hstat.
  destruct (refine_last _ _ 4 _ _ _ _ Hb Hr) as (updated & Hupd & ->).
  apply updated_members in Hupd as (_ & _ & Hlen).
  assert (ratio stat = ratio_default) as Hratio.
  { destruct (reassign_ratios s_minimumSquareDistance ratio_default samples
                updated) as [n Hn].
    assert (map ratio (reassign s_minimumSquareDistance ratio_default samples
                         updated) !! i = Some (ratio stat)) as Hl.
    { by rewrite list_lookup_fmap, Hstat. }
    rewrite Hn, lookup_app_r in Hl by (rewrite length_map; lia).
    apply lookup_replicate in Hl as [Hl _]. done. }
  split; [intros rgb cl; apply positionColor_ratios |].
  split; [done |]. split.
  { destruct (sort_fold
                (reassign s_minimumSquareDistance ratio_default samples updated)
                [] (SSorted_nil _)) as [_ Hperm].
    unfold std_sort. rewrite Hperm. cbn [app].
    by apply list_elem_of_lookup_2 in Hstat. }
  split.
  { intros Hzero swept items p Hl Hp.
    apply (mergeLoop_keeps _ _ _ _ _ _ Hl p stat Hp). by rewrite Hratio. }
  intros merged imageData Hm Hd Hin.
  apply deriveColors_inv in Hd as (firstStat & rest & _ & _ & Hcl & _ & Hpal & _).
  exists (paletteEntryOf s_minimumSquareDistance imageData stat).
  split; [|by split].
  rewrite Hpal. by apply list_elem_of_fmap_2.
Qed.

(** The image [lateCluster]: two clusters enter the fifth iteration, the
    third is created for the sample (0,0,224) by the fifth assignment,
    holds that sample alone, and appears in the palette with ratio 0. *)
Lemma late_cluster_keeps_default_ratio_witness :
  exists before refined stat imageData,
    result (refine thresholdExample ratioExample 4
              (collectSamples thresholdExample ratioExample lateCluster).1
              (collectSamples thresholdExample ratioExample lateCluster).2)
      = Some before
    /\ result (refinedClusters thresholdExample ratioExample
                 (collectSamples thresholdExample ratioExample lateCluster).1
                 (collectSamples thresholdExample ratioExample lateCluster).2)
         = Some refined
    /\ length before = 2%nat
    /\ refined !! 2%nat = Some stat
    /\ channels (centroid stat) = (0, 0, 224)
    /\ length (colors stat) = 1%nat
    /\ ratio stat = ratioExample
    /\ result (generatePalette thresholdExample ratioExample lateCluster)
         = Some imageData
    /\ paletteRatios imageData = [(3 # 4)%Q; (1 # 2)%Q; 0%Q].
Proof.
  eexists _, _, _, _.
  split; [vm_compute; reflexivity |].
  split; [vm_compute; reflexivity |].
  split; [reflexivity |].
  split; [reflexivity |].
  split; [reflexivity |].
  split; [reflexivity |].
  split.
  { refine (proj1 (proj2 (late_cluster_keeps_default_ratio
                     thresholdExample ratioExample
                     (collectSamples thresholdExample ratioExample lateCluster).1
                     (collectSamples thresholdExample ratioExample lateCluster).2
                     _ _ 2 _ _ _ _ _))).
    - vm_compute; reflexivity.
    - vm_compute; reflexivity.
    - cbn [length]. lia.
    - reflexivity. }
  split; [vm_compute; reflexivity | reflexivity].
Defined.

(** The image [lateSource]: three clusters enter the fifth iteration and
    the fifth assignment creates a fourth, (117,20,144), for two samples.
    It is sorted to the third place with ratio 0, the sweep folds it
    into the first cluster, and the erase loop removes it: the palette
    has the single entry (201,65,54) of ratio 14/11 and no entry for the
    cluster. *)
Lemma late_cluster_merged_counterexample :
  exists before refined stat sorted imageData,
    result (refine thresholdExample ratioExample 4
              (collectSamples thresholdExample ratioExample lateSource).1
              (collectSamples thresholdExample ratioExample lateSource).2)
      = Some before
    /\ result (refinedClusters thresholdExample ratioExample
                 (collectSamples thresholdExample ratioExample lateSource).1
                 (collectSamples thresholdExample ratioExample lateSource).2)
         = Some refined
    /\ length before = 3%nat
    /\ refined !! 3%nat = Some stat
    /\ channels (centroid stat) = (117, 20, 144)
    /\ length (colors stat) = 2%nat
    /\ ratio stat = ratioExample
    /\ result (sortedClusters thresholdExample ratioExample
                 (collectSamples thresholdExample ratioExample lateSource).1
                 (collectSamples thresholdExample ratioExample lateSource).2)
         = Some sorted
    /\ sorted !! 2%nat = Some stat
    /\ (exists swept,
          result (mergeLoop thresholdExample (length sorted) sorted [])
          = Some (swept, [3; 2; 1]%nat))
    /\ result (generatePalette thresholdExample ratioExample lateSource)
         = Some imageData
    /\ map (fun s => channels (centroid s)) (m_clusters imageData)
       = [(201, 65, 54)]
    /\ length (m_palette imageData) = 1%nat
    /\ paletteRatios imageData = [(14 # 11)%Q].
Proof.
  eexists _, _, _, _, _.
  split; [vm_compute; reflexivity |].
  split; [vm_compute; reflexivity |].
  split; [reflexivity |].
  split; [reflexivity |].
  split; [reflexivity |].
  split; [reflexivity |].
  split; [reflexivity |].
  split; [vm_compute; reflexivity |].
  split; [reflexivity |].
  split; [eexists; vm_compute; reflexivity |].
  split; [vm_compute; reflexivity |].
  split; [reflexivity |].
  split; reflexivity.
Qed.

(** ** The sum of the ratios *)











Lemma mergeLoop_length smin : forall (n : nat) clusters itemsToDelete swept items,
  result (mergeLoop smin n clusters itemsToDelete) = Some (swept, items) ->
  length swept = length clusters.
Proof.
  induction n as [|i IH]; intros cl ds0 swept ds H.
  { cbn in H. by injection H as <- _. }
  cbn [mergeLoop] in H.
  destruct (cl !! i) as [source|] eqn:Hs; [|discriminate].
  destruct (list_find (withinThreshold smin source) (take i cl))
    as [[j dest]|] eqn:Hf.
  - rewrite result_bind in H.
    destruct (result (absorb source dest)) as [dest'|] eqn:Hab; [|discriminate].
    rewrite (IH _ _ _ _ H). apply length_insert.
  - by apply (IH _ _ _ _ H).
Qed.


(** The loop over [itemsToDelete] after a sweep whose erasures all close
    the gap from the back. *)
Lemma sweep_erased_as_listed smin clusters swept items :
  result (mergeLoop smin (length clusters) clusters []) = Some (swept, items) ->
  erasedFromBack (length swept) items ->
  result (mergeClusters smin clusters) = Some (deleteListed swept items).
Proof.
  intros Hl Hback. unfold mergeClusters. rewrite result_bind, Hl.
  cbn [fst snd].
  destruct (mergeLoop_items _ _ _ _ _ _ Hl) as (new & Hnew & Hsorted & Hlt).
  cbn [app] in Hnew. subst new.
  apply eraseItems_listed; [done | | done].
  by rewrite (mergeLoop_length _ _ _ _ _ _ Hl).
Qed.




(** ** The iterations are defined *)

(** No division of the refinement has a zero divisor: for an image with
    at least one eligible sample the scan leaves no cluster without a
    member, the five iterations produce a result, and no cluster is
    without a member afterwards. *)
Theorem refinement_is_defined (s_minimumSquareDistance : Z)
    (ratio_default : Q) (sourceImage : QImage) :
  eligibleSamples sourceImage <> [] ->
  populated (collectSamples s_minimumSquareDistance ratio_default sourceImage).2
  /\ exists refined,
       result (refinedClusters s_minimumSquareDistance ratio_default
                 (collectSamples s_minimumSquareDistance ratio_default sourceImage).1
                 (collectSamples s_minimumSquareDistance ratio_default sourceImage).2)
         = Some refined
       /\ populated refined.
Proof.
  intros Hne.
  destruct (collectSamples_spec s_minimumSquareDistance ratio_default
              sourceImage) as (Hs & _ & Hp).
  split; [exact Hp |]. rewrite <- Hs in Hne.
  exact (refine_defined s_minimumSquareDistance ratio_default 5 _ _ Hne Hp).
Qed.

(** The image [lateCluster]: three populated clusters after the five
    iterations. *)
Lemma refinement_is_defined_witness :
  eligibleSamples lateCluster <> []
  /\ exists refined,
       result (refinedClusters thresholdExample ratioExample
                 (collectSamples thresholdExample ratioExample lateCluster).1
                 (collectSamples thresholdExample ratioExample lateCluster).2)
         = Some refined
       /\ populated refined.
Proof.
  assert (eligibleSamples lateCluster <> []) as Hne by (vm_compute; discriminate).
  split; [exact Hne |].
  exact (proj2 (refinement_is_defined thresholdExample ratioExample
                  lateCluster Hne)).
Defined.

(** * Further properties of the code *)

(** ** Colour words *)

Lemma byte_land (x : Z) : 0 <= x <= 255 -> Z.land x 255 = x.
Proof.
  intros Hx. change 255 with (Z.ones 8). rewrite Z.land_ones by lia.
  apply Z.mod_small. change (2 ^ 8) with 256. lia.
Qed.

Lemma byte_shiftr (x n : Z) : 0 <= x <= 255 -> 8 <= n -> Z.shiftr x n = 0.
Proof.
  intros Hx Hn. rewrite Z.shiftr_div_pow2 by lia. apply Z.div_small.
  assert (2 ^ 8 <= 2 ^ n) by (apply Z.pow_le_mono_r; lia).
  change (2 ^ 8) with 256 in *. lia.
Qed.

Lemma shiftl_land_byte (x n : Z) : 8 <= n -> Z.land (Z.shiftl x n) 255 = 0.
Proof.
  intros Hn. change 255 with (Z.ones 8). rewrite Z.land_ones by lia.
  rewrite Z.shiftl_mul_pow2 by lia.
  replace n with ((n - 8) + 8) by lia. rewrite Z.pow_add_r by lia.
  rewrite Z.mul_assoc. apply Z.mod_mul. lia.
Qed.

Lemma shiftl_shiftr_same (x n : Z) : 0 <= n -> Z.shiftr (Z.shiftl x n) n = x.
Proof.
  intros Hn. rewrite Z.shiftr_shiftl_l by lia. rewrite Z.sub_diag.
  apply Z.shiftl_0_r.
Qed.

Lemma red_of (r g b : Z) :
  0 <= r <= 255 -> 0 <= g <= 255 -> 0 <= b <= 255 ->
  Z.land (Z.shiftr (Z.lor 4278190080 (Z.lor (Z.shiftl r 16)
            (Z.lor (Z.shiftl g 8) b))) 16) 255 = r.
Proof.
  intros Hr Hg Hb.
  rewrite !Z.shiftr_lor, !Z.land_lor_distr_l.
  rewrite (shiftl_shiftr_same r 16) by lia.
  rewrite (Z.shiftr_shiftl_r g 8 16) by lia.
  rewrite (byte_shiftr g (16 - 8)), (byte_shiftr b 16) by lia.
  change (Z.land (Z.shiftr 4278190080 16) 255) with 0.
  rewrite Z.land_0_l, !Z.lor_0_r, Z.lor_0_l. by apply byte_land.
Qed.

Lemma green_of (r g b : Z) :
  0 <= r <= 255 -> 0 <= g <= 255 -> 0 <= b <= 255 ->
  Z.land (Z.shiftr (Z.lor 4278190080 (Z.lor (Z.shiftl r 16)
            (Z.lor (Z.shiftl g 8) b))) 8) 255 = g.
Proof.
  intros Hr Hg Hb.
  rewrite !Z.shiftr_lor, !Z.land_lor_distr_l.
  rewrite (shiftl_shiftr_same g 8) by lia.
  rewrite (Z.shiftr_shiftl_l r 16 8) by lia.
  rewrite (shiftl_land_byte r (16 - 8)) by lia.
  rewrite (byte_shiftr b 8) by lia.
  change (Z.land (Z.shiftr 4278190080 8) 255) with 0.
  rewrite Z.land_0_l, !Z.lor_0_r, !Z.lor_0_l. by apply byte_land.
Qed.

Lemma blue_of (r g b : Z) :
  0 <= r <= 255 -> 0 <= g <= 255 -> 0 <= b <= 255 ->
  Z.land (Z.lor 4278190080 (Z.lor (Z.shiftl r 16)
            (Z.lor (Z.shiftl g 8) b))) 255 = b.
Proof.
  intros Hr Hg Hb.
  rewrite !Z.land_lor_distr_l.
  rewrite (shiftl_land_byte r 16), (shiftl_land_byte g 8) by lia.
  change (Z.land 4278190080 255) with 0.
  rewrite !Z.lor_0_l. by apply byte_land.
Qed.

Lemma channels_qRgb (r g b : Z) :
  0 <= r <= 255 -> 0 <= g <= 255 -> 0 <= b <= 255 ->
  channels (qRgb r g b) = (r, g, b).
Proof.
  intros Hr Hg Hb. unfold channels, qRed, qGreen, qBlue, qRgb.
  rewrite (byte_land r Hr), (byte_land g Hg), (byte_land b Hb).
  change (Z.shiftl 255 24) with 4278190080.
  by rewrite red_of, green_of, blue_of.
Qed.

Lemma channels_range (c : QRgb) :
  0 <= qRed c <= 255 /\ 0 <= qGreen c <= 255 /\ 0 <= qBlue c <= 255.
Proof. unfold qRed, qGreen, qBlue. repeat split; apply byte_range. Qed.

(** ** The distance *)

Lemma square_bound (d : Z) :
  -255 <= d <= 255 -> 0 <= d * d <= 65025 /\ (d * d = 0 <-> d = 0).
Proof.
  intros Hd. split; [split |].
  - apply Z.square_nonneg.
  - assert (0 <= (255 - d) * (255 + d)) as H
      by (apply Z.mul_nonneg_nonneg; lia).
    replace ((255 - d) * (255 + d)) with (65025 - d * d) in H by ring. lia.
  - split; [|intros ->; reflexivity].
    intros H. apply Z.eq_mul_0 in H. lia.
Qed.

(** The distance is never negative and never exceeds 585225, which is
    below the 4681800 that the search for the nearest centroid starts
    from; it is zero exactly for two colours with the same red, green
    and blue (the alpha byte plays no part). *)
Theorem squareDistance_range (a b : QRgb) :
  0 <= squareDistance a b <= 585225
  /\ squareDistance a b < 4681800
  /\ (squareDistance a b = 0 <-> channels a = channels b).
Proof.
  rewrite squareDistance_branch. unfold channels.
  destruct (channels_range a) as (Hra & Hga & Hba).
  destruct (channels_range b) as (Hrb & Hgb & Hbb).
  revert Hra Hga Hba Hrb Hgb Hbb.
  generalize (qRed a) (qGreen a) (qBlue a) (qRed b) (qGreen b) (qBlue b).
  intros ra ga ba rb gb bb Hra Hga Hba Hrb Hgb Hbb.
  rewrite !Z.pow_2_r.
  destruct (square_bound (ra - rb)) as [? ?]; [lia |].
  destruct (square_bound (ga - gb)) as [? ?]; [lia |].
  destruct (square_bound (ba - bb)) as [? ?]; [lia |].
  destruct (128 <=? ra - rb); (split; [lia |]); (split; [lia |]); split.
  all: try (intros Hz; f_equal; [f_equal |]; lia).
  all: intros [= -> -> ->]; lia.
Qed.

(** With a threshold of at most 32768 the test "within the threshold"
    gives the same answer in both orders: the two weightings differ only
    when the red channels are 128 or more apart, and then both distances
    are at least 2 * 128 * 128. *)
Theorem threshold_test_symmetric (s_minimumSquareDistance : Z) (a b : QRgb) :
  s_minimumSquareDistance <= 32768 ->
  squareDistance a b < s_minimumSquareDistance <->
  squareDistance b a < s_minimumSquareDistance.
Proof.
  intros HT. rewrite (squareDistance_branch a b), (squareDistance_branch b a).
  generalize (qRed a) (qGreen a) (qBlue a) (qRed b) (qGreen b) (qBlue b).
  intros ra ga ba rb gb bb. rewrite !Z.pow_2_r.
  pose proof (Z.square_nonneg (ga - gb)).
  pose proof (Z.square_nonneg (ba - bb)).
  assert ((gb - ga) * (gb - ga) = (ga - gb) * (ga - gb)) as -> by ring.
  assert ((bb - ba) * (bb - ba) = (ba - bb) * (ba - bb)) as -> by ring.
  assert ((rb - ra) * (rb - ra) = (ra - rb) * (ra - rb)) as -> by ring.
  destruct (Z.leb_spec 128 (ra - rb)), (Z.leb_spec 128 (rb - ra)); try lia.
  - assert (128 * 128 <= (ra - rb) * (ra - rb))
      by (apply Z.mul_le_mono_nonneg; lia).
    lia.
  - assert (128 * 128 <= (rb - ra) * (rb - ra))
      by (apply Z.mul_le_mono_nonneg; lia).
    replace ((rb - ra) * (rb - ra)) with ((ra - rb) * (ra - rb)) in * by ring.
    lia.
Qed.

(** At the example threshold, red 200 against red 0 is out of reach in
    both orders although the two distances differ. *)
Lemma threshold_test_symmetric_witness :
  thresholdExample <= 32768
  /\ (squareDistance (qRgb 200 0 0) (qRgb 0 0 0) < thresholdExample <->
      squareDistance (qRgb 0 0 0) (qRgb 200 0 0) < thresholdExample).
Proof.
  assert (thresholdExample <= 32768) as H by (vm_compute; discriminate).
  split; [exact H |].
  exact (threshold_test_symmetric thresholdExample (qRgb 200 0 0) (qRgb 0 0 0) H).
Defined.

(** ** First fit *)

Lemma firstFit_cons smin rgb stat clusters :
  firstFit smin rgb (stat :: clusters) =
  if squareDistance rgb (centroid stat) <? smin
  then Some (0%nat, stat)
  else prod_map S id <$> firstFit smin rgb clusters.
Proof.
  unfold firstFit. cbn [list_find]. unfold decide, fits_dec.
  destruct (Z_lt_dec (squareDistance rgb (centroid stat)) smin) as [H|H],
    (Z.ltb_spec (squareDistance rgb (centroid stat)) smin); solve [done | lia].
Qed.

(** [positionColor] is first fit: the colour joins the first cluster, in
    list order, whose centroid is within the threshold of it, and only
    that cluster changes; when no cluster qualifies, a cluster holding the
    colour alone, with the colour as centroid and the default ratio, is
    added at the end. *)
Theorem positionColor_first_fit (s_minimumSquareDistance : Z)
    (ratio_default : Q) (rgb : QRgb) (clusters : list colorStat) :
  positionColor s_minimumSquareDistance ratio_default rgb clusters =
  match firstFit s_minimumSquareDistance rgb clusters with
  | Some (j, stat) => <[j := appendColor stat rgb]> clusters
  | None => clusters ++ [singletonCluster ratio_default rgb]
  end
  /\ forall (j : nat) stat,
       firstFit s_minimumSquareDistance rgb clusters = Some (j, stat) <->
       clusters !! j = Some stat
       /\ squareDistance rgb (centroid stat) < s_minimumSquareDistance
       /\ forall (i : nat) other,
            clusters !! i = Some other -> (i < j)%nat ->
            s_minimumSquareDistance <= squareDistance rgb (centroid other).
Proof.
  split.
  - induction clusters as [|x cl IH]; [reflexivity |].
    cbn [positionColor]. rewrite firstFit_cons, IH.
    destruct (squareDistance rgb (centroid x) <? s_minimumSquareDistance);
      [reflexivity |].
    by destruct (firstFit s_minimumSquareDistance rgb cl) as [[j stat]|].
  - intros j stat. unfold firstFit. rewrite list_find_Some. unfold fits.
    split; intros (H1 & H2 & H3); repeat split; try done.
    + intros i other Hi Hlt. specialize (H3 i other Hi Hlt). lia.
    + intros i other Hi Hlt. specialize (H3 i other Hi Hlt). lia.
Qed.

(** ** An assignment pass *)

Lemma squareDistance_diag (c : QRgb) : squareDistance c c = 0.
Proof. unfold squareDistance. by rewrite !Z.sub_diag. Qed.

Lemma positionColor_centroids smin rd rgb clusters :
  exists extra,
    map centroid (positionColor smin rd rgb clusters)
    = map centroid clusters ++ extra
    /\ (length extra <= 1)%nat.
Proof.
  induction clusters as [|stat cl (extra & IH & Hlen)]; cbn [positionColor].
  - exists [rgb]. split; [done | cbn; lia].
  - destruct (_ <? _); cbn [map centroid appendColor].
    + exists []. split; [by rewrite app_nil_r | cbn; lia].
    + exists extra. split; [by rewrite IH | done].
Qed.

Lemma reassign_centroids smin rd samples : forall clusters,
  exists extra,
    map centroid (reassign smin rd samples clusters)
    = map centroid clusters ++ extra
    /\ (length extra <= length samples)%nat.
Proof.
  unfold reassign.
  induction samples as [|rgb samples IH]; intros cl; cbn [fold_left].
  - exists []. split; [by rewrite app_nil_r | done].
  - destruct (IH (positionColor smin rd rgb cl)) as (e2 & -> & H2).
    destruct (positionColor_centroids smin rd rgb cl) as (e1 & -> & H1).
    exists (e1 ++ e2). split; [by rewrite app_assoc |].
    rewrite length_app. cbn [length]. lia.
Qed.

Lemma housed_positionColor smin rd rgb clusters sample :
  housed smin clusters sample ->
  housed smin (positionColor smin rd rgb clusters) sample.
Proof.
  intros (stat & Hin & Hs & Hfit).
  induction clusters as [|x cl IH]; [by apply elem_of_nil in Hin |].
  cbn [positionColor]. apply elem_of_cons in Hin as [-> | Hin].
  - destruct (_ <? _).
    + exists (appendColor x rgb). split; [left |].
      split; [cbn [colors appendColor]; apply elem_of_app; by left | done].
    + exists x. split; [left | done].
  - destruct (_ <? _).
    + exists stat. split; [by right | done].
    + destruct (IH Hin) as (stat' & Hin' & Hs' & Hfit').
      exists stat'. split; [by right | done].
Qed.

Lemma housed_new smin rd rgb clusters :
  0 < smin -> housed smin (positionColor smin rd rgb clusters) rgb.
Proof.
  intros Hpos. induction clusters as [|x cl (stat & Hin & Hs & Hfit)];
    cbn [positionColor].
  - eexists. split; [left |]. split; [cbn; left |].
    unfold fits. cbn [centroid]. rewrite squareDistance_diag. done.
  - destruct (Z.ltb_spec (squareDistance rgb (centroid x)) smin) as [Hlt|Hge].
    + exists (appendColor x rgb). split; [left |].
      split; [cbn [colors appendColor]; apply elem_of_app; right; left | done].
    + exists stat. split; [by right | done].
Qed.

(** An assignment pass with a positive threshold changes no centroid and
    no ratio of the clusters it starts from, adds at most one cluster per
    sample, all at the end, and leaves every sample as a member of a
    cluster whose centroid is within the threshold of it. *)
Theorem assignment_houses_every_sample (s_minimumSquareDistance : Z)
    (ratio_default : Q) (samples : list QRgb) (clusters : list colorStat) :
  0 < s_minimumSquareDistance ->
  map centroid
    (take (length clusters)
       (reassign s_minimumSquareDistance ratio_default samples clusters))
  = map centroid clusters
  /\ map ratio
       (take (length clusters)
          (reassign s_minimumSquareDistance ratio_default samples clusters))
     = map ratio clusters
  /\ (length clusters
      <= length (reassign s_minimumSquareDistance ratio_default samples clusters)
      <= length clusters + length samples)%nat
  /\ Forall
       (housed s_minimumSquareDistance
          (reassign s_minimumSquareDistance ratio_default samples clusters))
       samples.
Proof.
  intros Hpos.
  destruct (reassign_centroids s_minimumSquareDistance ratio_default samples
              clusters) as (extra & Hc & Hlen).
  destruct (reassign_ratios s_minimumSquareDistance ratio_default samples
              clusters) as (n & Hr).
  assert (length (reassign s_minimumSquareDistance ratio_default samples clusters)
          = (length clusters + length extra)%nat) as Hl.
  { rewrite <- (length_map centroid), Hc, length_app, length_map. done. }
  split; [|split; [|split]].
  - rewrite <- firstn_map, Hc, <- (length_map centroid clusters).
    by rewrite take_app_length.
  - rewrite <- firstn_map, Hr, <- (length_map ratio clusters).
    by rewrite take_app_length.
  - lia.
  - clear Hc Hr Hl Hlen extra n. unfold reassign. revert clusters.
    induction samples as [|rgb samples IH]; intros cl; cbn [fold_left];
      [constructor |].
    constructor; [|apply IH].
    assert (forall l start,
               housed s_minimumSquareDistance start rgb ->
               housed s_minimumSquareDistance
                 (fold_left
                    (fun cl color =>
                       positionColor s_minimumSquareDistance ratio_default
                         color cl) l start) rgb) as Hkeep.
    { induction l as [|c l IHl]; intros start Hst; cbn [fold_left]; [done |].
      by apply IHl, housed_positionColor. }
    by apply Hkeep, housed_new.
Qed.

(** Scenario A's four samples, assigned from scratch, share one home. *)
Lemma assignment_houses_every_sample_witness :
  0 < thresholdExample
  /\ Forall
       (housed thresholdExample
          (reassign thresholdExample ratioExample
             (eligibleSamples scenarioA) []))
       (eligibleSamples scenarioA).
Proof.
  assert (0 < thresholdExample) as H by reflexivity.
  split; [exact H |].
  exact (proj2 (proj2 (proj2 (assignment_houses_every_sample thresholdExample
                                ratioExample (eligibleSamples scenarioA) [] H)))).
Defined.

(** ** What the scan retains *)

Lemma collect_fold_reassign smin rd (pixels : list QColor) : forall st,
  fold_left (samplePixel smin rd) pixels st
  = (st.1 ++ map rgb (filter (fun c => alpha c <> 0) pixels),
     reassign smin rd (map rgb (filter (fun c => alpha c <> 0) pixels)) st.2).
Proof.
  induction pixels as [|c pixels IH]; intros [samples clusters];
    cbn [fold_left].
  { cbn. by rewrite app_nil_r. }
  rewrite IH. unfold samplePixel. rewrite filter_cons.
  destruct (Z.eqb_spec (alpha c) 0) as [Hz|Hz].
  - by rewrite decide_False by (intros ?; done).
  - rewrite decide_True by done. cbn [fst snd map]. by rewrite <- app_assoc.
Qed.

Lemma collectSamples_reassign smin rd sourceImage :
  collectSamples smin rd sourceImage
  = (eligibleSamples sourceImage,
     reassign smin rd (eligibleSamples sourceImage) []).
Proof.
  rewrite collectSamples_fold, collect_fold_reassign. reflexivity.
Qed.

(** The extraction sees an image only through its null flag, whether its
    width is zero, and the colours of its pixels of non-zero alpha in scan
    order: two images that agree on these give the same result.  A pixel
    of alpha zero leaves no trace, whatever its colour, and the alpha of
    the other pixels is not looked at again. *)
Theorem palette_depends_on_samples_only (s_minimumSquareDistance : Z)
    (ratio_default : Q) (image1 image2 : QImage) :
  isNull image1 = isNull image2 ->
  (width image1 =? 0) = (width image2 =? 0) ->
  eligibleSamples image1 = eligibleSamples image2 ->
  generatePalette s_minimumSquareDistance ratio_default image1
  = generatePalette s_minimumSquareDistance ratio_default image2.
Proof.
  intros Hnull Hwidth Hsamples. unfold generatePalette.
  by rewrite !collectSamples_reassign, Hnull, Hwidth, Hsamples.
Qed.

(** Scenario B and a lone pixel of alpha 7: different sizes and alphas,
    the same sample, the same result. *)
Lemma palette_depends_on_samples_only_witness :
  eligibleSamples scenarioB = [qRgb 10 10 10]
  /\ eligibleSamples faintPixel = [qRgb 10 10 10]
  /\ generatePalette thresholdExample ratioExample scenarioB
     = generatePalette thresholdExample ratioExample faintPixel.
Proof.
  assert (eligibleSamples scenarioB = eligibleSamples faintPixel) as H
    by (vm_compute; reflexivity).
  split; [vm_compute; reflexivity |]. split; [vm_compute; reflexivity |].
  exact (palette_depends_on_samples_only thresholdExample ratioExample
           scenarioB faintPixel eq_refl eq_refl H).
Defined.

(** ** The order of the scan *)

Lemma sorted_app {A} (R : A -> A -> Prop) (l1 l2 : list A) :
  StronglySorted R l1 -> StronglySorted R l2 ->
  (forall x y, x ∈ l1 -> y ∈ l2 -> R x y) ->
  StronglySorted R (l1 ++ l2).
Proof.
  induction 1 as [|a l1 Hl1 IH Ha]; intros Hl2 Hcross; cbn [app]; [done |].
  constructor.
  - apply IH; [done |]. intros x y Hx Hy. apply Hcross; [by right | done].
  - apply Forall_app. split; [done |].
    apply Forall_forall. intros y Hy. apply Hcross; [by left | done].
Qed.

Lemma sorted_bind {A B} (R1 : A -> A -> Prop) (R2 : B -> B -> Prop)
    (f : A -> list B) (l : list A) :
  StronglySorted R1 l ->
  (forall x, x ∈ l -> StronglySorted R2 (f x)) ->
  (forall x1 x2 y1 y2, R1 x1 x2 -> y1 ∈ f x1 -> y2 ∈ f x2 -> R2 y1 y2) ->
  StronglySorted R2 (l ≫= f).
Proof.
  induction 1 as [|a l Hl IH Ha]; intros Hin Hcross; [constructor |].
  rewrite bind_cons. apply sorted_app.
  - apply Hin. by left.
  - apply IH; [|done]. intros x Hx. apply Hin. by right.
  - intros y1 y2 Hy1 Hy2. apply list_elem_of_bind in Hy2 as (x2 & Hy2 & Hx2).
    rewrite Forall_forall in Ha.
    apply (Hcross a x2); [by apply Ha | done | done].
Qed.

Lemma range_sorted (n : Z) : StronglySorted Z.lt (range n).
Proof.
  unfold range. generalize 0%nat.
  induction (Z.to_nat n) as [|k IH]; intros start; cbn [seq map];
    constructor; [apply IH |].
  apply Forall_forall. intros z Hz.
  apply list_elem_of_fmap in Hz as (i & -> & Hi).
  apply elem_of_seq in Hi. lia.
Qed.

Lemma length_range (n : Z) : length (range n) = Z.to_nat n.
Proof. unfold range. by rewrite length_map, length_seq. Qed.

Lemma length_pairs (xs ys : list Z) :
  length (xs ≫= (fun x => ys ≫= (fun y => [(x, y)])))
  = (length xs * length ys)%nat.
Proof.
  assert (forall x : Z, length (ys ≫= (fun y => [(x, y)])) = length ys) as Hrow.
  { intros x. induction ys as [|y ys IH]; [done |].
    rewrite bind_cons. cbn [length app]. by rewrite IH. }
  induction xs as [|x xs IH]; [done |].
  rewrite bind_cons, length_app, Hrow, IH. cbn [length]. lia.
Qed.

(** The scan visits the pixels of the image, each one once, column by
    column from the left and from the top down within a column; an image
    of negative width or height has no pixel to visit. *)
Theorem scan_is_column_major (sourceImage : QImage) :
  StronglySorted scannedBefore (scanOrder sourceImage)
  /\ NoDup (scanOrder sourceImage)
  /\ (forall x y : Z,
        (x, y) ∈ scanOrder sourceImage <->
        0 <= x < width sourceImage /\ 0 <= y < height sourceImage)
  /\ length (scanOrder sourceImage)
     = (Z.to_nat (width sourceImage) * Z.to_nat (height sourceImage))%nat.
Proof.
  assert (StronglySorted scannedBefore (scanOrder sourceImage)) as Hsorted.
  { unfold scanOrder.
    apply (sorted_bind Z.lt); [apply range_sorted | |].
    - intros x _. apply (sorted_bind Z.lt); [apply range_sorted | |].
      + intros y _. repeat constructor.
      + intros y1 y2 p q Hlt Hp Hq.
        apply list_elem_of_singleton in Hp as ->.
        apply list_elem_of_singleton in Hq as ->.
        right. by split.
    - intros x1 x2 p q Hlt Hp Hq.
      apply list_elem_of_bind in Hp as (y1 & Hp & _).
      apply list_elem_of_bind in Hq as (y2 & Hq & _).
      apply list_elem_of_singleton in Hp as ->.
      apply list_elem_of_singleton in Hq as ->.
      by left. }
  split; [exact Hsorted |]. split; [|split].
  - induction Hsorted as [|p l _ IH Hp]; constructor; [|done].
    intros Hin. rewrite Forall_forall in Hp. specialize (Hp p Hin).
    unfold scannedBefore in Hp. lia.
  - intros x y. apply elem_of_scanOrder.
  - unfold scanOrder.
    by rewrite length_pairs, !length_range.
Qed.

(** ** The centroid update *)

Lemma sumOf_bounds (channel : QRgb -> Z) (lo hi : Z) (cs : list QRgb) :
  Forall (fun c => lo <= channel c <= hi) cs ->
  lo * Z.of_nat (length cs) <= sumOf channel cs <= hi * Z.of_nat (length cs).
Proof.
  unfold sumOf. induction 1 as [|c cs Hc _ IH]; cbn [map foldr length]; lia.
Qed.

Lemma wrapInt_small (z : Z) :
  -2147483648 <= z < 2147483648 -> wrapInt z = z.
Proof. intros Hz. unfold wrapInt. rewrite Z.mod_small by lia. lia. Qed.

Lemma sumOf_nonneg (channel : QRgb -> Z) (cs : list QRgb) :
  (forall c, 0 <= channel c) -> 0 <= sumOf channel cs.
Proof.
  intros Hc. unfold sumOf.
  induction cs as [|c cs IH]; cbn [map foldr]; [lia |].
  specialize (Hc c). lia.
Qed.

(** As long as the sums stay within [int] the loop computes them. *)
Lemma sumChannels_sums (cs : list QRgb) : forall r g b c,
  0 <= r -> 0 <= g -> 0 <= b ->
  r + sumOf qRed cs < 2147483648 ->
  g + sumOf qGreen cs < 2147483648 ->
  b + sumOf qBlue cs < 2147483648 ->
  sumChannels (r, g, b, c) cs
  = (r + sumOf qRed cs, g + sumOf qGreen cs, b + sumOf qBlue cs,
     c + Z.of_nat (length cs)).
Proof.
  unfold sumChannels.
  induction cs as [|color cs IH]; intros r g b c Hr Hg Hb Hfr Hfg Hfb;
    cbn [fold_left length].
  { unfold sumOf. cbn [map foldr]. by rewrite !Z.add_0_r. }
  destruct (channels_range color) as (Hcr & Hcg & Hcb).
  pose proof (sumOf_nonneg qRed cs (fun c => proj1 (proj1 (channels_range c)))).
  pose proof (sumOf_nonneg qGreen cs
                (fun c => proj1 (proj1 (proj2 (channels_range c))))).
  pose proof (sumOf_nonneg qBlue cs
                (fun c => proj1 (proj2 (proj2 (channels_range c))))).
  change (sumOf qRed (color :: cs)) with (qRed color + sumOf qRed cs) in *.
  change (sumOf qGreen (color :: cs)) with (qGreen color + sumOf qGreen cs) in *.
  change (sumOf qBlue (color :: cs)) with (qBlue color + sumOf qBlue cs) in *.
  rewrite !wrapInt_small by lia.
  rewrite IH by lia. f_equal; [f_equal; [f_equal |] |]; lia.
Qed.

Lemma sumsFit_short (cs : list QRgb) :
  Z.of_nat (length cs) <= 8421504 -> sumsFit cs.
Proof.
  intros Hlen.
  assert (forall channel : QRgb -> Z,
             (forall c, 0 <= channel c <= 255) ->
             sumOf channel cs < 2147483648) as H.
  { intros channel Hc.
    assert (Forall (fun c => 0 <= channel c <= 255) cs) as Hall
      by (apply Forall_forall; intros c _; apply Hc).
    pose proof (sumOf_bounds channel 0 255 cs Hall). lia. }
  repeat split; apply H; intros c; apply channels_range.
Qed.

Lemma mean_bounds (lo hi total n : Z) :
  0 < n -> lo * n <= total <= hi * n -> lo <= total / n <= hi.
Proof.
  intros Hn [Hlo Hhi]. split.
  - apply Z.div_le_lower_bound; lia.
  - apply Z.div_le_upper_bound; lia.
Qed.

Lemma channel_mean (channel : QRgb -> Z) (cs : list QRgb) :
  (forall c, 0 <= channel c <= 255) -> cs <> [] ->
  Z.quot (sumOf channel cs) (Z.of_nat (length cs))
  = sumOf channel cs / Z.of_nat (length cs)
  /\ 0 <= sumOf channel cs / Z.of_nat (length cs) <= 255.
Proof.
  intros Hbyte Hcs.
  assert (0 < Z.of_nat (length cs)) as Hn by (destruct cs; cbn; [done | lia]).
  assert (Forall (fun c => 0 <= channel c <= 255) cs) as Hall
    by (apply Forall_forall; intros c _; apply Hbyte).
  pose proof (sumOf_bounds channel 0 255 cs Hall) as Hsum.
  split; [apply Z.quot_div_nonneg; lia |].
  apply mean_bounds; [done | lia].
Qed.

(** The centroid update of a cluster with members whose channel sums
    are within the range of [int] (as they are for up to 8421504
    members), for an image with
    samples: it is defined, each channel of the new centroid is the
    integer mean (rounded down) of that channel over the members, the new
    centroid is left as the only member, and the ratio is the member count
    over the sample count.  Each channel of the new centroid lies between
    the least and the greatest value of that channel among the members:
    the centroid stays inside the bounding box of its members. *)
Theorem centroid_is_channel_mean (samples : list QRgb) (stat : colorStat) :
  samples <> [] -> colors stat <> [] -> sumsFit (colors stat) ->
  exists stat',
    result (updateCentroid samples stat) = Some stat'
    /\ channels (centroid stat')
       = (sumOf qRed (colors stat) / Z.of_nat (length (colors stat)),
          sumOf qGreen (colors stat) / Z.of_nat (length (colors stat)),
          sumOf qBlue (colors stat) / Z.of_nat (length (colors stat)))
    /\ colors stat' = [centroid stat']
    /\ ratio stat'
       = (inject_Z (Z.of_nat (length (colors stat)))
          / inject_Z (Z.of_nat (length samples)))%Q
    /\ (forall (channel : QRgb -> Z) (lo hi : Z),
          channel = qRed \/ channel = qGreen \/ channel = qBlue ->
          Forall (fun c => lo <= channel c <= hi) (colors stat) ->
          lo <= channel (centroid stat') <= hi).
Proof.
  intros Hs Hc (Hfr & Hfg & Hfb).
  destruct (updateCentroid_defined samples stat Hs Hc) as [stat' Hstat'].
  exists stat'. split; [done |].
  destruct (updateCentroid_inv samples stat stat' Hstat') as [Hcolors Hratio].
  assert (0 < Z.of_nat (length (colors stat))) as Hn
    by (destruct (colors stat); cbn; [done | lia]).
  destruct (channel_mean qRed (colors stat)) as [Hqr Hr];
    [intros c; apply channels_range | done |].
  destruct (channel_mean qGreen (colors stat)) as [Hqg Hg];
    [intros c; apply channels_range | done |].
  destruct (channel_mean qBlue (colors stat)) as [Hqb Hb];
    [intros c; apply channels_range | done |].
  assert (channels (centroid stat')
          = (sumOf qRed (colors stat) / Z.of_nat (length (colors stat)),
             sumOf qGreen (colors stat) / Z.of_nat (length (colors stat)),
             sumOf qBlue (colors stat) / Z.of_nat (length (colors stat))))
    as Hmean.
  { revert Hstat'. unfold updateCentroid.
    rewrite sumChannels_sums, !Z.add_0_l by lia.
    unfold int_div, real_div, bind, ret, result.
    destruct (Z.eqb_spec (Z.of_nat (length (colors stat))) 0) as [E|_];
      [lia |].
    cbn [fst snd app].
    destruct (Qeq_bool _ 0); cbn [fst snd]; [discriminate |].
    intros [= <-]. cbn [centroid]. rewrite Hqr, Hqg, Hqb.
    by apply channels_qRgb. }
  split; [exact Hmean |]. split; [exact Hcolors |]. split; [exact Hratio |].
  intros channel lo hi Hchannel Hall.
  pose proof (sumOf_bounds channel lo hi (colors stat) Hall) as Hsum.
  unfold channels in Hmean. injection Hmean as Hred Hgreen Hblue.
  destruct Hchannel as [-> | [-> | ->]];
    [rewrite Hred | rewrite Hgreen | rewrite Hblue];
    by apply mean_bounds.
Qed.

(** A cluster of two members and an image of one sample: the new
    centroid is (10,20,30), the means 21/2, 41/2 and 61/2 rounded down. *)
Lemma centroid_is_channel_mean_witness :
  exists stat',
    result (updateCentroid [qRgb 10 10 10]
              {| colors := [qRgb 10 20 30; qRgb 11 21 31];
                 centroid := qRgb 10 20 30; ratio := 0%Q |})
      = Some stat'
    /\ channels (centroid stat') = (10, 20, 30)
    /\ (ratio stat' == 2)%Q.
Proof.
  destruct (centroid_is_channel_mean [qRgb 10 10 10]
              {| colors := [qRgb 10 20 30; qRgb 11 21 31];
                 centroid := qRgb 10 20 30; ratio := 0%Q |})
    as (stat' & Hres & Hmean & _ & Hratio & _);
    [done | done | apply sumsFit_short; cbn [colors length]; lia |].
  exists stat'. split; [exact Hres |]. split.
  - rewrite Hmean. vm_compute. reflexivity.
  - rewrite Hratio. vm_compute. reflexivity.
Defined.

Lemma sumOf_replicate (channel : QRgb -> Z) (c : QRgb) (n : nat) :
  sumOf channel (replicate n c) = channel c * Z.of_nat n.
Proof.
  unfold sumOf. induction n as [|n IH]; cbn [replicate map foldr]; lia.
Qed.

Lemma wrapInt_add (x y : Z) : wrapInt (wrapInt x + y) = wrapInt (x + y).
Proof.
  unfold wrapInt. f_equal.
  replace ((x + 2147483648) mod 4294967296 - 2147483648 + y + 2147483648)
    with ((x + 2147483648) mod 4294967296 + y) by lia.
  rewrite Zplus_mod_idemp_l. f_equal. lia.
Qed.

Lemma wrapInt_idem (x : Z) : wrapInt (wrapInt x) = wrapInt x.
Proof.
  pose proof (wrapInt_add x 0) as H. by rewrite !Z.add_0_r in H.
Qed.

(** The loop computes the sums modulo 2^32, in the range of [int]. *)
Lemma sumChannels_wrapped (cs : list QRgb) : forall r g b c,
  wrapInt r = r -> wrapInt g = g -> wrapInt b = b ->
  sumChannels (r, g, b, c) cs
  = (wrapInt (r + sumOf qRed cs), wrapInt (g + sumOf qGreen cs),
     wrapInt (b + sumOf qBlue cs), c + Z.of_nat (length cs)).
Proof.
  unfold sumChannels.
  induction cs as [|color cs IH]; intros r g b c Hr Hg Hb;
    cbn [fold_left length].
  { unfold sumOf. cbn [map foldr]. rewrite !Z.add_0_r, Hr, Hg, Hb.
    do 3 f_equal. }
  rewrite IH by apply wrapInt_idem.
  unfold sumOf. cbn [map foldr]. fold (sumOf qRed cs) (sumOf qGreen cs)
    (sumOf qBlue cs).
  rewrite !wrapInt_add, !Z.add_assoc. f_equal. lia.
Qed.

(** The centroid update of any cluster with a member, for an image with
    samples: each [int] sum is the channel sum reduced modulo 2^32 into
    the range of [int], the quotient by the member count is truncated
    toward zero, and [qRgb] keeps its low byte.  The channel is the
    integer mean as long as the sum is below 2^31; from 8421505 members
    of channel 255 on it is not. *)
Theorem centroid_of_wrapped_sums (samples : list QRgb) (stat : colorStat) :
  samples <> [] -> colors stat <> [] ->
  exists stat',
    result (updateCentroid samples stat) = Some stat'
    /\ centroid stat'
       = qRgb (Z.quot (wrapInt (sumOf qRed (colors stat)))
                 (Z.of_nat (length (colors stat))))
              (Z.quot (wrapInt (sumOf qGreen (colors stat)))
                 (Z.of_nat (length (colors stat))))
              (Z.quot (wrapInt (sumOf qBlue (colors stat)))
                 (Z.of_nat (length (colors stat))))
    /\ colors stat' = [centroid stat'].
Proof.
  intros Hs Hc.
  destruct (updateCentroid_defined samples stat Hs Hc) as [stat' Hstat'].
  exists stat'. split; [done |].
  destruct (updateCentroid_inv samples stat stat' Hstat') as [Hcolors _].
  split; [|exact Hcolors].
  assert (0 < Z.of_nat (length (colors stat))) as Hn
    by (destruct (colors stat); cbn; [done | lia]).
  revert Hstat'. unfold updateCentroid.
  rewrite sumChannels_wrapped, !Z.add_0_l by reflexivity.
  unfold int_div, real_div, bind, ret, result.
  destruct (Z.eqb_spec (Z.of_nat (length (colors stat))) 0) as [E|_];
    [lia |].
  cbn [fst snd app].
  destruct (Qeq_bool _ 0); cbn [fst snd]; [discriminate |].
  by intros [= <-].
Qed.

(** A cluster of 8601600 white members: each sum is 2193408000, which
    [int] holds as -2101559296; the quotient is -244 and the centroid
    (12,12,12). *)
Lemma centroid_of_wrapped_sums_witness :
  exists stat',
    result (updateCentroid [qRgb 255 255 255]
              (uniformCluster (qRgb 255 255 255) (Z.to_nat 8601600) 0%Q))
      = Some stat'
    /\ channels (centroid stat') = (12, 12, 12).
Proof.
  assert (colors (uniformCluster (qRgb 255 255 255) (Z.to_nat 8601600) 0%Q)
          <> []) as Hne.
  { unfold uniformCluster. cbn [colors]. intros H.
    apply (f_equal length) in H. rewrite length_replicate in H.
    cbn [length] in H. lia. }
  destruct (centroid_of_wrapped_sums [qRgb 255 255 255]
              (uniformCluster (qRgb 255 255 255) (Z.to_nat 8601600) 0%Q)
              ltac:(discriminate) Hne) as (stat' & Hres & Hcentroid & _).
  exists stat'. split; [exact Hres |].
  rewrite Hcentroid. unfold uniformCluster. cbn [colors].
  rewrite !sumOf_replicate, length_replicate, Z2Nat.id by lia.
  reflexivity.
Defined.

(** ** The shape of the compression *)

Lemma absorb_colors source dest dest' :
  result (absorb source dest) = Some dest' -> colors dest' = colors dest.
Proof. intros H. by apply absorb_inv in H as [H _]. Qed.

Lemma map_insert_same {A B} (f : A -> B) (l : list A) (j : nat) (x y : A) :
  l !! j = Some x -> f y = f x -> map f (<[j := y]> l) = map f l.
Proof.
  intros Hx Hf. change (map f) with (fmap (M := list) f).
  rewrite list_fmap_insert, Hf. apply list_insert_id.
  by rewrite list_lookup_fmap, Hx.
Qed.

(** What the sweep leaves: the member lists at their positions, and one
    position listed for deletion per division it performed; the listed
    positions fall and none of them is the first. *)
Lemma mergeLoop_shape smin : forall (n : nat) clusters itemsToDelete swept items,
  (n <= length clusters)%nat ->
  result (mergeLoop smin n clusters itemsToDelete) = Some (swept, items) ->
  map colors swept = map colors clusters
  /\ exists new,
       items = itemsToDelete ++ new
       /\ StronglySorted (fun a b => (b < a)%nat) new
       /\ Forall (fun d => (0 < d < n)%nat) new
       /\ length (trace (mergeLoop smin n clusters itemsToDelete)) = length new.
Proof.
  induction n as [|i IH]; intros cl ds0 swept ds Hn H.
  { cbn in H. injection H as <- <-. split; [done |]. exists [].
    rewrite app_nil_r. repeat split; constructor. }
  cbn [mergeLoop] in H |- *.
  destruct (cl !! i) as [source|] eqn:Hs; [|discriminate].
  destruct (list_find (withinThreshold smin source) (take i cl))
    as [[j dest]|] eqn:Hf.
  - rewrite result_bind in H. rewrite trace_bind, absorb_one_division.
    destruct (result (absorb source dest)) as [dest'|] eqn:Hab; [|discriminate].
    apply list_find_Some in Hf as (Hj & _ & _).
    apply lookup_take_Some in Hj as [Hj Hji].
    destruct (IH (<[j := dest']> cl) (ds0 ++ [i]) swept ds) as
      (Hcol & new & -> & Hsorted & Hlt & Htrace);
      [by rewrite length_insert; lia | done |].
    split.
    { rewrite Hcol. apply (map_insert_same colors cl j dest dest' Hj).
      by apply absorb_colors in Hab. }
    exists (i :: new). split; [by rewrite <- app_assoc |]. split.
    + constructor; [done |]. eapply Forall_impl; [exact Hlt |].
      intros d Hd. cbv beta in Hd. lia.
    + split.
      * constructor; [lia |]. eapply Forall_impl; [exact Hlt |].
        intros d Hd. cbv beta in Hd. lia.
      * cbn [app length]. by rewrite Htrace.
  - destruct (IH cl ds0 swept ds) as (Hcol & new & -> & Hsorted & Hlt & Htrace);
      [lia | done |].
    split; [done |]. exists new. split; [done |]. split; [done |].
    split; [|done].
    eapply Forall_impl; [exact Hlt |]. intros d Hd. cbv beta in Hd. lia.
Qed.

Lemma deleteListed_head (items : list nat) : forall clusters : list colorStat,
  Forall (fun d => (0 < d)%nat) items ->
  head (deleteListed clusters items) = head clusters.
Proof.
  unfold deleteListed.
  induction items as [|d ds IH]; intros cl Hpos; cbn [fold_left]; [done |].
  apply Forall_cons in Hpos as [Hd Hpos]. rewrite IH by done.
  destruct cl as [|x cl]; [done |]. destruct d as [|d]; [lia | done].
Qed.

(** Falling positions between [lo] and [n] are at most [n - lo] many. *)
Lemma falling_length (items : list nat) : forall lo n : nat,
  StronglySorted (fun a b => (b < a)%nat) items ->
  Forall (fun d => (lo <= d < n)%nat) items ->
  (length items <= n - lo)%nat.
Proof.
  induction items as [|a items IH]; intros lo n Hsorted Hall; cbn [length];
    [lia |].
  apply StronglySorted_inv in Hsorted as [Hsorted Ha].
  apply Forall_cons in Hall as [Han Hall].
  assert (length items <= a - lo)%nat; [|lia].
  apply IH; [done |].
  rewrite Forall_forall in Ha, Hall |- *. intros d Hd.
  specialize (Ha d Hd). specialize (Hall d Hd). cbv beta in Ha. lia.
Qed.

Lemma sorted_sublist {A} (R : A -> A -> Prop) (l1 l2 : list A) :
  l1 `sublist_of` l2 -> StronglySorted R l2 -> StronglySorted R l1.
Proof.
  induction 1 as [|x l1 l2 Hsub IH|x l1 l2 Hsub IH]; intros Hsorted; [done | |].
  - apply StronglySorted_inv in Hsorted as [Hsorted Hx].
    constructor; [by apply IH |].
    rewrite Forall_forall in Hx |- *. intros y Hy. apply Hx.
    by eapply elem_of_sublist.
  - apply StronglySorted_inv in Hsorted as [Hsorted _]. by apply IH.
Qed.

Lemma sorted_same_colors (l1 l2 : list colorStat) :
  map colors l1 = map colors l2 ->
  StronglySorted noFewerColors l1 -> StronglySorted noFewerColors l2.
Proof.
  revert l2. induction l1 as [|x l1 IH]; intros [|y l2] Heq Hsorted;
    try discriminate; [constructor |].
  cbn [map] in Heq. injection Heq as Hxy Heq.
  apply StronglySorted_inv in Hsorted as [Hsorted Hx].
  constructor; [by apply IH |].
  apply Forall_forall. intros z Hz.
  apply list_elem_of_lookup in Hz as [k Hk].
  assert (map colors l1 !! k = Some (colors z)) as Hk'.
  { rewrite Heq. change (map colors l2) with (colors <$> l2).
    by rewrite list_lookup_fmap, Hk. }
  change (map colors l1) with (colors <$> l1) in Hk'.
  rewrite list_lookup_fmap in Hk'.
  destruct (l1 !! k) as [w|] eqn:Hw; [|discriminate].
  cbn in Hk'. injection Hk' as Hwz.
  rewrite Forall_forall in Hx.
  specialize (Hx w (list_elem_of_lookup_2 _ _ _ Hw)).
  unfold noFewerColors in *. by rewrite <- Hxy, <- Hwz.
Qed.

Lemma mergeClusters_shape (s_minimumSquareDistance : Z)
    (clusters merged : list colorStat) :
  result (mergeClusters s_minimumSquareDistance clusters) = Some merged ->
  map colors merged `sublist_of` map colors clusters
  /\ (clusters <> [] -> merged <> [])
  /\ (length merged
      + length (trace (mergeClusters s_minimumSquareDistance clusters)))%nat
     = length clusters
  /\ (StronglySorted noFewerColors clusters ->
      StronglySorted noFewerColors merged).
Proof.
  unfold mergeClusters. rewrite result_bind, trace_bind.
  destruct (result (mergeLoop s_minimumSquareDistance (length clusters)
                      clusters [])) as [[swept items]|] eqn:Hl;
    [|discriminate].
  cbn [fst snd]. intros Herase. rewrite eraseItems_trace, app_nil_r.
  destruct (mergeLoop_shape _ _ _ _ _ _ (Nat.le_refl _) Hl)
    as (Hcol & new & Hitems & Hsorted & Hlt & Htrace).
  cbn [app] in Hitems. subst items.
  assert (length swept = length clusters) as Hlen
    by (by rewrite <- (length_map colors swept), Hcol, length_map).
  destruct (eraseItems_sublist _ _ _ Herase) as [Hsub Hcount].
  pose proof (falling_length new 1 (length clusters) Hsorted) as Hfew.
  split.
  { rewrite <- Hcol. by apply fmap_sublist. }
  split.
  { intros Hne ->. cbn [length] in Hcount.
    destruct clusters; [done |]. cbn [length] in *.
    specialize (Hfew ltac:(eapply Forall_impl; [exact Hlt |];
                           intros d Hd; cbv beta in Hd; lia)). lia. }
  split; [unfold trace in *; lia |].
  intros Hs. apply (sorted_sublist _ _ swept Hsub).
  by apply (sorted_same_colors clusters).
Qed.

(** The compression, whenever it completes: the clusters it returns keep
    their member lists and their relative order (only centroids and
    ratios of destinations change), a non-empty list stays non-empty,
    the number of clusters falls by one for each division the sweep
    performs, and a list in descending order of member count is still in
    that order afterwards.  When every erasure before the last closes
    its gap from the back, the clusters erased are the ones the sweep
    listed, and the first cluster, which the sweep never lists, is still
    the first. *)
Theorem compression_keeps_order_and_members (s_minimumSquareDistance : Z)
    (clusters merged : list colorStat) :
  result (mergeClusters s_minimumSquareDistance clusters) = Some merged ->
  map colors merged `sublist_of` map colors clusters
  /\ (clusters <> [] -> merged <> [])
  /\ (length merged
      + length (trace (mergeClusters s_minimumSquareDistance clusters)))%nat
     = length clusters
  /\ (StronglySorted noFewerColors clusters ->
      StronglySorted noFewerColors merged)
  /\ (forall swept items,
        result (mergeLoop s_minimumSquareDistance (length clusters) clusters [])
          = Some (swept, items) ->
        erasedFromBack (length swept) items ->
        merged = deleteListed swept items
        /\ head (map colors merged) = head (map colors clusters)).
Proof.
  intros Hm.
  destruct (mergeClusters_shape _ _ _ Hm) as (H1 & H2 & H3 & H4).
  split; [exact H1 |]. split; [exact H2 |]. split; [exact H3 |].
  split; [exact H4 |].
  intros swept items Hl Hback.
  pose proof (sweep_erased_as_listed _ _ _ _ Hl Hback) as Hlisted.
  rewrite Hm in Hlisted. injection Hlisted as ->.
  split; [reflexivity |].
  destruct (mergeLoop_shape _ _ _ _ _ _ (Nat.le_refl _) Hl)
    as (Hcol & new & Hitems & _ & Hlt & _).
  cbn [app] in Hitems. subst items.
  rewrite <- Hcol.
  assert (head (deleteListed swept new) = head swept) as Hhead.
  { apply deleteListed_head. eapply Forall_impl; [exact Hlt |].
    intros d Hd. cbv beta in Hd. lia. }
  revert Hhead.
  destruct (deleteListed swept new), swept; cbn [head map]; congruence.
Qed.

(** The pair [nearPair]: one division, one cluster left, with the three
    members of the first. *)
Lemma compression_keeps_order_and_members_witness :
  exists merged,
    result (mergeClusters thresholdExample nearPair) = Some merged
    /\ length merged = 1%nat
    /\ length (trace (mergeClusters thresholdExample nearPair)) = 1%nat
    /\ head (map colors merged)
       = Some [qRgb 10 10 10; qRgb 10 10 10; qRgb 10 10 10].
Proof.
  destruct (result (mergeClusters thresholdExample nearPair))
    as [merged|] eqn:Hm; [|vm_compute in Hm; discriminate].
  exists merged. split; [reflexivity |].
  destruct (compression_keeps_order_and_members thresholdExample nearPair
              merged Hm) as (_ & _ & Hlen & _ & Hlisted).
  assert (length merged = 1%nat) as H1
    by (vm_compute in Hm; injection Hm as <-; reflexivity).
  split; [exact H1 |]. split.
  - rewrite H1 in Hlen. cbn [nearPair length] in Hlen. lia.
  - destruct (result (mergeLoop thresholdExample (length nearPair) nearPair []))
      as [[swept items]|] eqn:Hl; [|vm_compute in Hl; discriminate].
    destruct (Hlisted swept items eq_refl) as [_ Hhead].
    + vm_compute in Hl. injection Hl as <- <-. exact I.
    + rewrite Hhead. reflexivity.
Defined.

(** ** The divisions of the compression *)

Lemma absorb_positive source dest dest' :
  (0 < ratio source)%Q -> (0 < ratio dest)%Q ->
  result (absorb source dest) = Some dest' -> (0 < ratio dest')%Q.
Proof.
  intros Hs Hd Hab. apply absorb_inv in Hab as [_ ->]. lra.
Qed.

Lemma mergeLoop_positive smin : forall (n : nat) clusters itemsToDelete,
  (n <= length clusters)%nat -> positiveRatios clusters ->
  Forall definedDivision (trace (mergeLoop smin n clusters itemsToDelete))
  /\ forall swept items,
       result (mergeLoop smin n clusters itemsToDelete) = Some (swept, items) ->
       positiveRatios swept.
Proof.
  unfold positiveRatios.
  induction n as [|i IH]; intros cl ds Hn Hpos; cbn [mergeLoop].
  { split; [constructor |]. by intros swept items [= <- <-]. }
  destruct (lookup_lt_is_Some_2 cl i) as [source Hs]; [lia |].
  rewrite Hs.
  destruct (list_find (withinThreshold smin source) (take i cl))
    as [[j dest]|] eqn:Hf.
  - apply list_find_Some in Hf as (Hj & _ & _).
    apply lookup_take_Some in Hj as [Hj _].
    pose proof Hpos as Hlookup. rewrite Forall_lookup in Hlookup.
    pose proof (Hlookup i source Hs) as Hsp.
    pose proof (Hlookup j dest Hj) as Hdp. cbv beta in Hsp, Hdp.
    rewrite trace_bind, result_bind, absorb_one_division.
    assert (definedDivision (RealDivision (ratio source) (ratio dest))) as Hdiv.
    { cbn. intros Hz. rewrite Hz in Hdp. by apply Qlt_irrefl in Hdp. }
    destruct (result (absorb source dest)) as [dest'|] eqn:Hab.
    + destruct (IH (<[j := dest']> cl) (ds ++ [i])) as [IHt IHr].
      * rewrite length_insert. lia.
      * apply Forall_insert; [done |].
        by apply (absorb_positive source dest).
      * split; [by constructor | exact IHr].
    + split; [by repeat constructor | discriminate].
  - apply IH; [lia | done].
Qed.

Lemma mergeClusters_positive smin (clusters : list colorStat) :
  positiveRatios clusters ->
  Forall definedDivision (trace (mergeClusters smin clusters))
  /\ forall merged,
       result (mergeClusters smin clusters) = Some merged ->
       positiveRatios merged.
Proof.
  intros Hpos. unfold mergeClusters. rewrite trace_bind, result_bind.
  destruct (mergeLoop_positive smin (length clusters) clusters []
              (Nat.le_refl _) Hpos) as [Ht Hr].
  destruct (result (mergeLoop smin (length clusters) clusters []))
    as [[swept items]|] eqn:Hl.
  - cbn [fst snd]. rewrite eraseItems_trace, app_nil_r.
    split; [exact Ht |]. intros merged Herase.
    apply eraseItems_sublist in Herase as [Hsub _].
    specialize (Hr swept items eq_refl). unfold positiveRatios in *.
    rewrite Forall_forall in Hr |- *. intros stat Hin.
    apply Hr. by eapply elem_of_sublist.
  - rewrite app_nil_r. split; [exact Ht | discriminate].
Qed.

(** The only division of the compression is by the ratio of a
    destination.  When every cluster that enters it has a positive
    ratio, no division of the compression has a zero divisor (a
    destination's ratio only grows), and whenever the compression
    returns clusters, they all have positive ratios. *)
Theorem compression_divides_by_positive_ratios (s_minimumSquareDistance : Z)
    (clusters : list colorStat) :
  positiveRatios clusters ->
  Forall definedDivision (trace (mergeClusters s_minimumSquareDistance clusters))
  /\ forall merged,
       result (mergeClusters s_minimumSquareDistance clusters) = Some merged ->
       positiveRatios merged.
Proof. apply mergeClusters_positive. Qed.

(** The pair [nearPair], ratios 1/2 and 1/4: one division, by 1/2; the
    survivor holds 3/4. *)
Lemma compression_divides_by_positive_ratios_witness :
  positiveRatios nearPair
  /\ trace (mergeClusters thresholdExample nearPair)
     = [RealDivision (1 # 4) (1 # 2)]
  /\ Forall definedDivision (trace (mergeClusters thresholdExample nearPair))
  /\ exists merged,
       result (mergeClusters thresholdExample nearPair) = Some merged
       /\ positiveRatios merged
       /\ map (fun stat => Qred (ratio stat)) merged = [(3 # 4)%Q].
Proof.
  assert (positiveRatios nearPair) as Hpos by (repeat constructor).
  split; [exact Hpos |]. split; [vm_compute; reflexivity |].
  destruct (compression_divides_by_positive_ratios thresholdExample nearPair
              Hpos) as [Ht Hr].
  split; [exact Ht |].
  destruct (result (mergeClusters thresholdExample nearPair))
    as [merged|] eqn:Hm; [|vm_compute in Hm; discriminate].
  exists merged. split; [reflexivity |]. split; [by apply Hr |].
  vm_compute in Hm. injection Hm as <-. reflexivity.
Defined.

(** Positive ratios do not by themselves give the compression a
    result.  The pair [steepPair]: the weight of the source is 1e9, the
    mixed red channel is 1e9 * 20 + (1 - 1e9) * 10, beyond the range of
    [int], and its conversion is undefined; the divisor of the one
    division is not zero. *)
Lemma positive_ratios_without_result :
  positiveRatios steepPair
  /\ trace (mergeClusters thresholdExample steepPair)
     = [RealDivision 1 (1 # 1000000000)]
  /\ result (mergeClusters thresholdExample steepPair) = None
  /\ failedMerge
       {| colors := [qRgb 20 10 10];
          centroid := qRgb 20 10 10; ratio := 1%Q |}
       {| colors := [qRgb 10 10 10; qRgb 10 10 10];
          centroid := qRgb 10 10 10; ratio := (1 # 1000000000)%Q |}.
Proof.
  split; [repeat constructor |].
  split; [vm_compute; reflexivity |].
  split; [vm_compute; reflexivity |].
  right. eexists _, qRed. split; [vm_compute; reflexivity |].
  split; [by left |]. vm_compute. reflexivity.
Qed.

(** ** The divisions of the extraction *)

Lemma updated_positive samples before updated :
  samples <> [] -> populated before ->
  Forall2 (updatedFrom samples) before updated ->
  positiveRatios updated.
Proof.
  intros Hs Hpop H. unfold positiveRatios.
  induction H as [|stat stat' cl upd [_ Hratio] _ IH]; [constructor |].
  apply Forall_cons in Hpop as [Hstat Hpop].
  constructor; [|by apply IH].
  rewrite Hratio. apply Qlt_shift_div_l.
  - replace 0%Q with (inject_Z 0) by reflexivity. rewrite <- Zlt_Qlt.
    destruct samples; [done |]. cbn [length]. lia.
  - rewrite Qmult_0_l. replace 0%Q with (inject_Z 0) by reflexivity.
    rewrite <- Zlt_Qlt. destruct (colors stat); [done |]. cbn [length]. lia.
Qed.

Lemma positiveRatios_ratios (clusters : list colorStat) :
  positiveRatios clusters <-> Forall (fun r => (0 < r)%Q) (map ratio clusters).
Proof. unfold positiveRatios. by rewrite Forall_fmap. Qed.

Lemma deriveColors_defined smin samples firstStat rest :
  exists imageData,
    result (deriveColors smin samples (firstStat :: rest)) = Some imageData.
Proof. unfold deriveColors, ret, result. cbn [snd]. eauto. Qed.

Lemma deriveColors_trace smin samples merged :
  trace (deriveColors smin samples merged) = [].
Proof. by destruct merged. Qed.

Lemma updateCentroid_trace samples stat :
  samples <> [] -> colors stat <> [] ->
  Forall definedDivision (trace (updateCentroid samples stat)).
Proof.
  intros Hs Hc. unfold updateCentroid.
  pose proof (sumChannels_count (colors stat) (0, 0, 0, 0)) as Hcount.
  destruct (sumChannels (0, 0, 0, 0) (colors stat)) as [[[r g] b] c].
  cbn [snd] in Hcount.
  assert (c <> 0) as Hc0 by (destruct (colors stat); cbn in *; [done | lia]).
  assert (~ (inject_Z (Z.of_nat (length samples)) == 0)%Q) as Hn.
  { unfold Qeq. cbn. destruct samples; cbn [length]; [done | lia]. }
  unfold int_div, real_div, bind, ret, trace.
  apply Z.eqb_neq in Hc0 as Hc0'. rewrite Hc0'.
  destruct (Qeq_bool _ 0); cbn [fst app]; by repeat constructor.
Qed.

Lemma updateAll_trace samples clusters :
  samples <> [] -> populated clusters ->
  Forall definedDivision (trace (mapM (updateCentroid samples) clusters)).
Proof.
  intros Hs. induction 1 as [|stat cl Hstat Hcl IH]; cbn [mapM].
  { constructor. }
  rewrite trace_bind. apply Forall_app. split.
  { by apply updateCentroid_trace. }
  destruct (result (updateCentroid samples stat)); [|constructor].
  rewrite trace_bind. apply Forall_app. split; [exact IH |].
  destruct (result (mapM _ cl)); constructor.
Qed.

Lemma refine_trace smin rd samples (k : nat) : forall clusters,
  samples <> [] -> populated clusters ->
  Forall definedDivision (trace (refine smin rd k samples clusters)).
Proof.
  induction k as [|k IH]; intros cl Hs Hpop; cbn [refine]; [constructor |].
  rewrite trace_bind. apply Forall_app. split.
  - unfold refineIteration. rewrite trace_bind. apply Forall_app.
    split; [by apply updateAll_trace |].
    destruct (result (mapM _ cl)); constructor.
  - rewrite refineIteration_result.
    destruct (result (mapM (updateCentroid samples) cl)) as [updated|] eqn:Hu;
      [|constructor].
    cbn [fmap option_fmap option_map]. apply IH; [done |].
    apply reassign_populated.
    by apply updateAll_inv, updated_members in Hu as (_ & Hp & _).
Qed.

(** No division of the extraction has a zero divisor whenever no cluster
    can reach the compression with a ratio that is not positive: when
    the default ratio of a new cluster is positive, or when the fifth
    assignment opens no new cluster (every cluster then holds the ratio
    the fifth centroid update gave it, a positive member count over the
    sample count).  Whenever the extraction then has a result, the
    palette has one entry per final cluster and every ratio in it is
    positive. *)
Theorem extraction_has_no_zero_divisor (smin : Z) (rd : Q) (sourceImage : QImage) :
  (0 < rd)%Q \/ settled smin rd sourceImage ->
  Forall definedDivision (trace (generatePalette smin rd sourceImage))
  /\ forall imageData,
       result (generatePalette smin rd sourceImage) = Some imageData ->
       length (m_palette imageData) = length (m_clusters imageData)
       /\ Forall (fun stat => (0 < ratio stat)%Q) (m_clusters imageData)
       /\ Forall (fun entry => (0 < entryRatio entry)%Q) (m_palette imageData).
Proof.
  intros Hyp. unfold generatePalette, settled in *.
  destruct (isNull sourceImage || (width sourceImage =? 0)).
  { split; [constructor |]. intros d [= <-]. repeat split; constructor. }
  destruct (collectSamples_spec smin rd sourceImage) as (Hs & Hm & Hp).
  destruct (collectSamples smin rd sourceImage) as [samples clusters].
  cbn [fst snd] in *. rewrite <- Hs in Hm. clear Hs.
  destruct (decide (samples = [])) as [-> | Hne].
  { rewrite (members_nil clusters Hm Hp).
    split; [constructor |]. intros d [= <-]. repeat split; constructor. }
  destruct (refine_defined smin rd 4 samples clusters Hne Hp)
    as (before & Hbefore & Hpb).
  destruct (updateAll_defined samples before Hne Hpb) as [updated Hupd].
  pose proof (updateAll_inv _ _ _ Hupd) as Hinv.
  assert (result (refine smin rd 5 samples clusters)
          = Some (reassign smin rd samples updated)) as Hrefined.
  { by rewrite refine_snoc, result_bind, Hbefore, refineIteration_result, Hupd. }
  remember (reassign smin rd samples updated) as refined eqn:Heq.
  assert (positiveRatios refined) as Hpos.
  { apply positiveRatios_ratios.
    destruct (reassign_ratios smin rd samples updated) as [n Hn].
    rewrite <- Heq in Hn. rewrite Hn. apply Forall_app. split.
    - apply positiveRatios_ratios. by apply (updated_positive samples before).
    - destruct Hyp as [Hrd | (before' & refined' & Hb' & Hr' & Hlen)].
      + by apply Forall_replicate.
      + rewrite Hbefore in Hb'. rewrite Hrefined in Hr'.
        injection Hb' as <-. injection Hr' as <-.
        apply (f_equal length) in Hn.
        rewrite length_app, !length_map, length_replicate, Hlen in Hn.
        apply Forall2_length in Hinv.
        assert (n = 0%nat) as -> by lia. constructor. }
  destruct (sort_fold refined [] (SSorted_nil _)) as [_ Hperm].
  fold (std_sort refined) in Hperm. cbn [app] in Hperm.
  assert (positiveRatios (std_sort refined)) as Hsorted.
  { unfold positiveRatios. by rewrite Hperm. }
  destruct (mergeClusters_positive smin _ Hsorted) as [Hmt Hmr].
  assert (trace (mergedClusters smin rd samples clusters)
          = trace (refine smin rd 5 samples clusters)
            ++ trace (mergeClusters smin (std_sort refined))) as Htrace.
  { unfold mergedClusters, sortedClusters, refinedClusters.
    rewrite !trace_bind, !result_bind, Hrefined.
    cbn [trace result ret fst snd]. by rewrite app_nil_r. }
  assert (result (mergedClusters smin rd samples clusters)
          = result (mergeClusters smin (std_sort refined))) as Hmc.
  { unfold mergedClusters, sortedClusters, refinedClusters.
    rewrite !result_bind, Hrefined. reflexivity. }
  destruct samples as [|rgb samples]; [done |].
  rewrite trace_bind, result_bind, Hmc, Htrace. split.
  - apply Forall_app. split.
    + apply Forall_app. split; [by apply refine_trace | exact Hmt].
    + destruct (result (mergeClusters smin (std_sort refined)));
        [rewrite deriveColors_trace |]; constructor.
  - intros imageData Hd.
    destruct (result (mergeClusters smin (std_sort refined)))
      as [merged|] eqn:Hmerged; [|discriminate].
    specialize (Hmr merged eq_refl).
    apply deriveColors_inv in Hd as (f & r & _ & _ & Hcl & _ & Hpal & _).
    rewrite Hpal, Hcl, length_map. split; [done |]. split; [exact Hmr |].
    apply Forall_fmap. exact Hmr.
Qed.

(** The image [threeGroups] with a default ratio of zero: the fifth
    assignment opens no cluster, and the palette has two entries. *)
Lemma extraction_has_no_zero_divisor_witness :
  settled thresholdExample ratioExample threeGroups
  /\ Forall definedDivision
       (trace (generatePalette thresholdExample ratioExample threeGroups))
  /\ exists imageData,
       result (generatePalette thresholdExample ratioExample threeGroups)
         = Some imageData
       /\ length (m_palette imageData) = 2%nat
       /\ Forall (fun entry => (0 < entryRatio entry)%Q) (m_palette imageData).
Proof.
  assert (settled thresholdExample ratioExample threeGroups) as Hsettled.
  { eexists _, _. split; [vm_compute; reflexivity |].
    split; [vm_compute; reflexivity | reflexivity]. }
  split; [exact Hsettled |].
  destruct (extraction_has_no_zero_divisor thresholdExample ratioExample
              threeGroups (or_intror Hsettled)) as [Ht Hr].
  split; [exact Ht |].
  destruct (result (generatePalette thresholdExample ratioExample threeGroups))
    as [imageData|] eqn:Hres; [|vm_compute in Hres; discriminate].
  exists imageData. split; [reflexivity |].
  destruct (Hr imageData eq_refl) as (_ & _ & Hpos).
  split; [|exact Hpos].
  vm_compute in Hres. injection Hres as <-. reflexivity.
Defined.

(** ** Selection loops *)

(** A loop that replaces what it holds by the current element whenever
    the element's key is strictly greater: it ends with what it started
    with, no key exceeding the initial one, or with the first element of
    the greatest key. *)
Lemma first_greatest_fold {A B} (key : B -> Z) (keyOf : A -> Z) (inj : A -> B)
    (step : B -> A -> B) :
  (forall x, key (inj x) = keyOf x) ->
  (forall acc x, step acc x = if key acc <? keyOf x then inj x else acc) ->
  forall (l : list A) (acc : B),
    (fold_left step l acc = acc
     /\ Forall (fun x => keyOf x <= key acc) l)
    \/ (exists (i : nat) x,
          l !! i = Some x
          /\ fold_left step l acc = inj x
          /\ key acc < keyOf x
          /\ Forall (fun other => keyOf other <= keyOf x) l
          /\ forall (j : nat) other,
               (j < i)%nat -> l !! j = Some other -> keyOf other < keyOf x).
Proof.
  intros Hkey Hstep.
  induction l as [|x l IH]; intros acc; cbn [fold_left].
  { left. split; [done | constructor]. }
  rewrite Hstep.
  destruct (Z.ltb_spec (key acc) (keyOf x)) as [Hlt|Hge].
  - destruct (IH (inj x)) as [[Hf Hall] | (i & y & Hi & Hf & Hs & Hall & Hfirst)];
      rewrite Hkey in *.
    + right. exists 0%nat, x. repeat split; try done.
      * by constructor.
      * intros j other Hj. lia.
    + right. exists (S i), y. repeat split; try done.
      * lia.
      * constructor; [lia | done].
      * intros [|j] other Hj Hother.
        -- injection Hother as <-. done.
        -- apply (Hfirst j); [lia | done].
  - destruct (IH acc) as [[Hf Hall] | (i & y & Hi & Hf & Hs & Hall & Hfirst)].
    + left. split; [done |]. by constructor.
    + right. exists (S i), y. repeat split; try done.
      * constructor; [lia | done].
      * intros [|j] other Hj Hother.
        -- injection Hother as <-. lia.
        -- apply (Hfirst j); [lia | done].
Qed.

Lemma squareDistance_below_sentinel (a b : QRgb) : squareDistance a b < 4681800.
Proof.
  rewrite squareDistance_branch.
  destruct (channels_range a) as (Hra & Hga & Hba).
  destruct (channels_range b) as (Hrb & Hgb & Hbb).
  destruct (square_bound (qRed a - qRed b)) as [Hr _]; [lia |].
  destruct (square_bound (qGreen a - qGreen b)) as [Hg _]; [lia |].
  destruct (square_bound (qBlue a - qBlue b)) as [Hb _]; [lia |].
  rewrite !Z.pow_2_r. destruct (128 <=? qRed a - qRed b); lia.
Qed.

(** ** The nearest centroid *)

Lemma nearestCentroid_spec (contrast : QColor) (firstStat : colorStat)
    (rest : list colorStat) :
  exists (i : nat) stat,
    firstNearest contrast (firstStat :: rest) i stat
    /\ nearestCentroid contrast (firstStat :: rest) = fromQRgb (centroid stat).
Proof.
  unfold nearestCentroid.
  match goal with
  | |- context [fold_left ?step _ _] =>
      assert (forall (acc : QColor * Z) stat,
                step acc stat
                = if - acc.2 <? - distanceFrom contrast stat
                  then (fromQRgb (centroid stat), distanceFrom contrast stat)
                  else acc) as Hstep;
      [|destruct (first_greatest_fold
                    (fun acc : QColor * Z => - acc.2)
                    (fun stat => - distanceFrom contrast stat)
                    (fun stat =>
                       (fromQRgb (centroid stat), distanceFrom contrast stat))
                    step (fun stat => eq_refl) Hstep
                    (firstStat :: rest) (Invalid, 4681800))
         as [[_ Hall] | (i & stat & Hi & Hf & _ & Hall & Hfirst)]]
  end.
  - intros [t m] stat. cbv zeta. fold (distanceFrom contrast stat). cbn [snd].
    destruct (Z.ltb_spec (distanceFrom contrast stat) m),
      (Z.ltb_spec (- m) (- distanceFrom contrast stat)); try done; lia.
  - apply Forall_cons in Hall as [Hfar _]. cbn [snd] in Hfar.
    pose proof (squareDistance_below_sentinel (rgb contrast) (centroid firstStat)).
    unfold distanceFrom in Hfar. lia.
  - exists i, stat. split; [|by rewrite Hf].
    split; [exact Hi |]. split.
    + eapply Forall_impl; [exact Hall |]. intros other Hle. cbv beta in Hle. lia.
    + intros j other Hj Hother. specialize (Hfirst j other Hj Hother). lia.
Qed.

(** The inner loop of the derivation, on a list with at least one
    cluster: it returns the colour of a centroid, never the invalid
    colour it starts from, because every distance is below the sentinel
    4681800; the cluster is one at the least distance from [contrast],
    and the first such in list order. *)
Theorem nearest_centroid_is_first_nearest (contrast : QColor)
    (firstStat : colorStat) (rest : list colorStat) :
  exists (i : nat) stat,
    firstNearest contrast (firstStat :: rest) i stat
    /\ nearestCentroid contrast (firstStat :: rest) = fromQRgb (centroid stat)
    /\ nearestCentroid contrast (firstStat :: rest) <> Invalid.
Proof.
  destruct (nearestCentroid_spec contrast firstStat rest)
    as (i & stat & Hnear & Heq).
  exists i, stat. split; [exact Hnear |]. split; [exact Heq |].
  by rewrite Heq.
Qed.

(** ** Contrast colours of a larger palette *)

Lemma rgb_fromQRgb (c : QRgb) :
  rgb (fromQRgb c) = qRgb (qRed c) (qGreen c) (qBlue c).
Proof.
  destruct (channels_range c) as (Hr & Hg & Hb).
  unfold rgb, red, green, blue, fromQRgb, rgb16.
  by rewrite !shiftr_257.
Qed.

Lemma channels_fromQRgb (c : QRgb) : channels (rgb (fromQRgb c)) = channels c.
Proof.
  destruct (channels_range c) as (Hr & Hg & Hb).
  rewrite rgb_fromQRgb. by apply channels_qRgb.
Qed.

Lemma squareDistance_channels (a b b' : QRgb) :
  channels b = channels b' -> squareDistance a b = squareDistance a b'.
Proof.
  unfold channels. intros [= Hr Hg Hb].
  by rewrite !squareDistance_branch, Hr, Hg, Hb.
Qed.

Lemma Qlt_bool_threshold (d smin : Z) :
  Qlt_bool (inject_Z d) (inject_Z smin * (3 # 2))%Q = (2 * d <? 3 * smin).
Proof.
  unfold Qlt_bool.
  destruct (Qle_bool (inject_Z smin * (3 # 2)) (inject_Z d)) eqn:E;
    cbn [negb]; symmetry.
  - apply Qle_bool_iff in E. unfold Qle in E. cbn in E.
    apply Z.ltb_ge. lia.
  - apply Z.ltb_lt. destruct (Z.lt_ge_cases (2 * d) (3 * smin)) as [|Hge];
      [done |].
    assert (Qle_bool (inject_Z smin * (3 # 2)) (inject_Z d) = true) as E'
      by (apply Qle_bool_iff; unfold Qle; cbn; lia).
    congruence.
Qed.

Lemma nudgeLightness_out_of_range (c : QColor) :
  lightness c < 20 \/ 235 < lightness c -> nudgeLightness c = Invalid.
Proof.
  intros Hl. unfold nudgeLightness, setHsl.
  destruct (Z.ltb_spec 128 (lightness c)) as [Hhigh|Hlow].
  - assert ((255 <? lightness c + 20) = true) as -> by (apply Z.ltb_lt; lia).
    by rewrite !orb_true_r.
  - assert ((lightness c - 20 <? 0) = true) as -> by (apply Z.ltb_lt; lia).
    by rewrite !orb_true_r.
Qed.

(** With three or more final clusters the contrast colour of an entry
    comes from the cluster nearest to the inverted colour of the entry
    (the first one at the least distance): it is that cluster's colour
    when the distance is below one and a half times the threshold, and
    otherwise that colour with its lightness moved by 20, away from 128.
    The move leaves the range of [setHsl] when the lightness is below 20
    or above 235, and the contrast colour is then the invalid colour. *)
Theorem large_palette_contrast (s_minimumSquareDistance : Z)
    (ratio_default : Q) (sourceImage : QImage) (imageData : ImageData) :
  result (generatePalette s_minimumSquareDistance ratio_default sourceImage)
    = Some imageData ->
  (3 <= length (m_clusters imageData))%nat ->
  Forall
    (fun entry =>
       exists (i : nat) stat,
         firstNearest (invertedColor (color entry)) (m_clusters imageData) i stat
         /\ contrastColor entry
            = (if 2 * distanceFrom (invertedColor (color entry)) stat
                  <? 3 * s_minimumSquareDistance
               then fromQRgb (centroid stat)
               else nudgeLightness (fromQRgb (centroid stat)))
         /\ (3 * s_minimumSquareDistance
             <= 2 * distanceFrom (invertedColor (color entry)) stat ->
             lightness (fromQRgb (centroid stat)) < 20
             \/ 235 < lightness (fromQRgb (centroid stat)) ->
             contrastColor entry = Invalid))
    (m_palette imageData).
Proof.
  intros Hres Hlen.
  apply generatePalette_inv in Hres
    as [-> | (samples & clusters & merged & _ & _ & _ & Hd)].
  { cbn in Hlen. lia. }
  apply deriveColors_inv in Hd as (firstStat & rest & Hm & _ & Hcl & _ & Hpal & _).
  rewrite Hpal. apply Forall_fmap, Forall_forall. intros entryStat _.
  cbn [contrastColor color paletteEntryOf compose].
  set (entryColor := fromQRgb (centroid entryStat)).
  assert (exists (i : nat) stat,
            firstNearest (invertedColor entryColor) (m_clusters imageData) i stat
            /\ contrastFor s_minimumSquareDistance imageData entryColor
               = (if 2 * distanceFrom (invertedColor entryColor) stat
                     <? 3 * s_minimumSquareDistance
                  then fromQRgb (centroid stat)
                  else nudgeLightness (fromQRgb (centroid stat))))
    as (i & stat & Hnear & Hcontrast).
  { unfold contrastFor. cbv zeta. fold (invertedColor entryColor).
    apply Nat.ltb_ge in Hlen. rewrite Hlen. rewrite Hcl, Hm.
    destruct (nearestCentroid_spec (invertedColor entryColor) firstStat rest)
      as (i & stat & Hnear & Heq).
    exists i, stat. split; [exact Hnear |].
    rewrite Heq, Qlt_bool_threshold.
    rewrite (squareDistance_channels _ (rgb (fromQRgb (centroid stat)))
               (centroid stat) (channels_fromQRgb _)).
    reflexivity. }
  exists i, stat. split; [exact Hnear |]. split; [exact Hcontrast |].
  intros Hfar Hlight. rewrite Hcontrast.
  apply Z.ltb_ge in Hfar. rewrite Hfar.
  by apply nudgeLightness_out_of_range.
Qed.

(** The image [lateCluster]: three final clusters; the entry of the first
    has the cluster (0,0,13) nearest to its inverted colour, too far and
    of lightness 6, and its contrast colour is invalid. *)
Lemma large_palette_contrast_witness :
  exists imageData,
    result (generatePalette thresholdExample ratioExample lateCluster)
      = Some imageData
    /\ length (m_clusters imageData) = 3%nat
    /\ head (map contrastColor (m_palette imageData)) = Some Invalid
    /\ Forall
         (fun entry =>
            exists (i : nat) stat,
              firstNearest (invertedColor (color entry))
                (m_clusters imageData) i stat
              /\ contrastColor entry
                 = (if 2 * distanceFrom (invertedColor (color entry)) stat
                       <? 3 * thresholdExample
                    then fromQRgb (centroid stat)
                    else nudgeLightness (fromQRgb (centroid stat))))
         (m_palette imageData).
Proof.
  destruct (result (generatePalette thresholdExample ratioExample lateCluster))
    as [imageData|] eqn:Hres; [|vm_compute in Hres; discriminate].
  exists imageData. split; [reflexivity |].
  assert (length (m_clusters imageData) = 3%nat) as Hlen
    by (vm_compute in Hres; injection Hres as <-; reflexivity).
  split; [exact Hlen |]. split.
  { vm_compute in Hres. injection Hres as <-. reflexivity. }
  assert (3 <= length (m_clusters imageData))%nat as Hge by lia.
  eapply Forall_impl;
    [exact (large_palette_contrast thresholdExample ratioExample lateCluster
              imageData Hres Hge) |].
  intros entry (i & stat & Hnear & Hcontrast & _).
  exists i, stat. split; [exact Hnear | exact Hcontrast].
Defined.

(** ** The derived colours *)

Lemma paletteStep_more_fields smin imageData first stat :
  let next := paletteStep smin (imageData, first) stat in
  next.2 = false
  /\ m_closestToBlack next.1 = darker (m_closestToBlack imageData) stat
  /\ m_closestToWhite next.1 = brighter (m_closestToWhite imageData) stat
  /\ m_suggestedContrast next.1
     = (if first
        then contrastFor smin imageData (fromQRgb (centroid stat))
        else m_suggestedContrast imageData).
Proof. repeat split. Qed.

Lemma paletteFold_more smin clusters : forall st,
  let final := (fold_left (paletteStep smin) clusters st).1 in
  m_closestToBlack final = fold_left darker clusters (m_closestToBlack st.1)
  /\ m_closestToWhite final = fold_left brighter clusters (m_closestToWhite st.1)
  /\ m_suggestedContrast final
     = match clusters with
       | [] => m_suggestedContrast st.1
       | stat :: _ =>
           if st.2 then contrastFor smin st.1 (fromQRgb (centroid stat))
           else m_suggestedContrast st.1
       end.
Proof.
  induction clusters as [|stat cl IH]; intros [d first]; cbn [fold_left].
  { done. }
  destruct (IH (paletteStep smin (d, first) stat)) as (H1 & H2 & H3).
  destruct (paletteStep_more_fields smin d first stat) as (F0 & F1 & F2 & F3).
  cbv zeta in *. cbn [fst snd] in *.
  rewrite H1, H2, H3, F0, F1, F2, F3.
  split; [done |]. split; [done |]. by destruct cl.
Qed.

Lemma deriveColors_more smin samples merged imageData :
  result (deriveColors smin samples merged) = Some imageData ->
  m_closestToBlack imageData = fold_left darker merged white
  /\ m_closestToWhite imageData = fold_left brighter merged black
  /\ exists firstStat rest,
       merged = firstStat :: rest
       /\ m_suggestedContrast imageData
          = contrastFor smin imageData (fromQRgb (centroid firstStat)).
Proof.
  intros Hres.
  destruct (deriveColors_inv smin samples merged imageData Hres)
    as (firstStat & rest & Hm & _ & Hcl & Hdom & _).
  revert Hres. unfold deriveColors. rewrite Hm.
  unfold ret, result. cbn [snd].
  match goal with
  | |- context [fold_left _ ?cl ?st] =>
      destruct (paletteFold_more smin cl st) as (H1 & H2 & H3)
  end.
  intros Heq. apply (inj Some) in Heq.
  cbv zeta in *. cbn [fst snd m_closestToBlack m_closestToWhite] in H1, H2, H3.
  rewrite Heq in H1, H2, H3.
  split; [exact H1 |]. split; [exact H2 |].
  exists firstStat, rest. split; [done |]. rewrite H3.
  apply contrastFor_cong; cbn [m_clusters m_dominant]; by rewrite ?Hcl, ?Hdom, ?Hm.
Qed.

Lemma qGray_channels (a b : QRgb) : channels a = channels b -> qGray a = qGray b.
Proof. unfold channels, qGray. by intros [= -> -> ->]. Qed.

Lemma greyOf_centroid (stat : colorStat) :
  greyOf stat = qGray (centroid stat) /\ 0 <= greyOf stat <= 255.
Proof.
  unfold greyOf. rewrite (qGray_channels _ _ (channels_fromQRgb (centroid stat))).
  split; [done |]. unfold qGray.
  destruct (channels_range (centroid stat)) as (Hr & Hg & Hb).
  rewrite Z.quot_div_nonneg by lia. split.
  - apply Z.div_pos; lia.
  - apply Z.div_le_upper_bound; lia.
Qed.

Lemma brighter_fold (clusters : list colorStat) (acc : QColor) :
  (fold_left brighter clusters acc = acc
   /\ Forall (fun stat => greyOf stat <= qGray (rgb acc)) clusters)
  \/ (exists (i : nat) stat,
        firstBrightest clusters i stat
        /\ fold_left brighter clusters acc = fromQRgb (centroid stat)
        /\ qGray (rgb acc) < greyOf stat).
Proof.
  destruct (first_greatest_fold (fun c => qGray (rgb c)) greyOf
              (fun stat => fromQRgb (centroid stat)) brighter
              (fun stat => eq_refl) (fun acc stat => eq_refl) clusters acc)
    as [H | (i & stat & Hi & Hf & Hlt & Hall & Hfirst)]; [by left | right].
  exists i, stat. split; [by split | by split].
Qed.

Lemma darker_fold (clusters : list colorStat) (acc : QColor) :
  (fold_left darker clusters acc = acc
   /\ Forall (fun stat => qGray (rgb acc) <= greyOf stat) clusters)
  \/ (exists (i : nat) stat,
        firstDarkest clusters i stat
        /\ fold_left darker clusters acc = fromQRgb (centroid stat)
        /\ greyOf stat < qGray (rgb acc)).
Proof.
  destruct (first_greatest_fold (fun c => - qGray (rgb c))
              (fun stat => - greyOf stat)
              (fun stat => fromQRgb (centroid stat)) darker
              (fun stat => eq_refl)) with (l := clusters) (acc := acc)
    as [[Hf Hall] | (i & stat & Hi & Hf & Hlt & Hall & Hfirst)].
  - intros c stat. unfold darker.
    destruct (Z.ltb_spec (greyOf stat) (qGray (rgb c))),
      (Z.ltb_spec (- qGray (rgb c)) (- greyOf stat)); try done; lia.
  - left. split; [done |]. eapply Forall_impl; [exact Hall |].
    intros stat Hle. cbv beta in Hle. lia.
  - right. exists i, stat. split; [|split; [done | lia]].
    split; [done |]. split.
    + eapply Forall_impl; [exact Hall |]. intros o Hle. cbv beta in Hle. lia.
    + intros j o Hj Ho. specialize (Hfirst j o Hj Ho). lia.
Qed.

(** [m_closestToWhite] and [m_closestToBlack] of a result with a
    palette.  The grey value compared is [qGray] of the centroid, between
    0 and 255.  The loop starts [m_closestToWhite] from [Qt::black], of
    grey value 0, and replaces it on a strictly greater grey value: it
    ends as the colour of the first cluster of the greatest grey value,
    unless every cluster has grey value 0, and then it is still
    [Qt::black].  [m_closestToBlack] starts from [Qt::white] and ends as
    the colour of the first cluster of the least grey value, unless every
    cluster has grey value 255. *)
Theorem grey_extremes (s_minimumSquareDistance : Z) (ratio_default : Q)
    (sourceImage : QImage) (imageData : ImageData) :
  result (generatePalette s_minimumSquareDistance ratio_default sourceImage)
    = Some imageData ->
  m_palette imageData <> [] ->
  Forall (fun stat => greyOf stat = qGray (centroid stat)
                      /\ 0 <= greyOf stat <= 255) (m_clusters imageData)
  /\ ((m_closestToWhite imageData = black
       /\ Forall (fun stat => greyOf stat = 0) (m_clusters imageData))
      \/ (exists (i : nat) stat,
            firstBrightest (m_clusters imageData) i stat
            /\ m_closestToWhite imageData = fromQRgb (centroid stat)
            /\ 0 < greyOf stat))
  /\ ((m_closestToBlack imageData = white
       /\ Forall (fun stat => greyOf stat = 255) (m_clusters imageData))
      \/ (exists (i : nat) stat,
            firstDarkest (m_clusters imageData) i stat
            /\ m_closestToBlack imageData = fromQRgb (centroid stat)
            /\ greyOf stat < 255)).
Proof.
  intros Hres Hne.
  apply generatePalette_inv in Hres
    as [-> | (samples & clusters & merged & _ & _ & _ & Hd)]; [done |].
  destruct (deriveColors_more _ _ _ _ Hd) as (Hblack & Hwhite & _).
  apply deriveColors_inv in Hd as (firstStat & rest & _ & _ & Hcl & _).
  rewrite Hcl, Hblack, Hwhite.
  assert (Forall (fun stat => greyOf stat = qGray (centroid stat)
                              /\ 0 <= greyOf stat <= 255) merged) as Hgrey
    by (apply Forall_forall; intros stat _; apply greyOf_centroid).
  split; [exact Hgrey |]. split.
  - destruct (brighter_fold merged black) as [[Hf Hall] | H]; [left | by right].
    split; [exact Hf |].
    change (qGray (rgb black)) with 0 in Hall.
    rewrite Forall_forall in Hall, Hgrey |- *. intros stat Hin.
    specialize (Hall stat Hin). specialize (Hgrey stat Hin). lia.
  - destruct (darker_fold merged white) as [[Hf Hall] | H]; [left | by right].
    split; [exact Hf |].
    change (qGray (rgb white)) with 255 in Hall.
    rewrite Forall_forall in Hall, Hgrey |- *. intros stat Hin.
    specialize (Hall stat Hin). specialize (Hgrey stat Hin). lia.
Qed.

(** The image [threeGroups]: the palette is (255,40,93), (0,40,37); the
    first has the greater grey value, the second the lesser. *)
Lemma grey_extremes_witness :
  exists imageData,
    result (generatePalette thresholdExample ratioExample threeGroups)
      = Some imageData
    /\ m_palette imageData <> []
    /\ (exists stat,
          firstBrightest (m_clusters imageData) 0 stat
          /\ m_closestToWhite imageData = fromQRgb (centroid stat))
    /\ (exists stat,
          firstDarkest (m_clusters imageData) 1 stat
          /\ m_closestToBlack imageData = fromQRgb (centroid stat)).
Proof.
  destruct (result (generatePalette thresholdExample ratioExample threeGroups))
    as [imageData|] eqn:Hres; [|vm_compute in Hres; discriminate].
  exists imageData. split; [reflexivity |].
  assert (m_palette imageData <> []) as Hne
    by (vm_compute in Hres; injection Hres as <-; discriminate).
  split; [exact Hne |].
  destruct (grey_extremes thresholdExample ratioExample threeGroups imageData
              Hres Hne) as (_ & Hwhite & Hblack).
  vm_compute in Hres. injection Hres as <-. split.
  - destruct Hwhite as [[Hw _] | (i & stat & Hb & Hw & _)];
      [vm_compute in Hw; discriminate |].
    destruct i as [|[|i]].
    + by exists stat.
    + destruct Hb as (Hi & _). cbn in Hi. injection Hi as <-.
      vm_compute in Hw. discriminate.
    + destruct Hb as (Hi & _). cbn in Hi. discriminate.
  - destruct Hblack as [[Hk _] | (i & stat & Hb & Hk & _)];
      [vm_compute in Hk; discriminate |].
    destruct i as [|[|i]].
    + destruct Hb as (Hi & _). cbn in Hi. injection Hi as <-.
      vm_compute in Hk. discriminate.
    + by exists stat.
    + destruct Hb as (Hi & _). cbn in Hi. discriminate.
Defined.

(** ** The palette and its clusters *)

Lemma mergedClusters_order smin rd samples clusters merged :
  result (mergedClusters smin rd samples clusters) = Some merged ->
  exists sorted,
    result (sortedClusters smin rd samples clusters) = Some sorted
    /\ map colors merged `sublist_of` map colors sorted
    /\ StronglySorted noFewerColors merged.
Proof.
  unfold mergedClusters, sortedClusters. rewrite !result_bind.
  destruct (result (refinedClusters smin rd samples clusters))
    as [refined|]; [|discriminate].
  cbn [result ret snd]. intros Hm. exists (std_sort refined).
  destruct (mergeClusters_shape smin _ merged Hm) as (Hsub & _ & _ & Hsorted).
  split; [done |]. split; [done |]. apply Hsorted.
  by destruct (sort_fold refined [] (SSorted_nil _)) as [H _].
Qed.

Lemma mergedClusters_sorted smin rd samples clusters merged :
  result (mergedClusters smin rd samples clusters) = Some merged ->
  StronglySorted noFewerColors merged.
Proof.
  intros Hm. by destruct (mergedClusters_order _ _ _ _ _ Hm) as (_ & _ & _ & H).
Qed.

(** C6, as the code has it: the sort stage is [std::sort] with the
    comparator on member counts applied to the refined clusters; its
    result is a rearrangement of them in which no cluster has more
    members than a cluster before it.  The clusters that the compression
    returns are taken from the sorted ones without a change of order or
    of members, so they are in descending order of member count too, and
    the palette lists one entry per such cluster, in that order, with
    the cluster's colour and ratio. *)
Theorem sorted_by_member_count (s_minimumSquareDistance : Z)
    (ratio_default : Q) (samples : list QRgb) (clusters : list colorStat) :
  result (sortedClusters s_minimumSquareDistance ratio_default samples clusters)
  = std_sort <$>
      result (refinedClusters s_minimumSquareDistance ratio_default samples clusters)
  /\ (forall refined : list colorStat,
        std_sort refined ≡ₚ refined
        /\ StronglySorted noFewerColors (std_sort refined))
  /\ (forall merged imageData,
        result (mergedClusters s_minimumSquareDistance ratio_default
                  samples clusters) = Some merged ->
        result (deriveColors s_minimumSquareDistance samples merged)
          = Some imageData ->
        exists sorted,
          result (sortedClusters s_minimumSquareDistance ratio_default
                    samples clusters) = Some sorted
          /\ m_clusters imageData = merged
          /\ map colors merged `sublist_of` map colors sorted
          /\ StronglySorted noFewerColors merged
          /\ map color (m_palette imageData)
             = map (fun stat => fromQRgb (centroid stat)) merged
          /\ map entryRatio (m_palette imageData) = map ratio merged).
Proof.
  split; [|split].
  - unfold sortedClusters. rewrite result_bind. by destruct (result _).
  - intros refined.
    destruct (sort_fold refined [] (SSorted_nil _)) as [H1 H2].
    split; [exact H2 | exact H1].
  - intros merged imageData Hm Hd.
    destruct (mergedClusters_order _ _ _ _ _ Hm) as (sorted & Hs & Hsub & Hsorted).
    apply deriveColors_inv in Hd as (firstStat & rest & _ & _ & Hcl & _ & Hpal & _).
    exists sorted. rewrite Hpal, !map_map. by repeat split.
Qed.

(** The image [threeGroups]: the sorted clusters have 6, 5 and 3
    members; the palette has the two entries of the clusters that the
    compression returns, which hold 6 and 5 members. *)
Lemma sorted_by_member_count_witness :
  exists merged imageData,
    result (mergedClusters thresholdExample ratioExample
              (collectSamples thresholdExample ratioExample threeGroups).1
              (collectSamples thresholdExample ratioExample threeGroups).2)
      = Some merged
    /\ result (generatePalette thresholdExample ratioExample threeGroups)
         = Some imageData
    /\ map (fun stat => length (colors stat)) merged = [6; 5]%nat
    /\ StronglySorted noFewerColors merged
    /\ map color (m_palette imageData)
       = map (fun stat => fromQRgb (centroid stat)) merged.
Proof.
  destruct (result (mergedClusters thresholdExample ratioExample
                      (collectSamples thresholdExample ratioExample threeGroups).1
                      (collectSamples thresholdExample ratioExample threeGroups).2))
    as [merged|] eqn:Hm; [|vm_compute in Hm; discriminate].
  destruct (result (deriveColors thresholdExample
                      (collectSamples thresholdExample ratioExample threeGroups).1
                      merged))
    as [imageData|] eqn:Hd;
    [|vm_compute in Hm; injection Hm as <-; vm_compute in Hd; discriminate].
  exists merged, imageData. split; [reflexivity |].
  destruct (sorted_by_member_count thresholdExample ratioExample
              (collectSamples thresholdExample ratioExample threeGroups).1
              (collectSamples thresholdExample ratioExample threeGroups).2)
    as (_ & _ & Hpalette).
  destruct (Hpalette merged imageData Hm Hd)
    as (sorted & _ & _ & _ & Hsorted & Hcolor & _).
  assert (result (generatePalette thresholdExample ratioExample threeGroups)
          = Some imageData) as Hres.
  { rewrite <- Hd. vm_compute in Hm. injection Hm as <-.
    vm_compute. reflexivity. }
  split; [exact Hres |]. split.
  { vm_compute in Hm. injection Hm as <-. reflexivity. }
  split; [exact Hsorted | exact Hcolor].
Defined.

(** The image [threeGroups]: the sorted clusters have 6, 5 and 3
    members, the third is folded into the second, and the palette lists
    the ratio 6/11 before the ratio 8/11. *)
Lemma palette_ratio_order_counterexample :
  exists sorted imageData,
    result (sortedClusters thresholdExample ratioExample
              (collectSamples thresholdExample ratioExample threeGroups).1
              (collectSamples thresholdExample ratioExample threeGroups).2)
      = Some sorted
    /\ map (fun stat => length (colors stat)) sorted = [6; 5; 3]%nat
    /\ result (generatePalette thresholdExample ratioExample threeGroups)
         = Some imageData
    /\ paletteRatios imageData = [(6 # 11)%Q; (8 # 11)%Q]
    /\ (6 # 11 < 8 # 11)%Q.
Proof.
  eexists _, _. split; [vm_compute; reflexivity |].
  split; [reflexivity |].
  split; [vm_compute; reflexivity |].
  split; reflexivity.
Qed.

(** A result with a palette: [m_samples] holds the colours of the pixels
    of non-zero alpha in scan order; the palette has one entry per final
    cluster, in the order of the clusters, with the centroid as colour
    and the cluster's ratio; the clusters, and so the entries, are in
    descending order of the member counts of the last assignment; the
    dominant colour is the colour of the first entry and the suggested
    contrast colour is the contrast colour of the first entry. *)
Theorem palette_follows_clusters (s_minimumSquareDistance : Z)
    (ratio_default : Q) (sourceImage : QImage) (imageData : ImageData) :
  result (generatePalette s_minimumSquareDistance ratio_default sourceImage)
    = Some imageData ->
  m_palette imageData <> [] ->
  m_samples imageData = eligibleSamples sourceImage
  /\ map color (m_palette imageData)
     = map (fun stat => fromQRgb (centroid stat)) (m_clusters imageData)
  /\ map entryRatio (m_palette imageData) = map ratio (m_clusters imageData)
  /\ StronglySorted noFewerColors (m_clusters imageData)
  /\ exists firstEntry rest,
       m_palette imageData = firstEntry :: rest
       /\ m_dominant imageData = color firstEntry
       /\ m_suggestedContrast imageData = contrastColor firstEntry.
Proof.
  intros Hres Hne.
  apply generatePalette_inv in Hres
    as [-> | (samples & clusters & merged & Hc & _ & Hm & Hd)]; [done |].
  destruct (deriveColors_more _ _ _ _ Hd) as (_ & _ & f & r & Hfr & Hsug).
  apply deriveColors_inv in Hd
    as (firstStat & rest & Hmerged & Hs & Hcl & Hdom & Hpal & _).
  rewrite Hmerged in Hfr. injection Hfr as <- <-.
  split.
  { rewrite Hs.
    destruct (collectSamples_spec s_minimumSquareDistance ratio_default
                sourceImage) as (Hspec & _).
    by rewrite Hc in Hspec. }
  rewrite Hpal, Hcl, !map_map. split; [done |]. split; [done |].
  split; [by apply (mergedClusters_sorted _ _ _ _ _ Hm) |].
  rewrite Hmerged. cbn [map].
  eexists _, _. split; [reflexivity |].
  cbn [color contrastColor paletteEntryOf]. by split.
Qed.

(** The image [threeGroups]: two entries, (255,40,93) with six members
    before (0,40,37) with five. *)
Lemma palette_follows_clusters_witness :
  exists imageData,
    result (generatePalette thresholdExample ratioExample threeGroups)
      = Some imageData
    /\ m_palette imageData <> []
    /\ m_samples imageData = eligibleSamples threeGroups
    /\ map (fun stat => length (colors stat)) (m_clusters imageData)
       = [6; 5]%nat
    /\ StronglySorted noFewerColors (m_clusters imageData).
Proof.
  destruct (result (generatePalette thresholdExample ratioExample threeGroups))
    as [imageData|] eqn:Hres; [|vm_compute in Hres; discriminate].
  exists imageData. split; [reflexivity |].
  assert (m_palette imageData <> []) as Hne
    by (vm_compute in Hres; injection Hres as <-; discriminate).
  split; [exact Hne |].
  destruct (palette_follows_clusters thresholdExample ratioExample threeGroups
              imageData Hres Hne) as (Hs & _ & _ & Hsorted & _).
  split; [exact Hs |]. split; [|exact Hsorted].
  vm_compute in Hres. injection Hres as <-. reflexivity.
Defined.

(** ** The mixed centroid *)


(** ** Images of one colour *)

Lemma qRgb_bytes (r g b : Z) :
  qRgb r g b = qRgb (Z.land r 255) (Z.land g 255) (Z.land b 255).
Proof.
  unfold qRgb. rewrite <- !Z.land_assoc. by change (Z.land 255 255) with 255.
Qed.

Lemma qRgb_channels (r g b : Z) :
  qRgb (qRed (qRgb r g b)) (qGreen (qRgb r g b)) (qBlue (qRgb r g b))
  = qRgb r g b.
Proof.
  rewrite (qRgb_bytes r g b).
  pose proof (channels_qRgb _ _ _ (byte_range r) (byte_range g) (byte_range b))
    as H.
  unfold channels in H. injection H as -> -> ->. reflexivity.
Qed.

Lemma sample_is_qRgb sourceImage (c : QRgb) :
  c ∈ eligibleSamples sourceImage ->
  qRgb (qRed c) (qGreen c) (qBlue c) = c.
Proof.
  unfold eligibleSamples. intros H.
  apply list_elem_of_fmap in H as (col & -> & _).
  unfold rgb. apply qRgb_channels.
Qed.

Section Uniform.

Variable s_minimumSquareDistance : Z.
Variable ratio_default : Q.
Variable c : QRgb.

Hypothesis threshold_positive : 0 < s_minimumSquareDistance.
Hypothesis c_is_qRgb : qRgb (qRed c) (qGreen c) (qBlue c) = c.

Lemma positionColor_uniform (m : nat) (q : Q) :
  positionColor s_minimumSquareDistance ratio_default c [uniformCluster c m q]
  = [uniformCluster c (S m) q].
Proof.
  cbn [positionColor uniformCluster centroid].
  rewrite squareDistance_diag.
  assert ((0 <? s_minimumSquareDistance) = true) as -> by (by apply Z.ltb_lt).
  unfold appendColor, uniformCluster. cbn [colors centroid ratio].
  by rewrite <- replicate_S_end.
Qed.

Lemma reassign_uniform (k : nat) (q : Q) : forall m : nat,
  reassign s_minimumSquareDistance ratio_default (replicate k c)
    [uniformCluster c m q]
  = [uniformCluster c (m + k) q].
Proof.
  induction k as [|k IH]; intros m; cbn [replicate].
  { unfold reassign. cbn [fold_left]. by rewrite Nat.add_0_r. }
  change (reassign s_minimumSquareDistance ratio_default (c :: replicate k c)
            [uniformCluster c m q])
    with (reassign s_minimumSquareDistance ratio_default (replicate k c)
            (positionColor s_minimumSquareDistance ratio_default c
               [uniformCluster c m q])).
  rewrite positionColor_uniform, IH. do 2 f_equal. lia.
Qed.

Lemma scan_uniform (n : nat) :
  reassign s_minimumSquareDistance ratio_default (replicate (S n) c) []
  = [uniformCluster c (S n) ratio_default].
Proof.
  cbn [replicate].
  change (reassign s_minimumSquareDistance ratio_default (c :: replicate n c) [])
    with (reassign s_minimumSquareDistance ratio_default (replicate n c)
            [uniformCluster c 1 ratio_default]).
  by rewrite reassign_uniform.
Qed.

Lemma sumsFit_fewer (m n : nat) :
  (m <= n)%nat -> sumsFit (replicate n c) -> sumsFit (replicate m c).
Proof.
  intros Hmn. unfold sumsFit. rewrite !sumOf_replicate.
  destruct (channels_range c) as (Hr & Hg & Hb). nia.
Qed.

Lemma updateCentroid_uniform (samples : list QRgb) (m : nat) (q : Q) :
  samples <> [] -> sumsFit (replicate (S m) c) ->
  result (updateCentroid samples (uniformCluster c (S m) q))
  = Some (uniformCluster c 1
            (inject_Z (Z.of_nat (S m)) / inject_Z (Z.of_nat (length samples)))).
Proof.
  intros Hs (Hfr & Hfg & Hfb). unfold updateCentroid, uniformCluster.
  cbn [colors].
  rewrite sumChannels_sums by lia.
  rewrite !sumOf_replicate, !Z.add_0_l, length_replicate.
  unfold int_div, real_div, bind, ret, result.
  destruct (Z.eqb_spec (Z.of_nat (S m)) 0) as [E|_]; [lia |].
  rewrite !Z.quot_mul by lia.
  rewrite Qeq_bool_inject_Z by (destruct samples; cbn [length]; [done | lia]).
  cbn [fst snd app]. by rewrite c_is_qRgb.
Qed.

Lemma refineIteration_uniform (n m : nat) (q : Q) :
  sumsFit (replicate (S m) c) ->
  result (refineIteration s_minimumSquareDistance ratio_default
            (replicate (S n) c) [uniformCluster c (S m) q])
  = Some [uniformCluster c (S (S n))
            (inject_Z (Z.of_nat (S m)) / inject_Z (Z.of_nat (S n)))].
Proof.
  intros Hfit. rewrite refineIteration_result. cbn [mapM].
  rewrite !result_bind, updateCentroid_uniform by done.
  cbn [result ret bind snd fst app fmap option_fmap option_map].
  by rewrite reassign_uniform, length_replicate.
Qed.

Lemma refine_uniform (n : nat) :
  sumsFit (replicate (S (S n)) c) ->
  result (refine s_minimumSquareDistance ratio_default 5 (replicate (S n) c)
            [uniformCluster c (S n) ratio_default])
  = Some [uniformCluster c (S (S n))
            (inject_Z (Z.of_nat (S (S n))) / inject_Z (Z.of_nat (S n)))].
Proof.
  intros Hfit.
  pose proof (sumsFit_fewer (S n) (S (S n)) ltac:(lia) Hfit) as Hfit'.
  cbn [refine].
  do 5 (rewrite result_bind, refineIteration_uniform by done).
  reflexivity.
Qed.

Lemma mergedClusters_uniform (n : nat) :
  sumsFit (replicate (S (S n)) c) ->
  result (mergedClusters s_minimumSquareDistance ratio_default
            (replicate (S n) c) [uniformCluster c (S n) ratio_default])
  = Some [uniformCluster c (S (S n))
            (inject_Z (Z.of_nat (S (S n))) / inject_Z (Z.of_nat (S n)))].
Proof.
  intros Hfit.
  unfold mergedClusters, sortedClusters, refinedClusters.
  rewrite !result_bind, refine_uniform by done. cbn [result ret snd].
  change (std_sort [?x]) with [x].
  unfold mergeClusters. rewrite mergeLoop_separated; [done | done |].
  intros i j source dest Hj Hi Hd.
  apply lookup_lt_Some in Hi. cbn [length] in Hi. lia.
Qed.

End Uniform.

Lemma generatePalette_samples smin rd sourceImage :
  isNull sourceImage = false -> eligibleSamples sourceImage <> [] ->
  generatePalette smin rd sourceImage
  = (merged <- mergedClusters smin rd (eligibleSamples sourceImage)
                 (reassign smin rd (eligibleSamples sourceImage) []) ;;
     deriveColors smin (eligibleSamples sourceImage) merged).
Proof.
  intros Hnull Hne. unfold generatePalette. rewrite Hnull.
  destruct (Z.eqb_spec (width sourceImage) 0) as [Hw|_].
  { exfalso. apply Hne. unfold eligibleSamples, scanOrder, range.
    by rewrite Hw. }
  cbn [orb]. rewrite collectSamples_reassign.
  by destruct (eligibleSamples sourceImage).
Qed.

(** An image whose pixels of non-zero alpha all have one colour, [n + 1]
    of them, under a positive threshold, where the channel sums of
    [n + 2] copies of the colour are within the range of [int] (as they
    are up to 8421504 copies): the extraction has a result
    with one cluster and one palette entry of that colour, which is also
    the dominant colour.  The cluster holds the samples and the centroid
    that seeded it, [n + 2] members, and the entry's ratio is
    (n + 2) / (n + 1): greater than one, because the ratio is the member
    count of the iteration before over the number of samples. *)
Theorem uniform_image_palette (s_minimumSquareDistance : Z)
    (ratio_default : Q) (sourceImage : QImage) (c : QRgb) (n : nat) :
  0 < s_minimumSquareDistance ->
  isNull sourceImage = false ->
  eligibleSamples sourceImage = replicate (S n) c ->
  sumsFit (replicate (S (S n)) c) ->
  exists imageData entry,
    result (generatePalette s_minimumSquareDistance ratio_default sourceImage)
      = Some imageData
    /\ m_samples imageData = replicate (S n) c
    /\ map colors (m_clusters imageData) = [replicate (S (S n)) c]
    /\ m_palette imageData = [entry]
    /\ color entry = fromQRgb c
    /\ entryRatio entry
       = (inject_Z (Z.of_nat (S (S n))) / inject_Z (Z.of_nat (S n)))%Q
    /\ (1 < entryRatio entry)%Q
    /\ m_dominant imageData = fromQRgb c.
Proof.
  intros Hpos Hnull Hsamples Hfit.
  assert (qRgb (qRed c) (qGreen c) (qBlue c) = c) as Hc.
  { apply (sample_is_qRgb sourceImage). rewrite Hsamples. left. }
  rewrite generatePalette_samples by (by rewrite ?Hsamples).
  rewrite Hsamples, result_bind, scan_uniform, mergedClusters_uniform by done.
  match goal with
  | |- context [deriveColors _ _ [?x]] =>
      destruct (deriveColors_defined s_minimumSquareDistance
                  (replicate (S n) c) x []) as [imageData Hd]
  end.
  pose proof Hd as Hinv.
  apply deriveColors_inv in Hinv
    as (firstStat & rest & Hm & Hs & Hcl & Hdom & Hpal & _).
  injection Hm as <- <-.
  eexists imageData, _. split; [exact Hd |]. split; [exact Hs |].
  rewrite Hcl, Hpal, Hdom. cbn [map colors uniformCluster centroid].
  split; [reflexivity |]. split; [reflexivity |].
  cbn [color entryRatio paletteEntryOf ratio centroid].
  split; [reflexivity |]. split; [reflexivity |]. split; [|reflexivity].
  apply Qlt_shift_div_l.
  - replace 0%Q with (inject_Z 0) by reflexivity. rewrite <- Zlt_Qlt. lia.
  - rewrite Qmult_1_l, <- Zlt_Qlt. lia.
Qed.

(** Scenario A, four pixels of (200,100,50): ratio 5/4. *)
Lemma uniform_image_palette_witness :
  0 < thresholdExample
  /\ isNull scenarioA = false
  /\ eligibleSamples scenarioA = replicate 4 (qRgb 200 100 50)
  /\ sumsFit (replicate 5 (qRgb 200 100 50))
  /\ exists imageData entry,
       result (generatePalette thresholdExample ratioExample scenarioA)
         = Some imageData
       /\ m_palette imageData = [entry]
       /\ color entry = fromQRgb (qRgb 200 100 50)
       /\ (entryRatio entry == 5 # 4)%Q.
Proof.
  assert (0 < thresholdExample) as Hpos by reflexivity.
  assert (eligibleSamples scenarioA = replicate 4 (qRgb 200 100 50)) as Hs
    by (vm_compute; reflexivity).
  assert (sumsFit (replicate 5 (qRgb 200 100 50))) as Hfit
    by (apply sumsFit_short; rewrite length_replicate; lia).
  split; [exact Hpos |]. split; [reflexivity |]. split; [exact Hs |].
  split; [exact Hfit |].
  destruct (uniform_image_palette thresholdExample ratioExample scenarioA
              (qRgb 200 100 50) 3 Hpos eq_refl Hs Hfit)
    as (imageData & entry & Hres & _ & _ & Hpal & Hcolor & Hratio & _).
  exists imageData, entry. split; [exact Hres |]. split; [exact Hpal |].
  split; [exact Hcolor |]. rewrite Hratio. vm_compute. reflexivity.
Defined.

(** ** How the extraction can fail *)

Lemma absorb_fails source dest :
  result (absorb source dest) = None -> failedMerge source dest.
Proof.
  unfold absorb, failedMerge. rewrite result_bind.
  destruct (result (weight (ratio source) (ratio dest))) as [ratio'|] eqn:Hw.
  - intros H. right. exists ratio'.
    rewrite result_bind in H.
    destruct (result (mix ratio' (qRed _) _)) as [r|] eqn:Hr;
      [|exists qRed; by auto].
    rewrite result_bind in H.
    destruct (result (mix ratio' (qGreen _) _)) as [g|] eqn:Hg;
      [|exists qGreen; by auto].
    rewrite result_bind in H.
    destruct (result (mix ratio' (qBlue _) _)) as [b|] eqn:Hb;
      [discriminate | exists qBlue; by auto].
  - intros _. left. revert Hw. unfold weight. cbn [result snd].
    destruct (Qeq_bool (ratio dest) 0) eqn:E; [|discriminate].
    intros _. by apply Qeq_bool_eq.
Qed.

Lemma mergeLoop_fails smin : forall (n : nat) clusters itemsToDelete,
  (n <= length clusters)%nat ->
  result (mergeLoop smin n clusters itemsToDelete) = None ->
  endsInFailedMerge (trace (mergeLoop smin n clusters itemsToDelete)).
Proof.
  induction n as [|i IH]; intros cl ds Hn; cbn [mergeLoop]; [discriminate |].
  destruct (lookup_lt_is_Some_2 cl i) as [source Hs]; [lia |].
  rewrite Hs.
  destruct (list_find (withinThreshold smin source) (take i cl))
    as [[j dest]|] eqn:Hf.
  - rewrite result_bind, trace_bind, absorb_one_division.
    destruct (result (absorb source dest)) as [dest'|] eqn:Hab.
    + intros Hnone.
      destruct (IH (<[j := dest']> cl) (ds ++ [i]))
        as (t & src & dst & Ht & Hz);
        [by rewrite length_insert; lia | done |].
      exists (RealDivision (ratio source) (ratio dest) :: t), src, dst.
      split; [by rewrite Ht | done].
    + intros _. exists [], source, dest.
      split; [done | by apply absorb_fails].
  - apply IH. lia.
Qed.

Lemma mergeClusters_fails smin clusters :
  result (mergeClusters smin clusters) = None ->
  endsInFailedMerge (trace (mergeClusters smin clusters))
  \/ exists swept items,
       result (mergeLoop smin (length clusters) clusters [])
         = Some (swept, items)
       /\ result (eraseItems swept items) = None
       /\ ~ erasedFromBack (length swept) items.
Proof.
  unfold mergeClusters. rewrite result_bind, trace_bind.
  destruct (result (mergeLoop smin (length clusters) clusters []))
    as [[swept items]|] eqn:Hl.
  - cbn [fst snd]. intros Hnone. right. exists swept, items.
    split; [done |]. split; [done |]. intros Hback.
    destruct (mergeLoop_items _ _ _ _ _ _ Hl) as (new & Hnew & Hsorted & Hlt).
    cbn [app] in Hnew. subst new.
    rewrite eraseItems_listed in Hnone; [done | done | | done].
    by rewrite (mergeLoop_length _ _ _ _ _ _ Hl).
  - intros _. left. rewrite app_nil_r. by apply mergeLoop_fails.
Qed.

(** The compression has no result in two cases only.  Either the last
    merge of the sweep has none: the destination's ratio is zero, or a
    mixed channel does not convert to [int]; the division of that merge
    is the last event of the trace.  Or the sweep completes and the loop
    over [itemsToDelete] is handed an iterator outside the list, which
    requires an erasure before the last to have closed its gap from the
    front.  The sweep itself never reads a position outside the list. *)
Theorem compression_failure_modes (s_minimumSquareDistance : Z)
    (clusters : list colorStat) :
  result (mergeClusters s_minimumSquareDistance clusters) = None ->
  endsInFailedMerge (trace (mergeClusters s_minimumSquareDistance clusters))
  \/ exists swept items,
       result (mergeLoop s_minimumSquareDistance (length clusters) clusters [])
         = Some (swept, items)
       /\ result (eraseItems swept items) = None
       /\ ~ erasedFromBack (length swept) items.
Proof. apply mergeClusters_fails. Qed.

(** The pair [zeroPair]: the second cluster is within the threshold of
    the first, whose ratio is zero. *)
Lemma compression_failure_modes_witness :
  result (mergeClusters thresholdExample zeroPair) = None
  /\ trace (mergeClusters thresholdExample zeroPair)
     = [RealDivision (1 # 4) 0]
  /\ (endsInFailedMerge (trace (mergeClusters thresholdExample zeroPair))
      \/ exists swept items,
           result (mergeLoop thresholdExample (length zeroPair) zeroPair [])
             = Some (swept, items)
           /\ result (eraseItems swept items) = None
           /\ ~ erasedFromBack (length swept) items).
Proof.
  assert (result (mergeClusters thresholdExample zeroPair) = None) as Hnone
    by (vm_compute; reflexivity).
  split; [exact Hnone |]. split; [vm_compute; reflexivity |].
  exact (compression_failure_modes thresholdExample zeroPair Hnone).
Defined.

(** A cluster list without an empty cluster has no more clusters than
    members, and a cluster of it leaves one member to every other. *)
Lemma populated_length clusters :
  populated clusters -> (length clusters <= memberCount clusters)%nat.
Proof.
  unfold memberCount.
  induction 1 as [|stat cl Hstat _ IH]; simpl; [lia |].
  destruct (colors stat); [done |]. simpl in *. lia.
Qed.

Lemma populated_member_bound clusters stat :
  populated clusters -> stat ∈ clusters ->
  (length (colors stat) + length clusters <= memberCount clusters + 1)%nat.
Proof.
  unfold memberCount.
  induction 1 as [|first cl Hfirst Hcl IH]; intros Hin.
  { by apply elem_of_nil in Hin. }
  simpl.
  apply elem_of_cons in Hin as [-> | Hin].
  - pose proof (populated_length cl Hcl) as Hlen.
    unfold memberCount in Hlen. lia.
  - specialize (IH Hin).
    destruct (colors first); [done |]. simpl in *. lia.
Qed.

Lemma reassign_length smin rd samples clusters :
  (length clusters <= length (reassign smin rd samples clusters))%nat.
Proof.
  destruct (reassign_ratios smin rd samples clusters) as [n Hn].
  apply (f_equal length) in Hn.
  rewrite length_app, !length_map in Hn. lia.
Qed.

(** No cluster that enters a centroid update has more members than the
    samples and one centroid. *)
Lemma refine_member_bound smin rd (k : nat) samples clusters before :
  samples <> [] -> populated clusters ->
  memberCount clusters = length samples ->
  result (refine smin rd k samples clusters) = Some before ->
  Forall (fun stat => (length (colors stat) <= length samples + 1)%nat) before.
Proof.
  intros Hne Hpop Hcount Hbefore. apply Forall_forall. intros stat Hin.
  destruct k as [|k].
  { injection Hbefore as <-.
    pose proof (populated_member_bound clusters stat Hpop Hin).
    destruct clusters; [by apply elem_of_nil in Hin |].
    cbn [length] in *. lia. }
  destruct (refine_defined smin rd k samples clusters Hne Hpop)
    as (earlier & Hearlier & Hpe).
  destruct (refine_last _ _ _ _ _ _ _ Hearlier Hbefore) as (updated & Hupd & ->).
  apply updated_members in Hupd as (Hmem & Hpu & Hlen).
  pose proof (reassign_populated smin rd samples updated Hpu) as Hpr.
  pose proof (populated_member_bound _ stat Hpr Hin) as Hbound.
  pose proof (reassign_length smin rd samples updated) as Hlonger.
  pose proof (reassign_members smin rd samples updated) as Hperm.
  apply Permutation_length in Hperm.
  rewrite <- memberCount_members, length_app, Hmem, length_map in Hperm.
  lia.
Qed.

(** The extraction as a whole, for every image, threshold and default
    ratio: either it has a result, or the scan, the five iterations
    (their [int] sums wrapping) and the sort completed and the
    compression of the sorted clusters has no result.  The centroid
    means and the ratios of the iterations never divide by zero, and the
    derivation of the colours never takes [first()] of an empty list.
    For an image of at most 8421503 samples no cluster that enters a
    centroid update has channel sums beyond the range of [int]: no sum
    wraps. *)
Theorem extraction_fails_only_in_compression (s_minimumSquareDistance : Z)
    (ratio_default : Q) (sourceImage : QImage) :
  ((exists imageData,
      result (generatePalette s_minimumSquareDistance ratio_default sourceImage)
        = Some imageData)
   \/ (result (generatePalette s_minimumSquareDistance ratio_default sourceImage)
         = None
       /\ exists sorted,
            result (sortedClusters s_minimumSquareDistance ratio_default
                      (eligibleSamples sourceImage)
                      (reassign s_minimumSquareDistance ratio_default
                         (eligibleSamples sourceImage) []))
              = Some sorted
            /\ sorted <> []
            /\ result (mergeClusters s_minimumSquareDistance sorted) = None
            /\ trace (generatePalette s_minimumSquareDistance ratio_default
                        sourceImage)
               = trace (sortedClusters s_minimumSquareDistance ratio_default
                          (eligibleSamples sourceImage)
                          (reassign s_minimumSquareDistance ratio_default
                             (eligibleSamples sourceImage) []))
                 ++ trace (mergeClusters s_minimumSquareDistance sorted)))
  /\ (Z.of_nat (length (eligibleSamples sourceImage)) <= 8421503 ->
      forall (k : nat) before,
        result (refine s_minimumSquareDistance ratio_default k
                  (eligibleSamples sourceImage)
                  (reassign s_minimumSquareDistance ratio_default
                     (eligibleSamples sourceImage) []))
          = Some before ->
        Forall (fun stat => sumsFit (colors stat)) before).
Proof.
  split; cycle 1.
  { intros Hsize k before Hbefore.
    destruct (decide (eligibleSamples sourceImage = [])) as [Hnil|Hne].
    { rewrite Hnil in Hbefore. cbn [reassign fold_left] in Hbefore.
      assert (forall n,
                 result (refine s_minimumSquareDistance ratio_default n [] [])
                 = Some []) as Hempty.
      { induction n as [|n IH]; [reflexivity |].
        change (refine s_minimumSquareDistance ratio_default (S n) [] [])
          with (c <- refineIteration s_minimumSquareDistance ratio_default
                       [] [] ;;
                refine s_minimumSquareDistance ratio_default n [] c).
        by rewrite result_bind. }
      rewrite Hempty in Hbefore. injection Hbefore as <-. constructor. }
    destruct (collectSamples_spec s_minimumSquareDistance ratio_default
                sourceImage) as (_ & Hm & Hp).
    rewrite collectSamples_reassign in Hm, Hp. cbn [snd] in Hm, Hp.
    apply Permutation_length in Hm. rewrite <- memberCount_members in Hm.
    pose proof (refine_member_bound _ _ k _ _ before Hne Hp Hm Hbefore)
      as Hbound.
    eapply Forall_impl; [exact Hbound |]. intros stat Hstat. cbv beta in Hstat.
    apply sumsFit_short. lia. }
  destruct (isNull sourceImage) eqn:Hnull.
  { left. unfold generatePalette. rewrite Hnull. by eexists. }
  destruct (decide (eligibleSamples sourceImage = [])) as [Hnil|Hne].
  { left. unfold generatePalette. rewrite Hnull, collectSamples_reassign, Hnil.
    destruct (_ || _); by eexists. }
  rewrite generatePalette_samples by done.
  set (samples := eligibleSamples sourceImage) in *.
  set (clusters := reassign s_minimumSquareDistance ratio_default samples []).
  assert (populated clusters) as Hpop.
  { destruct (collectSamples_spec s_minimumSquareDistance ratio_default
                sourceImage) as (_ & _ & Hp).
    by rewrite collectSamples_reassign in Hp. }
  destruct (refine_defined s_minimumSquareDistance ratio_default 5 samples
              clusters Hne Hpop) as (refined & Href & Hpr).
  assert (refined <> []) as Hrne.
  { destruct (refine_defined s_minimumSquareDistance ratio_default 4 samples
                clusters Hne Hpop) as (before & Hbefore & Hpb).
    destruct (refine_last _ _ _ _ _ _ _ Hbefore Href) as (updated & _ & ->).
    intros Hnil.
    pose proof (reassign_members s_minimumSquareDistance ratio_default
                  samples updated) as Hmem.
    rewrite Hnil in Hmem. apply Permutation_length in Hmem.
    rewrite length_app in Hmem.
    change (members []) with (@nil QRgb) in Hmem.
    destruct samples; [done |]. cbn [length] in Hmem. lia. }
  assert (std_sort refined <> []) as Hsne.
  { intros Hnil. apply Hrne.
    destruct (sort_fold refined [] (SSorted_nil _)) as [_ Hperm].
    fold (std_sort refined) in Hperm. cbn [app] in Hperm.
    rewrite Hnil in Hperm. symmetry in Hperm.
    by apply Permutation_nil_r in Hperm. }
  assert (result (sortedClusters s_minimumSquareDistance ratio_default
                    samples clusters) = Some (std_sort refined)) as Hsorted.
  { unfold sortedClusters, refinedClusters. by rewrite result_bind, Href. }
  assert (trace (mergedClusters s_minimumSquareDistance ratio_default
                   samples clusters)
          = trace (sortedClusters s_minimumSquareDistance ratio_default
                     samples clusters)
            ++ trace (mergeClusters s_minimumSquareDistance (std_sort refined)))
    as Htrace.
  { unfold mergedClusters. by rewrite trace_bind, Hsorted. }
  assert (result (mergedClusters s_minimumSquareDistance ratio_default
                    samples clusters)
          = result (mergeClusters s_minimumSquareDistance (std_sort refined)))
    as Hmc.
  { unfold mergedClusters. by rewrite result_bind, Hsorted. }
  rewrite result_bind, trace_bind, Hmc, Htrace.
  destruct (result (mergeClusters s_minimumSquareDistance (std_sort refined)))
    as [merged|] eqn:Hm.
  - left.
    destruct (mergeClusters_shape _ _ _ Hm) as (_ & Hnonempty & _).
    destruct merged as [|firstStat rest]; [by destruct (Hnonempty Hsne) |].
    apply deriveColors_defined.
  - right. split; [done |]. exists (std_sort refined).
    split; [done |]. split; [done |]. split; [done |]. by rewrite app_nil_r.
Qed.
